(** * An FDC3 desktop-agent broker: the background script of the extension

    A shallow embedding of [src/background.js]: the connection registry, the
    channel and context state, the intent listener registry, candidate
    gathering for [raiseIntent], the dispatch of [resolveIntent] and the
    manifest-driven construction of launch URLs.

    JavaScript objects used as dictionaries are finite maps keyed by strings
    (properties inherited from [Object.prototype] are not modelled).  A
    handler is a function from the broker state to an outcome, the state it
    leaves behind and the effects it performed on the way: an exception
    aborts a handler but does not undo what it already did. *)

From Stdlib Require Import ZArith Ascii.
From stdpp Require Import base option list strings gmap pretty.

Set Warnings "-register-all".

(** ** JavaScript values and errors *)

Inductive JsError := TypeError | ReferenceError.

Inductive Outcome (A : Type) :=
| Ret (a : A)
| Throw (e : JsError).
Arguments Ret {A} a.
Arguments Throw {A} e.

#[global] Instance outcome_ret : MRet Outcome := λ A a, Ret a.
#[global] Instance outcome_bind : MBind Outcome := λ A B k m,
  match m with
  | Ret a => k a
  | Throw e => Throw e
  end.

(** The payloads the broker passes around: contexts and message data, as
    parsed JSON.  A number stands as the text [String] turns it into; arrays
    are left out. *)
Inductive Val :=
| VUndef
| VNull
| VBool (b : bool)
| VNum (text : string)
| VStr (s : string)
| VObj (fields : list (string * Val)).

Fixpoint assoc {A} (k : string) (l : list (string * A)) : option A :=
  match l with
  | [] => None
  | (k', v) :: l' => if String.eqb k k' then Some v else assoc k l'
  end.

(** [o[k] = v] on an object whose keys are kept in [Object.keys] order. *)
Fixpoint assoc_set {A} (k : string) (v : A) (l : list (string * A))
  : list (string * A) :=
  match l with
  | [] => [(k, v)]
  | (k', v') :: l' =>
      if String.eqb k k' then (k, v) :: l' else (k', v') :: assoc_set k v l'
  end.

(** [v[k]]: reading a property of [undefined] or [null] is a TypeError; a
    primitive has none of the properties the broker asks for. *)
Definition prop (v : Val) (k : string) : Outcome Val :=
  match v with
  | VUndef | VNull => Throw TypeError
  | VBool _ | VNum _ | VStr _ => Ret VUndef
  | VObj fs => Ret (default VUndef (assoc k fs))
  end.

Definition truthy_str (o : option string) : bool :=
  match o with
  | Some s => negb (String.eqb s "")
  | None => false
  end.

(** The names every plain object inherits from [Object.prototype].  A
    registry kept in a plain object answers under such a name even when it
    has no entry of its own: with a function, or with the prototype itself.
    The answer is truthy and has none of the methods of an array, so
    calling [push], [forEach], [find] or [filter] on it is a TypeError, and
    its element [0] is undefined. *)
Definition inherited (k : string) : bool :=
  existsb (String.eqb k)
    ["constructor"; "hasOwnProperty"; "isPrototypeOf"; "propertyIsEnumerable";
     "toLocaleString"; "toString"; "valueOf"; "__proto__";
     "__defineGetter__"; "__defineSetter__";
     "__lookupGetter__"; "__lookupSetter__"].

(** [ToString] as applied by [String.prototype.replace] to its second
    argument. *)
Definition to_string (v : Val) : string :=
  match v with
  | VUndef => "undefined"
  | VNull => "null"
  | VBool true => "true"
  | VBool false => "false"
  | VNum text => text
  | VStr s => s
  | VObj _ => "[object Object]"
  end.

(** [v === o] where [o] is an optional string field of a parsed manifest. *)
Definition strict_eq_field (v : Val) (o : option string) : bool :=
  match v, o with
  | VUndef, None => true
  | VStr a, Some b => String.eqb a b
  | _, _ => false
  end.

(** ** [String.prototype.replace] with a string pattern

    Only the first occurrence of the pattern is replaced, and the
    replacement text is expanded by GetSubstitution: [$$] is a dollar sign,
    [$&] the matched text, [$`] the text before the match and [$'] the text
    after it.  With a string pattern there are no captures, so every other
    use of [$] stands for itself. *)

Fixpoint is_prefix (p s : string) : bool :=
  match p, s with
  | EmptyString, _ => true
  | String a p', String b s' => if Ascii.eqb a b then is_prefix p' s' else false
  | String _ _, EmptyString => false
  end.

Fixpoint drop_string (n : nat) (s : string) : string :=
  match n, s with
  | O, _ => s
  | S n', String _ s' => drop_string n' s'
  | S _, EmptyString => EmptyString
  end.

(** The text before and after the first occurrence of [pat] in [s]. *)
Fixpoint split_first (pat s : string) : option (string * string) :=
  if is_prefix pat s then Some (EmptyString, drop_string (String.length pat) s)
  else match s with
       | EmptyString => None
       | String c s' =>
           match split_first pat s' with
           | Some (before, after) => Some (String c before, after)
           | None => None
           end
       end.

Fixpoint get_substitution (matched before after rep : string) : string :=
  match rep with
  | EmptyString => EmptyString
  | String "$"%char (String "$"%char r) =>
      String "$"%char (get_substitution matched before after r)
  | String "$"%char (String "&"%char r) =>
      matched +:+ get_substitution matched before after r
  | String "$"%char (String "`"%char r) =>
      before +:+ get_substitution matched before after r
  | String "$"%char (String "'"%char r) =>
      after +:+ get_substitution matched before after r
  | String c r => String c (get_substitution matched before after r)
  end.

Definition js_replace (s pat rep : string) : string :=
  match split_first pat s with
  | None => s
  | Some (before, after) =>
      before +:+ get_substitution pat before after rep +:+ after
  end.

(** ** Data model *)

(** An element of a directory entry's [intents] array. *)
Record IntentDecl := {
  int_name : string;                  (* int.name *)
  int_display_name : option string;
}.

(** A record of [directory.json]: [entry.name], [entry.start_url],
    [entry.manifest] and [entry.intents]; the last three may be absent. *)
Record DirectoryEntry := {
  entry_name : string;
  entry_start_url : option string;
  entry_manifest : option string;
  entry_intents : option (list IntentDecl);
}.

(** An element of [mD.intents] in an application manifest. *)
Record ManifestIntent := {
  mi_intent : string;
  mi_type : option string;
  mi_template : string;
}.

(** A value of the manifest's [params] object. *)
Record ManifestParam := {
  param_type : option string;
  param_key : option string;
  param_id : option string;
}.

(** The parsed manifest [mD]; the objects [templates] and [params] list
    their members in [Object.keys] order. *)
Record Manifest := {
  mf_start_url : option string;
  mf_intents : option (list ManifestIntent);
  mf_templates : option (list (string * string));
  mf_params : option (list (string * ManifestParam));
}.

(** An element of the imported [system-channels] array. *)
Record SystemChannel := {
  chan_id : string;
  chan_color : string;                (* visualIdentity.color *)
}.

(** [port.sender]: the extension id, the hosting tab and the page URL. *)
Record Sender := {
  sender_id : string;
  tab_id : Z;
  sender_url : string;
}.

(** A [chrome.runtime.Port].  [port_ref] is the identity of the JavaScript
    object; the properties the broker adds to a port later ([channel],
    [directoryData]) live in the broker state, keyed by that identity. *)
Record Port := {
  port_ref : nat;
  sender : Sender;
}.

#[global] Instance JsError_eq_dec : EqDecision JsError.
Proof. solve_decision. Defined.
#[global] Instance IntentDecl_eq_dec : EqDecision IntentDecl.
Proof. solve_decision. Defined.
#[global] Instance DirectoryEntry_eq_dec : EqDecision DirectoryEntry.
Proof. solve_decision. Defined.
#[global] Instance Sender_eq_dec : EqDecision Sender.
Proof. solve_decision. Defined.
#[global] Instance Port_eq_dec : EqDecision Port.
Proof. solve_decision. Defined.

(** [port.sender.id + port.sender.tab.id]: string concatenation with the
    decimal form of the tab number. *)
Definition app_id (port : Port) : string :=
  sender_id (sender port) +:+ pretty (tab_id (sender port)).

(** [port.sender.tab.id + ""] *)
Definition tab_key (port : Port) : string := pretty (tab_id (sender port)).

(** The [data] of a [raiseIntent] request and of an [intent] message. *)
Record IntentData := {
  intent : string;
  context : Val;
  data_name : option string;          (* msg.data.name *)
}.

(** An element of the candidate array [r]: [{type:"window", details}] or
    [{type:"directory", details}]. *)
Inductive Candidate :=
| Window (details : Port)
| Directory (details : DirectoryEntry).

(** The bootstrap payload of [environmentData]. *)
Record EnvData := {
  currentChannel : option string;
  env_tabId : Z;
  env_directory : option DirectoryEntry;
}.

(** Messages from the broker to an endpoint, by their [name]. *)
Inductive Message :=
| MEnvironmentData (data : EnvData)
| MContext (data : Val)
| MIntent (data : IntentData)
| MTabTitle (tabId : Z) (title : string).

(** Requests from an endpoint, by their [method]. *)
Inductive Request :=
| Open (name : string)
| AddContextListener
| AddIntentListener (name : string)
| Broadcast (data : Val)
| RaiseIntent (data : IntentData)
| ResolveIntent (selected : Candidate) (intent : string) (context : Val)
| JoinChannel (channel : string) (restoreOnly : bool)
| GetTabTitle (tabId : Z)
| OtherMethod (method : string).

(** What a [fetch(...).then(...)] or a [chrome.tabs.sendMessage] callback
    does once its answer arrives. *)
Inductive Continuation :=
| KConnect (port : Port) (entry : DirectoryEntry) (data : EnvData)
| KOpen (name : string)
| KRaiseLaunch (data : IntentData)
| KResolveLaunch (details : DirectoryEntry) (intent : string) (context : Val)
| KTabTitle (port : Port) (tabId : Z).

(** What a handler does to the outside world. *)
Inductive Effect :=
| PostMessage (to : Port) (m : Message)
| Fetch (url : option string) (k : Continuation)
| WindowOpen (url : option string) (target : option string)
| SetBadgeText (text : string) (tabId : Z)
| SetBadgeBackgroundColor (color : string) (tabId : Z)
| ResolverUI (r : list Candidate) (intent : string) (context : Val)
| TabsSendMessage (tabId : Z) (k : Continuation).

(** ** Broker state: the module-level variables of [background.js] *)

Record Broker := mkBroker {
  directory : option (list DirectoryEntry);      (* null until fetched *)
  connected : gmap string (option Port);         (* a slot may hold null *)
  contexts : gmap string (list Val);
  tabChannels : gmap string string;
  contextListeners : gmap string (list string);
  intentListeners : gmap string (list Port);
  port_channel : gmap nat string;                (* port.channel *)
  port_directoryData : gmap nat DirectoryEntry;  (* port.directoryData *)
}.

Definition set_directory (d : option (list DirectoryEntry)) (b : Broker) :=
  mkBroker d (connected b) (contexts b) (tabChannels b) (contextListeners b)
    (intentListeners b) (port_channel b) (port_directoryData b).
Definition set_connected (c : gmap string (option Port)) (b : Broker) :=
  mkBroker (directory b) c (contexts b) (tabChannels b) (contextListeners b)
    (intentListeners b) (port_channel b) (port_directoryData b).
Definition set_contexts (c : gmap string (list Val)) (b : Broker) :=
  mkBroker (directory b) (connected b) c (tabChannels b) (contextListeners b)
    (intentListeners b) (port_channel b) (port_directoryData b).
Definition set_tabChannels (c : gmap string string) (b : Broker) :=
  mkBroker (directory b) (connected b) (contexts b) c (contextListeners b)
    (intentListeners b) (port_channel b) (port_directoryData b).
Definition set_contextListeners (c : gmap string (list string)) (b : Broker) :=
  mkBroker (directory b) (connected b) (contexts b) (tabChannels b) c
    (intentListeners b) (port_channel b) (port_directoryData b).
Definition set_intentListeners (c : gmap string (list Port)) (b : Broker) :=
  mkBroker (directory b) (connected b) (contexts b) (tabChannels b)
    (contextListeners b) c (port_channel b) (port_directoryData b).
Definition set_port_channel (c : gmap nat string) (b : Broker) :=
  mkBroker (directory b) (connected b) (contexts b) (tabChannels b)
    (contextListeners b) (intentListeners b) c (port_directoryData b).
Definition set_port_directoryData (c : gmap nat DirectoryEntry) (b : Broker) :=
  mkBroker (directory b) (connected b) (contexts b) (tabChannels b)
    (contextListeners b) (intentListeners b) (port_channel b) c.

(** The state after the module body has run: the [default] channel and one
    channel per imported system channel, all empty; the directory not yet
    fetched. *)
Definition init (channels : list SystemChannel) : Broker :=
  let start := mkBroker None ∅ {["default" := []]} ∅ {["default" := []]} ∅ ∅ ∅ in
  foldl (λ b chan,
           set_contexts (<[chan_id chan := []]> (contexts b))
             (set_contextListeners (<[chan_id chan := []]> (contextListeners b)) b))
        start channels.

(** ** Handlers

    A handler threads the broker state and logs its effects; [Throw] ends it
    and keeps both. *)

Definition Handler (A : Type) : Type :=
  Broker → Outcome A * Broker * list Effect.

#[global] Instance handler_ret : MRet Handler := λ A a st, (Ret a, st, []).
#[global] Instance handler_bind : MBind Handler := λ A B k m st,
  match m st with
  | (Ret a, st1, effs1) =>
      match k a st1 with
      | (o, st2, effs2) => (o, st2, effs1 ++ effs2)
      end
  | (Throw e, st1, effs1) => (Throw e, st1, effs1)
  end.

Definition throw {A} (e : JsError) : Handler A := λ st, (Throw e, st, []).
Definition get_state : Handler Broker := λ st, (Ret st, st, []).
Definition modify (f : Broker → Broker) : Handler unit := λ st, (Ret tt, f st, []).
Definition emit (e : Effect) : Handler unit := λ st, (Ret tt, st, [e]).
Definition lift {A} (o : Outcome A) : Handler A := λ st, (o, st, []).

(** [o.f] where [o] may be undefined or null. *)
Definition deref {A} (o : option A) : Handler A :=
  match o with
  | Some a => mret a
  | None => throw TypeError
  end.

(** [l.forEach(f)] *)
Fixpoint for_each {A} (f : A → Handler unit) (l : list A) : Handler unit :=
  match l with
  | [] => mret tt
  | a :: l' => f a ;; for_each f l'
  end.

(** [l.find(f)] where the callback may throw. *)
Fixpoint find_m {A} (f : A → Outcome bool) (l : list A) : Outcome (option A) :=
  match l with
  | [] => Ret None
  | a :: l' =>
      b ← f a;
      if b : bool then Ret (Some a) else find_m f l'
  end.

(** [connected[id]], with an absent slot and a null slot both unusable.
    The ids the broker files ports under end in the digits of a tab number,
    so none is an inherited name; and where a listener list holds any other
    string, a member inherited under it has no [postMessage] and fails like
    an absent slot. *)
Definition connected_port (st : Broker) (id : string) : option Port :=
  mjoin (connected st !! id).

(** [p.channel ? p.channel : "default"] *)
Definition current_channel (st : Broker) (p : Port) : string :=
  match port_channel st !! port_ref p with
  | Some ch => if String.eqb ch "" then "default" else ch
  | None => "default"
  end.

(** *** Connection and disconnection *)

Section Connection.
(** [new URL(u).origin]; [None] when the constructor throws. *)
Variable origin : string → option string.

Definition same_origin (app_origin : string) (ent : DirectoryEntry)
  : Outcome bool :=
  if truthy_str (entry_start_url ent) then
    match origin (default "" (entry_start_url ent)) with
    | Some o => Ret (String.eqb app_origin o)
    | None => Throw TypeError
    end
  else Ret false.

Definition onConnect (port : Port) : Handler unit :=
  app_origin ← deref (origin (sender_url (sender port)));
  st ← get_state;
  dir ← deref (directory st);
  found ← lift (find_m (same_origin app_origin) dir);
  let data := {| currentChannel := tabChannels st !! tab_key port;
                 env_tabId := tab_id (sender port);
                 env_directory := None |} in
  match found with
  | Some entry =>
      if truthy_str (entry_manifest entry) then
        emit (Fetch (entry_manifest entry) (KConnect port entry data))
      else
        modify (λ b, set_port_directoryData
                       (<[port_ref port := entry]> (port_directoryData b)) b) ;;
        emit (PostMessage port (MEnvironmentData
                {| currentChannel := currentChannel data;
                   env_tabId := env_tabId data;
                   env_directory := Some entry |}))
  | None => mret tt
  end ;;
  modify (λ b, set_connected (<[app_id port := Some port]> (connected b)) b).
End Connection.

(** The manifest of the connecting application has arrived.  The callback
    also stores it in [entry.manifestContent], which the broker never reads. *)
Definition onConnect_manifest (port : Port) (entry : DirectoryEntry)
    (data : EnvData) : Handler unit :=
  modify (λ b, set_port_directoryData
                 (<[port_ref port := entry]> (port_directoryData b)) b) ;;
  emit (PostMessage port (MEnvironmentData
          {| currentChannel := currentChannel data;
             env_tabId := env_tabId data;
             env_directory := Some entry |})).

Definition not_id (id : string) (item : string) : bool :=
  negb (String.eqb item id).

Definition other_tab (port : Port) (item : Port) : bool :=
  negb (Z.eqb (tab_id (sender item)) (tab_id (sender port))).

Definition onDisconnect (port : Port) : Handler unit :=
  let id := app_id port in
  modify (λ b, set_connected (<[id := None]> (connected b)) b) ;;
  modify (λ b, set_contextListeners
                 (List.filter (not_id id) <$> contextListeners b) b) ;;
  modify (λ b, set_intentListeners
                 ((λ l, if 0 <? length l then List.filter (other_tab port) l
                        else l) <$> intentListeners b) b).

(** *** Channels

    Where a handler calls a method of [contextListeners[channel]] or of
    [contexts[channel]] without a test, a missing entry and an inherited
    member fail alike, with a TypeError: [deref] stands for both.  Where it
    tests the entry first, the two differ and are told apart. *)

Definition addContextListener (port : Port) : Handler unit :=
  st ← get_state;
  p ← deref (connected_port st (app_id port));
  let channel := current_channel st p in
  l ← deref (contextListeners st !! channel);
  modify (λ b, set_contextListeners
                 (<[channel := l ++ [app_id port]]> (contextListeners b)) b).

Definition deliver_context (data : Val) (l : string) : Handler unit :=
  st ← get_state;
  p ← deref (connected_port st l);
  emit (PostMessage p (MContext data)).

Definition broadcast (port : Port) (data : Val) : Handler unit :=
  st ← get_state;
  p ← deref (connected_port st (app_id port));
  let channel := current_channel st p in
  history ← deref (contexts st !! channel);
  ctx ← lift (prop data "context");
  modify (λ b, set_contexts (<[channel := ctx :: history]> (contexts b)) b) ;;
  listeners ← deref (contextListeners st !! channel);
  for_each (deliver_context data) listeners.

Definition joinChannel (channels : list SystemChannel) (port : Port)
    (chan : string) (restoreOnly : bool) : Handler unit :=
  let _id := app_id port in
  st ← get_state;
  p ← deref (connected_port st _id);
  let prevChan := current_channel st p in
  prev ← deref (contextListeners st !! prevChan);
  modify (λ b, set_contextListeners
                 (<[prevChan := List.filter (not_id _id) prev]>
                    (contextListeners b)) b) ;;
  left_prev ← get_state;
  match contextListeners left_prev !! chan with
  | Some _ => mret tt
  | None =>
      if inherited chan then throw TypeError   (* the member has no push *)
      else modify (λ b, set_contextListeners
                          (<[chan := []]> (contextListeners b)) b)
  end ;;
  modify (λ b, set_contextListeners
                 (<[chan := default [] (contextListeners b !! chan) ++ [_id]]>
                    (contextListeners b)) b) ;;
  modify (λ b, set_port_channel (<[port_ref p := chan]> (port_channel b)) b) ;;
  modify (λ b, set_tabChannels (<[tab_key port := chan]> (tabChannels b)) b) ;;
  emit (SetBadgeText "+" (tab_id (sender port))) ;;
  selectedChannel ← deref (List.find (λ c, String.eqb (chan_id c) chan) channels);
  emit (SetBadgeBackgroundColor (chan_color selectedChannel)
          (tab_id (sender port))) ;;
  st' ← get_state;
  history ← match contexts st' !! chan with
            | Some history => mret history
            | None =>
                if inherited chan then mret []  (* the member has no [0] *)
                else throw TypeError
            end;
  emit (PostMessage port
          (MContext (VObj [("context", default VUndef (head history))]))).

(** *** Intents *)

Definition addIntentListener (port : Port) (name : string) : Handler unit :=
  st ← get_state;
  match intentListeners st !! name with
  | Some _ => mret tt
  | None =>
      if inherited name then throw TypeError   (* the member has no push *)
      else modify (λ b, set_intentListeners
                          (<[name := []]> (intentListeners b)) b)
  end ;;
  modify (λ b, set_intentListeners
                 (<[name := default [] (intentListeners b !! name) ++ [port]]>
                    (intentListeners b)) b).

(** [entry.intents.filter(int => int.name === intent).length > 0] *)
Definition declares (intent : string) (ints : list IntentDecl) : bool :=
  0 <? length (List.filter (λ int, String.eqb (int_name int) intent) ints).

(** The callback of the de-duplication [find]: [app.directoryData.name ===
    entry.name], which reads a property of [app.directoryData]. *)
Definition same_app (st : Broker) (entry : DirectoryEntry) (app : Port)
  : Outcome bool :=
  match port_directoryData st !! port_ref app with
  | Some d => Ret (String.eqb (entry_name d) (entry_name entry))
  | None => Throw TypeError
  end.

(** What one round of [directory.forEach] pushes onto [r]. *)
Definition directory_candidate (st : Broker) (intent : string)
    (entry : DirectoryEntry) : Outcome (list Candidate) :=
  match entry_intents entry with
  | Some ints =>
      if declares intent ints then
        match intentListeners st !! intent with
        | None =>
            if inherited intent then Throw TypeError   (* no find *)
            else Ret [Directory entry]
        | Some list =>
            found ← find_m (same_app st entry) list;
            match found with
            | Some _ => Ret []
            | None => Ret [Directory entry]
            end
        end
      else Ret []
  | None => Ret []
  end.

Fixpoint directory_pass (st : Broker) (intent : string)
    (dir : list DirectoryEntry) : Outcome (list Candidate) :=
  match dir with
  | [] => Ret []
  | entry :: dir' =>
      r1 ← directory_candidate st intent entry;
      r2 ← directory_pass st intent dir';
      Ret (r1 ++ r2)
  end.

(** The dynamic listeners pushed onto [r] before the directory is read. *)
Definition window_pass (st : Broker) (intent : string)
  : Outcome (list Candidate) :=
  match intentListeners st !! intent with
  | Some list => Ret (Window <$> list)
  | None =>
      if inherited intent then Throw TypeError   (* the member has no forEach *)
      else Ret []
  end.

(** The array [r] of the [raiseIntent] handler. *)
Definition candidates (st : Broker) (intent : string)
  : Outcome (list Candidate) :=
  r1 ← window_pass st intent;
  match directory st with
  | Some dir =>
      r2 ← directory_pass st intent dir;
      Ret (r1 ++ r2)
  | None => Throw TypeError
  end.

Definition raiseIntent (port : Port) (data : IntentData) : Handler unit :=
  st ← get_state;
  r ← lift (candidates st (intent data));
  match r with
  | [] => mret tt        (* show message indicating no handler for the intent... *)
  | [Window details] => emit (PostMessage details (MIntent data))
  | [Directory details] =>
      emit (Fetch (entry_manifest details) (KRaiseLaunch data))
  | _ => emit (ResolverUI r (intent data) (context data))
  end.

(** *** Launch URLs from manifest templates *)

(** The loop over [Object.keys(P)] that fills the object [params]. *)
Fixpoint build_params (ps : list (string * ManifestParam)) (ctx : Val)
    (params : list (string * Val)) : Outcome (list (string * Val)) :=
  match ps with
  | [] => Ret params
  | (key, param) :: ps' =>
      ty ← prop ctx "type";
      if strict_eq_field ty (param_type param) then
        if truthy_str (param_key param) then
          v ← prop ctx (default "" (param_key param));
          build_params ps' ctx (assoc_set key v params)
        else if truthy_str (param_id param) then
          ids ← prop ctx "id";
          v ← prop ids (default "" (param_id param));
          build_params ps' ctx (assoc_set key v params)
        else build_params ps' ctx params
      else build_params ps' ctx params
  end.

Definition placeholder (key : string) : string := "${" +:+ key +:+ "}".

(** The loop [template = template.replace("${" + key + "}", params[key])];
    [None] is an undefined template, whose [replace] cannot be called. *)
Fixpoint substitute (params : list (string * Val)) (template : option string)
  : Outcome (option string) :=
  match params with
  | [] => Ret template
  | (key, v) :: params' =>
      match template with
      | Some t =>
          substitute params' (Some (js_replace t (placeholder key) (to_string v)))
      | None => Throw TypeError
      end
  end.

(** [mD.templates[intentData.template]] *)
Definition lookup_template (mD : Manifest) (intentData : option ManifestIntent)
  : Outcome (option string) :=
  match intentData, mf_templates mD with
  | Some i, Some ts => Ret (assoc (mi_template i) ts)
  | _, _ => Throw TypeError
  end.

(** The [fetch] callback of the single-directory-candidate branch of
    [raiseIntent].  It reads the parameters from the free identifier
    [contentManifest]; [None] stands for an identifier with no binding. *)
Definition raise_launch_with (contentManifest : option Manifest)
    (mD : Manifest) (data : IntentData) : Handler unit :=
  ints ← deref (mf_intents mD);
  intentData ← lift (find_m (λ i,
      ty ← prop (context data) "type";
      Ret (strict_eq_field ty (mi_type i)
           && String.eqb (mi_intent i) (intent data))) ints);
  let ctx := context data in
  cm ← match contentManifest with
       | Some cm => mret cm
       | None => throw ReferenceError
       end;
  ps ← deref (mf_params cm);
  params ← lift (build_params ps ctx []);
  template ← lift (lookup_template mD intentData);
  start_url ← lift (substitute params template);
  emit (WindowOpen start_url (data_name data)).

(** [background.js] neither declares nor imports [contentManifest]. *)
Definition raise_launch : Manifest → IntentData → Handler unit :=
  raise_launch_with None.

(** The [fetch] callback of the directory branch of [resolveIntent]. *)
Definition resolve_launch (mD : Manifest) (details : DirectoryEntry)
    (intent : string) (context : Val) : Handler unit :=
  start_url ←
    match mf_intents mD with
    | Some ints =>
        intentData ← lift (find_m (λ i,
            if truthy_str (mi_type i) then
              ty ← prop context "type";
              Ret (strict_eq_field ty (mi_type i)
                   && String.eqb (mi_intent i) intent)
            else Ret (String.eqb (mi_intent i) intent)) ints);
        let ctx := context in
        ps ← deref (mf_params mD);
        params ← lift (build_params ps ctx []);
        template ← lift (lookup_template mD intentData);
        lift (substitute params template)
    | None => mret (mf_start_url mD)
    end;
  emit (WindowOpen start_url (Some (entry_name details))).

Definition resolveIntent (selected : Candidate) (intent : string)
    (context : Val) : Handler unit :=
  match selected with
  | Window details =>
      st ← get_state;
      winList ← match intentListeners st !! intent with
                | Some list => mret list
                | None =>
                    if inherited intent then throw TypeError   (* no find *)
                    else mret []
                end;
      let win := List.find (λ item,
                   Z.eqb (tab_id (sender item)) (tab_id (sender details)))
                   winList in
      match win with
      | Some win =>
          emit (PostMessage win
                  (MIntent {| intent := intent; context := context;
                              data_name := None |})) ;;
          throw TypeError              (* a Port has no method focus *)
      | None => mret tt
      end
  | Directory details =>
      emit (Fetch (entry_manifest details)
              (KResolveLaunch details intent context))
  end.

(** *** The remaining requests and the event loop *)

Definition open (name : string) : Handler unit :=
  st ← get_state;
  dir ← deref (directory st);
  match List.filter (λ item, String.eqb (entry_name item) name) dir with
  | first :: _ => emit (Fetch (entry_manifest first) (KOpen name))
  | [] => mret tt
  end.

Definition getTabTitle (port : Port) (id : Z) : Handler unit :=
  emit (TabsSendMessage id (KTabTitle port id)).

Definition onMessage (channels : list SystemChannel) (port : Port)
    (msg : Request) : Handler unit :=
  match msg with
  | Open name => open name
  | AddContextListener => addContextListener port
  | AddIntentListener name => addIntentListener port name
  | Broadcast data => broadcast port data
  | RaiseIntent data => raiseIntent port data
  | ResolveIntent selected intent context =>
      resolveIntent selected intent context
  | JoinChannel chan restoreOnly => joinChannel channels port chan restoreOnly
  | GetTabTitle id => getTabTitle port id
  | OtherMethod _ => mret tt
  end.

(** A manifest fetched for continuation [k] has been parsed. *)
Definition onManifest (k : Continuation) (mD : Manifest) : Handler unit :=
  match k with
  | KConnect port entry data => onConnect_manifest port entry data
  | KOpen name => emit (WindowOpen (mf_start_url mD) (Some name))
  | KRaiseLaunch data => raise_launch mD data
  | KResolveLaunch details intent context =>
      resolve_launch mD details intent context
  | KTabTitle _ _ => mret tt
  end.

Inductive Event :=
| DirectoryLoaded (data : list DirectoryEntry)
| Connect (port : Port)
| Disconnect (port : Port)
| Receive (port : Port) (msg : Request)
| ManifestFetched (k : Continuation) (mD : Manifest)
| TabTitleReply (port : Port) (tabId : Z) (title : string).

Definition handle (channels : list SystemChannel)
    (origin : string → option string) (ev : Event) : Handler unit :=
  match ev with
  | DirectoryLoaded data => modify (set_directory (Some data))
  | Connect port => onConnect origin port
  | Disconnect port => onDisconnect port
  | Receive port msg => onMessage channels port msg
  | ManifestFetched k mD => onManifest k mD
  | TabTitleReply port tabId title =>
      emit (PostMessage port (MTabTitle tabId title))
  end.

(** One turn of the event loop per event; an exception ends its turn only. *)
Fixpoint run (channels : list SystemChannel) (origin : string → option string)
    (evs : list Event) (st : Broker) : Broker * list Effect :=
  match evs with
  | [] => (st, [])
  | ev :: evs' =>
      match handle channels origin ev st with
      | (_, st1, effs1) =>
          match run channels origin evs' st1 with
          | (st2, effs2) => (st2, effs1 ++ effs2)
          end
      end
  end.

(** ** Observations *)

(** The messages a run of effects posts to port [p], in order. *)
Definition posts_to (p : Port) (effs : list Effect) : list Message :=
  omap (λ e, match e with
             | PostMessage q m => if decide (q = p) then Some m else None
             | _ => None
             end) effs.

(** Whether the resolver UI was called upon. *)
Definition shows_resolver (effs : list Effect) : bool :=
  existsb (λ e, match e with ResolverUI _ _ _ => true | _ => false end) effs.

(** An effect reaches port [p]: a message is posted to it, or it is offered
    as a candidate to the resolver UI. *)
Definition mentions (p : Port) (e : Effect) : Prop :=
  match e with
  | PostMessage q _ => q = p
  | ResolverUI r _ _ => Window p ∈ r
  | _ => False
  end.

(** An event is one of port [p]'s own: its connection, a request it sends,
    or the answer to a question asked on its behalf. *)
Definition concerns (p : Port) (ev : Event) : Prop :=
  match ev with
  | Connect q => q = p
  | Receive q _ => q = p
  | ManifestFetched (KConnect q _ _) _ => q = p
  | TabTitleReply q _ _ => q = p
  | _ => False
  end.

(** Every occupied slot of [connected] is filed under its port's own id, as
    [onConnect] leaves it. *)
Definition connected_by_id (st : Broker) : Prop :=
  ∀ k q, connected st !! k = Some (Some q) → app_id q = k.

(** [registry[name]] is an entry of the registry's own or is undefined: no
    member inherited from [Object.prototype] stands in for a missing
    entry. *)
Definition own_or_absent {A} (registry : gmap string A) (name : string)
  : Prop :=
  registry !! name = None → inherited name = false.

(** Port [p] cannot be reached any more: no slot of [connected] holds it
    and no intent listener list has it. *)
Definition unreachable (p : Port) (st : Broker) : Prop :=
  (∀ k, connected st !! k ≠ Some (Some p)) ∧
  (∀ name ls, intentListeners st !! name = Some ls → p ∉ ls).

(** A handler that, run in a state that satisfies [I], leaves a state that
    satisfies [I], performs only effects that satisfy [E], and returns only
    values that satisfy [post]. *)
Definition maintains (I : Broker → Prop) (E : Effect → Prop) {A}
    (m : Handler A) (post : A → Prop) : Prop :=
  ∀ st, I st →
    I (m st).1.2 ∧ Forall E (m st).2 ∧ ∀ a, (m st).1.1 = Ret a → post a.

(** A handler that keeps [p] unreachable and performs no effect that
    reaches [p]. *)
Abbreviation keeps_out p := (maintains (unreachable p) (λ e, ¬ mentions p e)).

(** ** The channel rules in the words of the specification *)

(** Broadcast: the context becomes the channel's current context, every
    listener other than the broadcaster gets exactly one context message that
    carries the context and the broadcaster as source, and the broadcaster
    gets none. *)
Definition broadcast_as_specified (st : Broker) (port : Port) (data : Val)
  : Prop :=
  let channel := current_channel st port in
  let st' := (broadcast port data st).1.2 in
  let effs := (broadcast port data st).2 in
  ∀ ctx, prop data "context" = Ret ctx →
    head (default [] (contexts st' !! channel)) = Some ctx ∧
    (∀ l q, l ∈ default [] (contextListeners st !! channel) →
            l ≠ app_id port → connected_port st l = Some q →
            posts_to q effs =
              [MContext (VObj [("context", ctx);
                               ("source", VStr (app_id port))])]) ∧
    posts_to port effs = [].

(** addContextListener: a second call changes nothing. *)
Definition addContextListener_idempotent (st : Broker) (port : Port) : Prop :=
  let st1 := (addContextListener port st).1.2 in
  let st2 := (addContextListener port st1).1.2 in
  contextListeners st2 = contextListeners st1.

(** ** The candidate list in the words of the specification

    First every live listener of the intent, in registration order; then
    every directory entry that declares the intent, except those whose name
    is the name of some live listener's matched directory entry. *)

Definition declared (intent : string) (entry : DirectoryEntry) : bool :=
  match entry_intents entry with
  | Some ints => existsb (λ int, String.eqb (int_name int) intent) ints
  | None => false
  end.

Definition matched_by (st : Broker) (entry : DirectoryEntry) (app : Port)
  : bool :=
  match port_directoryData st !! port_ref app with
  | Some d => String.eqb (entry_name d) (entry_name entry)
  | None => false
  end.

Definition candidates_as_specified (st : Broker) (intent : string)
    (dir : list DirectoryEntry) : list Candidate :=
  let live := default [] (intentListeners st !! intent) in
  (Window <$> live) ++
  (Directory <$>
     List.filter (λ entry, declared intent entry
                           && negb (existsb (matched_by st entry) live)) dir).

(** ** A small installation to run the broker on *)

Module Scenario.
Definition extension : string := "fdc3-desktop-agent".

Definition port (ref : nat) (tab : Z) (url : string) : Port :=
  {| port_ref := ref;
     sender := {| sender_id := extension; tab_id := tab; sender_url := url |} |}.

(** Three pages in three tabs. *)
Definition chart : Port := port 1 7 "https://chart.example".
Definition news : Port := port 2 8 "https://news.example".
Definition blotter : Port := port 3 9 "https://blotter.example".

Definition channels : list SystemChannel :=
  [ {| chan_id := "red"; chan_color := "#FF0000" |};
    {| chan_id := "blue"; chan_color := "#0000FF" |} ].

(** The pages of the installation are addressed by their bare origins. *)
Definition origin (url : string) : option string := Some url.

Definition ViewChart : IntentDecl :=
  {| int_name := "ViewChart"; int_display_name := Some "View Chart" |}.

(** A directory that knows the chart page and a second charting
    application that is not running. *)
Definition chartEntry : DirectoryEntry :=
  {| entry_name := "chart"; entry_start_url := Some "https://chart.example";
     entry_manifest := None; entry_intents := Some [ViewChart] |}.
Definition otherChartEntry : DirectoryEntry :=
  {| entry_name := "other-chart";
     entry_start_url := Some "https://other-chart.example";
     entry_manifest := Some "https://other-chart.example/manifest.json";
     entry_intents := Some [ViewChart] |}.

Definition after (evs : list Event) : Broker :=
  (run channels origin evs (init channels)).1.

Definition msft : Val := VObj [("type", VStr "security"); ("ticker", VStr "MSFT")].
Definition viewMsft : IntentData :=
  {| intent := "ViewChart"; context := msft; data_name := None |}.

(** The manifest of the specification's substitution example. *)
Definition manifest : Manifest :=
  {| mf_start_url := Some "app://open";
     mf_intents := Some [ {| mi_intent := "ViewChart";
                             mi_type := Some "security";
                             mi_template := "chart" |} ];
     mf_templates := Some [("chart", "app://open?sym=${symbol}")];
     mf_params := Some [("symbol", {| param_type := Some "security";
                                      param_key := Some "ticker";
                                      param_id := None |})] |}.
End Scenario.

(** ** Further notions *)

(** The text holds a dollar sign, the character GetSubstitution looks for. *)
Fixpoint has_dollar (s : string) : bool :=
  match s with
  | EmptyString => false
  | String c s' => Ascii.eqb c "$" || has_dollar s'
  end.

(** [pat] occurs in [s] with [before] in front of it and [after] behind. *)
Definition occurs_at (pat s before after : string) : Prop :=
  s = before +:+ pat +:+ after.

(** What one turn of the event loop can do to the registries of the channel
    manager: nothing; file a connection; clear one out; append a listener;
    move a listener to another channel; put a context in front of a history. *)
Inductive channel_step (st st1 : Broker) : Prop :=
| step_same :
    connected st1 = connected st →
    contextListeners st1 = contextListeners st →
    port_channel st1 = port_channel st →
    contexts st1 = contexts st →
    tabChannels st1 = tabChannels st →
    channel_step st st1
| step_connect (port : Port) :
    connected st1 = <[app_id port := Some port]> (connected st) →
    contextListeners st1 = contextListeners st →
    port_channel st1 = port_channel st →
    contexts st1 = contexts st →
    tabChannels st1 = tabChannels st →
    channel_step st st1
| step_disconnect (port : Port) :
    connected st1 = <[app_id port := None]> (connected st) →
    contextListeners st1
      = List.filter (not_id (app_id port)) <$> contextListeners st →
    port_channel st1 = port_channel st →
    contexts st1 = contexts st →
    tabChannels st1 = tabChannels st →
    channel_step st st1
| step_listen (port p : Port) (ls : list string) :
    connected_port st (app_id port) = Some p →
    contextListeners st !! current_channel st p = Some ls →
    connected st1 = connected st →
    contextListeners st1
      = <[current_channel st p := ls ++ [app_id port]]> (contextListeners st) →
    port_channel st1 = port_channel st →
    contexts st1 = contexts st →
    tabChannels st1 = tabChannels st →
    channel_step st st1
| step_join (port p : Port) (prev : list string) (chan : string) :
    connected_port st (app_id port) = Some p →
    contextListeners st !! current_channel st p = Some prev →
    connected st1 = connected st →
    contextListeners st1
      = (let left_prev :=
           <[current_channel st p := List.filter (not_id (app_id port)) prev]>
             (contextListeners st) in
         <[chan := default [] (left_prev !! chan) ++ [app_id port]]> left_prev) →
    port_channel st1 = <[port_ref p := chan]> (port_channel st) →
    contexts st1 = contexts st →
    tabChannels st1 = <[tab_key port := chan]> (tabChannels st) →
    channel_step st st1
| step_leave (port p : Port) (prev : list string) :
    connected_port st (app_id port) = Some p →
    contextListeners st !! current_channel st p = Some prev →
    connected st1 = connected st →
    contextListeners st1
      = <[current_channel st p := List.filter (not_id (app_id port)) prev]>
          (contextListeners st) →
    port_channel st1 = port_channel st →
    contexts st1 = contexts st →
    tabChannels st1 = tabChannels st →
    channel_step st st1
| step_broadcast (port p : Port) (history : list Val) (ctx : Val) :
    connected_port st (app_id port) = Some p →
    contexts st !! current_channel st p = Some history →
    connected st1 = connected st →
    contextListeners st1 = contextListeners st →
    port_channel st1 = port_channel st →
    contexts st1 = <[current_channel st p := ctx :: history]> (contexts st) →
    tabChannels st1 = tabChannels st →
    channel_step st st1.

(** Every id in a context listener list has a live connection. *)
Definition listeners_connected (st : Broker) : Prop :=
  ∀ ch ls l, contextListeners st !! ch = Some ls → l ∈ ls →
             is_Some (connected_port st l).

(** The default channel has a listener list, and so has every channel a
    port remembers as its own. *)
Definition channels_listed (st : Broker) : Prop :=
  is_Some (contextListeners st !! "default") ∧
  ∀ ref ch, port_channel st !! ref = Some ch →
            is_Some (contextListeners st !! ch).

(** No intent listener list is kept under a name that every object
    inherits. *)
Definition no_inherited_listeners (st : Broker) : Prop :=
  ∀ name, inherited name = true → intentListeners st !! name = None.

(** The histories of [st'] are those of [st] with new contexts in front:
    no channel gained or lost its history, and no context was dropped. *)
Definition history_extends (st st' : Broker) : Prop :=
  ∀ ch, match contexts st !! ch with
        | Some h => ∃ new, contexts st' !! ch = Some (new ++ h)
        | None => contexts st' !! ch = None
        end.

(** ** The content script: [src/content.ts]

    The part of the content script that carries messages between the page
    and the broker: the listeners wired to the page's FDC3 events, the
    queue that holds their messages until the broker has answered, the
    return listeners and the listeners for messages from the broker.  The
    events it answers to here are the page's FDC3 events and the broker's
    messages; the resolver window with its clicks, the tab title and the
    popup's messages are left out. *)

Module Content.

(** Truthiness of a value. *)
Definition truthy (v : Val) : bool :=
  match v with
  | VUndef | VNull => false
  | VBool b => b
  | VNum text => negb (String.eqb text "0" || String.eqb text "NaN")
  | VStr s => negb (String.eqb s "")
  | VObj _ => true
  end.

(** [v !== null] *)
Definition not_null (v : Val) : bool :=
  match v with VNull => false | _ => true end.

(** [v === s] for a string literal [s]. *)
Definition is_string (v : Val) (s : string) : bool :=
  match v with VStr t => String.eqb t s | _ => false end.

(** Equality of [Map] keys (SameValueZero).  Two objects met at different
    times are never the same object. *)
Definition same_key (a b : Val) : bool :=
  match a, b with
  | VUndef, VUndef | VNull, VNull => true
  | VBool x, VBool y => Bool.eqb x y
  | VNum x, VNum y | VStr x, VStr y => String.eqb x y
  | _, _ => false
  end.

(** A [Map], its entries in insertion order. *)
Fixpoint map_get {A} (k : Val) (m : list (Val * A)) : option (Val * A) :=
  match m with
  | [] => None
  | (k', a) :: m' => if same_key k k' then Some (k', a) else map_get k m'
  end.

Fixpoint map_set {A} (k : Val) (a : A) (m : list (Val * A)) : list (Val * A) :=
  match m with
  | [] => [(k, a)]
  | (k', a') :: m' =>
      if same_key k k' then (k', a) :: m' else (k', a') :: map_set k a m'
  end.

Fixpoint map_delete {A} (k : Val) (m : list (Val * A)) : list (Val * A) :=
  match m with
  | [] => []
  | (k', a') :: m' =>
      if same_key k k' then m' else (k', a') :: map_delete k m'
  end.

(** A return listener: the time stamp of the event that set it and the
    event id its closure holds. *)
Record ReturnListener := {
  ts : Val;
  eventId : Val;
}.

(** The variables of the script. *)
Record State := mkState {
  connected : bool;
  eventQ : list Val;
  returnListeners : list (Val * ReturnListener);
  currentChannel : Val;
  contentName : Val;
}.

Definition initial : State := mkState false [] [] VNull VNull.

Definition set_connected (b : bool) (st : State) : State :=
  mkState b (eventQ st) (returnListeners st) (currentChannel st) (contentName st).
Definition set_eventQ (q : list Val) (st : State) : State :=
  mkState (connected st) q (returnListeners st) (currentChannel st) (contentName st).
Definition set_returnListeners (m : list (Val * ReturnListener)) (st : State) :=
  mkState (connected st) (eventQ st) m (currentChannel st) (contentName st).
Definition set_currentChannel (c : Val) (st : State) : State :=
  mkState (connected st) (eventQ st) (returnListeners st) c (contentName st).
Definition set_contentName (n : Val) (st : State) : State :=
  mkState (connected st) (eventQ st) (returnListeners st) (currentChannel st) n.

(** What the script does to the outside. *)
Inductive Action :=
| PostMessage (msg : Val)                       (* port.postMessage(msg) *)
| DispatchEvent (type : string) (detail : Val)  (* new CustomEvent(type, {detail}) *)
| DispatchReturn (type : string) (data : Val).  (* utils.fdc3Event(type, data) *)

(** A listener threads the state and logs its actions; [Throw] ends it and
    keeps both. *)
Definition Script (A : Type) : Type := State → Outcome A * State * list Action.

#[global] Instance script_ret : MRet Script := λ A a st, (Ret a, st, []).
#[global] Instance script_bind : MBind Script := λ A B k m st,
  match m st with
  | (Ret a, st1, acts1) =>
      match k a st1 with
      | (o, st2, acts2) => (o, st2, acts1 ++ acts2)
      end
  | (Throw e, st1, acts1) => (Throw e, st1, acts1)
  end.

Definition get_state : Script State := λ st, (Ret st, st, []).
Definition modify (f : State → State) : Script unit := λ st, (Ret tt, f st, []).
Definition act (a : Action) : Script unit := λ st, (Ret tt, st, [a]).
Definition lift {A} (o : Outcome A) : Script A := λ st, (o, st, []).

Fixpoint for_each {A} (f : A → Script unit) (l : list A) : Script unit :=
  match l with
  | [] => mret tt
  | a :: l' => f a ;; for_each f l'
  end.

(** The callbacks given to [wireTopic]. *)
Inductive Callback :=
| ChannelFromDetail          (* currentChannel = e.detail.channel *)
| ChannelDefault.            (* currentChannel = "default" *)

Record Config := {
  cb : option Callback;
  isVoid : bool;
}.

Definition call (c : Callback) (detail : Val) : Script unit :=
  match c with
  | ChannelFromDetail =>
      channel ← lift (prop detail "channel");
      modify (set_currentChannel channel)
  | ChannelDefault => modify (set_currentChannel (VStr "default"))
  end.

(** [{topic:topic, data:e.detail}] *)
Definition message (topic : string) (detail : Val) : Val :=
  VObj [("topic", VStr topic); ("data", detail)].

(** The listener [wireTopic(topic, config)] adds for the page event
    [FDC3:topic]; [detail] and [stamp] are the event's [detail] and [ts]. *)
Definition wireTopic (topic : string) (config : option Config)
    (detail stamp : Val) : Script unit :=
  let cb := config ≫= cb in
  let isVoid := from_option isVoid false config in
  (if negb isVoid then
     eventId ← lift (if not_null detail then prop detail "eventId" else Ret VNull);
     (if not_null eventId then
        modify (λ st, set_returnListeners
                        (map_set eventId {| ts := stamp; eventId := eventId |}
                           (returnListeners st)) st)
      else mret tt) ;;
     match cb with
     | Some c => call c detail
     | None => mret tt
     end
   else mret tt) ;;
  st ← get_state;
  if connected st then act (PostMessage (message topic detail))
  else modify (λ st, set_eventQ (eventQ st ++ [message topic detail]) st).

(** The calls of [wireTopic] the script makes, in order. *)
Definition wiring : list (string * option Config) :=
  ((λ t, (t, None)) <$>
     ["open"; "raiseIntent"; "raiseIntentForContext"; "addContextListener";
      "addIntentListener"; "findIntent"; "findIntentsByContext";
      "getCurrentContext"; "getSystemChannels"; "getOrCreateChannel";
      "getCurrentChannel"; "getAppInstance"]) ++
  [("joinChannel", Some {| cb := Some ChannelFromDetail; isVoid := false |});
   ("leaveCurrentChannel", Some {| cb := Some ChannelDefault; isVoid := false |});
   ("broadcast", Some {| cb := None; isVoid := true |});
   ("dropContextListener", Some {| cb := None; isVoid := true |});
   ("dropIntentListener", Some {| cb := None; isVoid := true |})].

(** The first listener for messages from the broker: the return listeners. *)
Definition onReturn (msg : Val) : Script unit :=
  topic ← lift (prop msg "topic");
  st ← get_state;
  match map_get topic (returnListeners st) with
  | Some (_, listener) =>
      data ← lift (prop msg "data");
      act (DispatchReturn ("return_" +:+ to_string (eventId listener)) data) ;;
      name ← lift (prop msg "name");
      modify (λ st, set_returnListeners (map_delete name (returnListeners st)) st)
  | None => mret tt
  end.

(** [{topic:"joinChannel", data:{channel:channel, restoreOnly:true}}] *)
Definition rejoin (channel : Val) : Val :=
  VObj [("topic", VStr "joinChannel");
        ("data", VObj [("channel", channel); ("restoreOnly", VBool true)])].

(** The listener for messages from the broker, by their topic. *)
Definition onMessage (msg : Val) : Script unit :=
  topic ← lift (prop msg "topic");
  if is_string topic "environmentData" then
    modify (set_connected true) ;;
    st ← get_state;
    for_each (λ e, act (PostMessage e)) (eventQ st) ;;
    data ← lift (prop msg "data");
    directory ← lift (prop data "directory");
    name ← lift (if truthy directory then prop directory "name" else Ret VNull);
    modify (set_contentName name) ;;
    channel ← lift (prop data "currentChannel");
    if truthy channel then
      modify (set_currentChannel channel) ;;
      act (PostMessage (rejoin channel))
    else mret tt
  else if is_string topic "context" then
    data ← lift (prop msg "data");
    context ← lift (if truthy data then prop data "context" else Ret data);
    if truthy context then
      source ← lift (prop msg "source");
      act (DispatchEvent "FDC3:context" (VObj [("data", data); ("source", source)]))
    else mret tt
  else if is_string topic "intent" then
    data ← lift (prop msg "data");
    source ← lift (prop msg "source");
    act (DispatchEvent "FDC3:intent" (VObj [("data", data); ("source", source)]))
  else if is_string topic "setCurrentChannel" then
    data ← lift (prop msg "data");
    channel ← lift (prop data "channel");
    if truthy channel then modify (set_currentChannel channel) else mret tt
  else mret tt.

(** What reaches the script. *)
Inductive Event :=
| PageEvent (topic : string) (detail stamp : Val)   (* an FDC3:topic event *)
| PortMessage (msg : Val).

(** [{topic:"resolver-close"}] *)
Definition closing : Val := VObj [("topic", VStr "resolver-close")].

(** The listener for the page event [FDC3:resolver-close], which the script
    also raises itself when Escape is pressed: it tells the broker at once,
    connected or not.  (It then hides the resolver window, if there is
    one.) *)
Definition onResolverClose : Script unit := act (PostMessage closing).

(** The listeners an event sets off, in the order they were added. *)
Definition listeners (ev : Event) : list (Script unit) :=
  match ev with
  | PageEvent topic detail stamp =>
      ((λ w, wireTopic topic w.2 detail stamp) <$>
         List.filter (λ w, String.eqb w.1 topic) wiring)
      ++ (if String.eqb topic "resolver-close" then [onResolverClose] else [])
  | PortMessage msg => [onReturn msg; onMessage msg]
  end.

(** Every listener of an event runs, whether or not one before it threw. *)
Fixpoint run_listeners (ls : list (Script unit)) (st : State)
  : State * list Action :=
  match ls with
  | [] => (st, [])
  | l :: ls' =>
      match l st with
      | (_, st1, acts1) =>
          match run_listeners ls' st1 with
          | (st2, acts2) => (st2, acts1 ++ acts2)
          end
      end
  end.

Fixpoint run (evs : list Event) (st : State) : State * list Action :=
  match evs with
  | [] => (st, [])
  | ev :: evs' =>
      match run_listeners (listeners ev) st with
      | (st1, acts1) =>
          match run evs' st1 with
          | (st2, acts2) => (st2, acts1 ++ acts2)
          end
      end
  end.

(** The messages among the actions, in order. *)
Definition posted (acts : list Action) : list Val :=
  omap (λ a, match a with PostMessage msg => Some msg | _ => None end) acts.

(** The return events among the actions, in order. *)
Definition returned (acts : list Action) : list (string * Val) :=
  omap (λ a, match a with
             | DispatchReturn type data => Some (type, data)
             | _ => None
             end) acts.

(** A page event for a wired topic whose detail is an object. *)
Definition well_formed (ev : Event) : Prop :=
  ∃ topic fields stamp,
    ev = PageEvent topic (VObj fields) stamp ∧ topic ∈ wiring.*1.

(** The messages the page events of a trace ask to be sent. *)
Definition requests (evs : list Event) : list Val :=
  evs ≫= λ ev, match ev with
               | PageEvent topic detail _ => [message topic detail]
               | PortMessage _ => []
               end.

(** The notices the [FDC3:resolver-close] events of a trace send. *)
Definition closings (evs : list Event) : list Val :=
  evs ≫= λ ev, match ev with
               | PageEvent topic _ _ =>
                   if String.eqb topic "resolver-close" then [closing] else []
               | PortMessage _ => []
               end.

(** The message that restores the tab's channel, if the broker names one. *)
Definition restores (fields : list (string * Val)) : list Val :=
  let channel := default VUndef (assoc "currentChannel" fields) in
  if truthy channel then [rejoin channel] else [].

(** A message of the broker as the script receives it: an object with a
    [name] and a [data] (and the [tabId] of a tab title), whatever value
    [data] the payload arrives as. *)
Definition received (m : Message) (data : Val) : Val :=
  match m with
  | MEnvironmentData _ =>
      VObj [("name", VStr "environmentData"); ("data", data)]
  | MContext _ => VObj [("name", VStr "context"); ("data", data)]
  | MIntent _ => VObj [("name", VStr "intent"); ("data", data)]
  | MTabTitle tabId _ =>
      VObj [("name", VStr "tabTitle"); ("tabId", VNum (pretty tabId));
            ("data", data)]
  end.

(** The events of a script whose port leads to this broker: any page
    event, and the broker's messages. *)
Inductive with_broker : Event → Prop :=
| with_broker_page topic detail stamp :
    with_broker (PageEvent topic detail stamp)
| with_broker_message m data :
    with_broker (PortMessage (received m data)).

End Content.


(** * Properties *)

(** ** Equations of the handler monad *)

Section HandlerEquations.
Context {A B : Type}.
Implicit Types (k : A → Handler B) (st : Broker).

Lemma bind_mret (a : A) k st : (mret a ≫= k) st = k a st.
Proof.
  unfold mbind, handler_bind, mret, handler_ret.
  by destruct (k a st) as [[o st'] effs].
Qed.

Lemma bind_throw e k st : (throw e ≫= k) st = (Throw e, st, []).
Proof. reflexivity. Qed.

Lemma bind_deref_Some (a : A) k st : (deref (Some a) ≫= k) st = k a st.
Proof. apply bind_mret. Qed.

Lemma bind_deref_None k st : (deref None ≫= k) st = (Throw TypeError, st, []).
Proof. reflexivity. Qed.

Lemma bind_lift_Ret (a : A) k st : (lift (Ret a) ≫= k) st = k a st.
Proof. apply bind_mret. Qed.

Lemma bind_lift_Throw e k st : (lift (Throw e) ≫= k) st = (Throw e, st, []).
Proof. reflexivity. Qed.

Lemma bind_run_Ret (m : Handler A) k st a st1 effs1 :
  m st = (Ret a, st1, effs1) →
  (m ≫= k) st = (let '(o, st2, effs2) := k a st1 in (o, st2, effs1 ++ effs2)).
Proof. intros Hm. unfold mbind, handler_bind. by rewrite Hm. Qed.

Lemma bind_run_Throw (m : Handler A) k st e st1 effs1 :
  m st = (Throw e, st1, effs1) → (m ≫= k) st = (Throw e, st1, effs1).
Proof. intros Hm. unfold mbind, handler_bind. by rewrite Hm. Qed.
End HandlerEquations.

Section HandlerEquationsState.
Context {B : Type}.
Implicit Types (st : Broker).

Lemma bind_get_state (k : Broker → Handler B) st :
  (get_state ≫= k) st = k st st.
Proof.
  unfold mbind, handler_bind, get_state.
  by destruct (k st st) as [[o st'] effs].
Qed.

Lemma bind_modify f (k : unit → Handler B) st :
  (modify f ≫= k) st = k tt (f st).
Proof.
  unfold mbind, handler_bind, modify.
  by destruct (k tt (f st)) as [[o st'] effs].
Qed.

Lemma bind_emit e (k : unit → Handler B) st :
  (emit e ≫= k) st = (let '(o, st', effs) := k tt st in (o, st', e :: effs)).
Proof. reflexivity. Qed.
End HandlerEquationsState.

Create Rewrite HintDb handler.
#[export] Hint Rewrite @bind_mret @bind_throw @bind_deref_Some @bind_deref_None
  @bind_lift_Ret @bind_lift_Throw @bind_get_state @bind_modify @bind_emit
  : handler.

Ltac step := autorewrite with handler; cbn beta iota.

(** ** Channels *)

Lemma deliver_context_run data st l q :
  connected_port st l = Some q →
  deliver_context data l st = (Ret tt, st, [PostMessage q (MContext data)]).
Proof.
  intros Hl. unfold deliver_context. step. rewrite Hl. by step.
Qed.

Lemma for_each_deliver data st listeners targets :
  Forall2 (λ l q, connected_port st l = Some q) listeners targets →
  for_each (deliver_context data) listeners st =
    (Ret tt, st, (λ q, PostMessage q (MContext data)) <$> targets).
Proof.
  induction 1 as [|l q ls qs Hl _ IH]; [done|].
  cbn [for_each].
  rewrite (bind_run_Ret _ _ _ _ _ _ (deliver_context_run data st l q Hl)).
  by rewrite IH.
Qed.

(** C2, as amended.  A broadcast on a channel whose history and listener
    list exist, all of whose listeners are connected, puts the context at
    index 0 of the channel's history and posts one context message for each
    entry of the listener list, in list order.  The message carries the data
    exactly as the broadcaster sent it, and no entry is skipped: neither the
    broadcaster's own nor a repeated one. *)
Theorem broadcast_posts_to_every_listener_entry
    st port data p history ctx listeners targets :
  connected_port st (app_id port) = Some p →
  contexts st !! current_channel st p = Some history →
  prop data "context" = Ret ctx →
  contextListeners st !! current_channel st p = Some listeners →
  Forall2 (λ l q, connected_port st l = Some q) listeners targets →
  broadcast port data st =
    (Ret tt,
     set_contexts (<[current_channel st p := ctx :: history]> (contexts st)) st,
     (λ q, PostMessage q (MContext data)) <$> targets).
Proof.
  intros Hp Hh Hc Hl Ht. unfold broadcast.
  step. rewrite Hp. step. rewrite Hh. step. rewrite Hc. step.
  rewrite Hl. step. by apply for_each_deliver.
Qed.

(** The chart page listens on the default channel and then broadcasts. *)
Lemma broadcast_posts_to_every_listener_entry_witness :
  let st := Scenario.after [DirectoryLoaded []; Connect Scenario.chart;
                            Connect Scenario.news;
                            Receive Scenario.news AddContextListener;
                            Receive Scenario.chart AddContextListener] in
  let data := VObj [("context", Scenario.msft)] in
  broadcast Scenario.chart data st =
    (Ret tt,
     set_contexts (<["default" := [Scenario.msft]]> (contexts st)) st,
     [PostMessage Scenario.news (MContext data);
      PostMessage Scenario.chart (MContext data)]).
Proof.
  intros st data.
  apply (broadcast_posts_to_every_listener_entry st Scenario.chart data
           Scenario.chart [] Scenario.msft
           ["fdc3-desktop-agent8"; "fdc3-desktop-agent7"]
           [Scenario.news; Scenario.chart]).
  - vm_compute. reflexivity.
  - vm_compute. reflexivity.
  - reflexivity.
  - vm_compute. reflexivity.
  - repeat constructor.
Defined.

(** C2 does not hold as stated: a broadcaster that listens on its own
    channel is sent its own broadcast. *)
Lemma broadcast_echoes_to_the_broadcaster :
  ¬ broadcast_as_specified
      (Scenario.after [DirectoryLoaded []; Connect Scenario.chart;
                       Connect Scenario.news;
                       Receive Scenario.news AddContextListener;
                       Receive Scenario.chart AddContextListener])
      Scenario.chart (VObj [("context", Scenario.msft)]).
Proof.
  intros Hspec.
  destruct (Hspec Scenario.msft eq_refl) as (_ & _ & Hnone).
  vm_compute in Hnone. discriminate Hnone.
Qed.

(** C8, as amended.  addContextListener appends the endpoint's id to the
    listener list of its current channel.  A second call appends a second
    entry: the list is then longer than after the first call. *)
Theorem addContextListener_appends st port p listeners :
  connected_port st (app_id port) = Some p →
  contextListeners st !! current_channel st p = Some listeners →
  addContextListener port st =
    (Ret tt,
     set_contextListeners
       (<[current_channel st p := listeners ++ [app_id port]]>
          (contextListeners st)) st,
     []) ∧
  ∃ st2, (addContextListener port ;; addContextListener port) st
           = (Ret tt, st2, []) ∧
         contextListeners st2 !! current_channel st p
           = Some (listeners ++ [app_id port; app_id port]).
Proof.
  intros Hp Hl.
  assert (∀ st' ls, connected_port st' (app_id port) = Some p →
            current_channel st' p = current_channel st p →
            contextListeners st' !! current_channel st p = Some ls →
            addContextListener port st' =
              (Ret tt,
               set_contextListeners
                 (<[current_channel st p := ls ++ [app_id port]]>
                    (contextListeners st')) st', [])) as Hone.
  { intros st' ls Hp' Hc' Hl'. unfold addContextListener.
    step. rewrite Hp'. step. rewrite Hc', Hl'. by step. }
  split; [by apply Hone|].
  eexists. split.
  - erewrite bind_run_Ret by (by apply Hone).
    erewrite Hone; [reflexivity|done|done|].
    cbn. apply lookup_insert_eq.
  - cbn. rewrite lookup_insert_eq. by rewrite <- app_assoc.
Qed.

Lemma addContextListener_appends_witness :
  let st := Scenario.after [DirectoryLoaded []; Connect Scenario.chart] in
  ∃ st2, (addContextListener Scenario.chart ;;
          addContextListener Scenario.chart) st = (Ret tt, st2, []) ∧
         contextListeners st2 !! "default"
           = Some ["fdc3-desktop-agent7"; "fdc3-desktop-agent7"].
Proof.
  intros st.
  apply (addContextListener_appends st Scenario.chart Scenario.chart []);
    vm_compute; reflexivity.
Defined.

(** C8 does not hold as stated: the listener list after the second call
    differs from the list after the first. *)
Lemma addContextListener_is_not_idempotent :
  ¬ addContextListener_idempotent
      (Scenario.after [DirectoryLoaded []; Connect Scenario.chart])
      Scenario.chart.
Proof.
  intros Hspec. apply (f_equal (λ m, m !! "default")) in Hspec.
  vm_compute in Hspec. discriminate Hspec.
Qed.

(** An endpoint entered twice is sent every later broadcast twice. *)
Example broadcast_after_double_registration :
  let st := Scenario.after [DirectoryLoaded []; Connect Scenario.chart;
                            Connect Scenario.news;
                            Receive Scenario.chart AddContextListener;
                            Receive Scenario.chart AddContextListener] in
  let data := VObj [("context", Scenario.msft)] in
  posts_to Scenario.chart (broadcast Scenario.news data st).2
    = [MContext data; MContext data].
Proof. vm_compute. reflexivity. Qed.

(** The message a listener receives is the broadcaster's data and nothing
    more: it names no source. *)
Example broadcast_message_names_no_source :
  let st := Scenario.after [DirectoryLoaded []; Connect Scenario.chart;
                            Connect Scenario.news;
                            Receive Scenario.news AddContextListener] in
  let data := VObj [("context", Scenario.msft)] in
  posts_to Scenario.news (broadcast Scenario.chart data st).2 = [MContext data]
  ∧ prop data "source" = Ret VUndef.
Proof. split; vm_compute; reflexivity. Qed.

(** What [joinChannel] has done by the time it looks the channel up among
    the system channels: the endpoint has left its previous listener list,
    is the last entry of the target list, and port and tab remember the
    target. *)
Lemma joinChannel_prefix channels port chan restoreOnly st p prev :
  connected_port st (app_id port) = Some p →
  contextListeners st !! current_channel st p = Some prev →
  own_or_absent (contextListeners st) chan →
  ∃ st1,
    (∃ ls, contextListeners st1 !! chan = Some (ls ++ [app_id port])) ∧
    tabChannels st1 !! tab_key port = Some chan ∧
    port_channel st1 !! port_ref p = Some chan ∧
    contexts st1 = contexts st ∧
    joinChannel channels port chan restoreOnly st =
      match List.find (λ c, String.eqb (chan_id c) chan) channels with
      | Some selectedChannel =>
          match contexts st !! chan with
          | Some history =>
              (Ret tt, st1,
               [SetBadgeText "+" (tab_id (sender port));
                SetBadgeBackgroundColor (chan_color selectedChannel)
                  (tab_id (sender port));
                PostMessage port
                  (MContext (VObj [("context", default VUndef (head history))]))])
          | None =>
              if inherited chan then
                (Ret tt, st1,
                 [SetBadgeText "+" (tab_id (sender port));
                  SetBadgeBackgroundColor (chan_color selectedChannel)
                    (tab_id (sender port));
                  PostMessage port (MContext (VObj [("context", VUndef)]))])
              else
                (Throw TypeError, st1,
                 [SetBadgeText "+" (tab_id (sender port));
                  SetBadgeBackgroundColor (chan_color selectedChannel)
                    (tab_id (sender port))])
          end
      | None => (Throw TypeError, st1, [SetBadgeText "+" (tab_id (sender port))])
      end.
Proof.
  intros Hp Hprev Hown. unfold joinChannel.
  step. rewrite Hp. step. rewrite Hprev. step.
  cbn [contextListeners set_contextListeners].
  destruct (<[current_channel st p := List.filter (not_id (app_id port)) prev]>
              (contextListeners st) !! chan) as [ls|] eqn:Hchan; step.
  2: { rewrite Hown; [step|].
       - eexists. (split; [|split; [|split; [|split]]]); last first.
         + destruct (List.find _ channels) as [selected|]; step; [|reflexivity].
           cbn [contexts set_contexts set_contextListeners set_port_channel
                set_tabChannels].
           destruct (contexts st !! chan) as [history|]; step; [reflexivity|].
           destruct (inherited chan); step; reflexivity.
         + reflexivity.
         + cbn. apply lookup_insert_eq.
         + cbn. apply lookup_insert_eq.
         + cbn. rewrite lookup_insert_eq. eauto.
       - destruct (decide (current_channel st p = chan)) as [<-|Hne].
         + by rewrite lookup_insert_eq in Hchan.
         + by rewrite lookup_insert_ne in Hchan. }
  eexists. (split; [|split; [|split; [|split]]]); last first.
  - destruct (List.find _ channels) as [selected|]; step; [|reflexivity].
    cbn [contexts set_contexts set_contextListeners set_port_channel
         set_tabChannels].
    destruct (contexts st !! chan) as [history|]; step; [reflexivity|].
    destruct (inherited chan); step; reflexivity.
  - reflexivity.
  - cbn. apply lookup_insert_eq.
  - cbn. apply lookup_insert_eq.
  - cbn. rewrite lookup_insert_eq. eauto.
Qed.

(** C3, on the code.  The handler never looks at [restoreOnly]: a join of a
    system channel with [restoreOnly] set posts the channel's current
    context to the joining endpoint all the same.  (The channel has a
    listener list of its own, or else an id that is no inherited name: a
    join that finds an inherited member in place of the list stops before
    it posts anything.) *)
Theorem joinChannel_restoreOnly_still_delivers
    channels port chan st p prev selectedChannel history :
  connected_port st (app_id port) = Some p →
  contextListeners st !! current_channel st p = Some prev →
  List.find (λ c, String.eqb (chan_id c) chan) channels = Some selectedChannel →
  contexts st !! chan = Some history →
  own_or_absent (contextListeners st) chan →
  ∃ st1,
    joinChannel channels port chan true st =
      (Ret tt, st1,
       [SetBadgeText "+" (tab_id (sender port));
        SetBadgeBackgroundColor (chan_color selectedChannel) (tab_id (sender port));
        PostMessage port
          (MContext (VObj [("context", default VUndef (head history))]))]).
Proof.
  intros Hp Hprev Hsel Hh Hown.
  destruct (joinChannel_prefix channels port chan true st p prev Hp Hprev Hown)
    as (st1 & _ & _ & _ & _ & Hrun).
  exists st1. by rewrite Hrun, Hsel, Hh.
Qed.

(** The news page broadcasts on red; the chart page then rejoins red after a
    reload, with [restoreOnly] set, and is handed the stale context. *)
Lemma joinChannel_restoreOnly_still_delivers_witness :
  let st := Scenario.after
              [DirectoryLoaded []; Connect Scenario.chart; Connect Scenario.news;
               Receive Scenario.news (JoinChannel "red" false);
               Receive Scenario.news (Broadcast (VObj [("context", Scenario.msft)]))] in
  ∃ st1,
    joinChannel Scenario.channels Scenario.chart "red" true st =
      (Ret tt, st1,
       [SetBadgeText "+" 7; SetBadgeBackgroundColor "#FF0000" 7;
        PostMessage Scenario.chart
          (MContext (VObj [("context", Scenario.msft)]))]).
Proof.
  intros st.
  apply (joinChannel_restoreOnly_still_delivers Scenario.channels
           Scenario.chart "red" st Scenario.chart []
           {| chan_id := "red"; chan_color := "#FF0000" |} [Scenario.msft]);
    vm_compute; reflexivity.
Defined.

(** C9, on the code.  Joining a channel that is not a system channel, and
    whose id meets no inherited member in the listener registry, moves the
    endpoint into a listener list for it and records the channel for the
    tab, and then throws a TypeError when it reads the badge colour of a
    channel it did not find: no context message is posted. *)
Theorem joinChannel_unrecognized_channel_throws
    channels port chan restoreOnly st p prev :
  connected_port st (app_id port) = Some p →
  contextListeners st !! current_channel st p = Some prev →
  (∀ c, c ∈ channels → chan_id c ≠ chan) →
  own_or_absent (contextListeners st) chan →
  ∃ st1,
    joinChannel channels port chan restoreOnly st =
      (Throw TypeError, st1, [SetBadgeText "+" (tab_id (sender port))]) ∧
    (∃ ls, contextListeners st1 !! chan = Some (ls ++ [app_id port])) ∧
    tabChannels st1 !! tab_key port = Some chan.
Proof.
  intros Hp Hprev Hnot Hown.
  destruct (joinChannel_prefix channels port chan restoreOnly st p prev
              Hp Hprev Hown)
    as (st1 & Hls & Htab & _ & _ & Hrun).
  exists st1. split_and!; [|done..].
  rewrite Hrun. destruct (List.find _ channels) as [c|] eqn:Hfind; [|done].
  apply find_some in Hfind as [Hin Heq%String.eqb_eq].
  by destruct (Hnot c (proj2 (list_elem_of_In _ _) Hin)).
Qed.

Lemma joinChannel_unrecognized_channel_throws_witness :
  let st := Scenario.after [DirectoryLoaded []; Connect Scenario.chart] in
  ∃ st1,
    joinChannel Scenario.channels Scenario.chart "trading-desk" false st =
      (Throw TypeError, st1, [SetBadgeText "+" 7]) ∧
    (∃ ls, contextListeners st1 !! "trading-desk"
             = Some (ls ++ ["fdc3-desktop-agent7"])) ∧
    tabChannels st1 !! "7" = Some "trading-desk".
Proof.
  intros st.
  apply (joinChannel_unrecognized_channel_throws Scenario.channels
           Scenario.chart "trading-desk" false st Scenario.chart []).
  - vm_compute. reflexivity.
  - vm_compute. reflexivity.
  - intros c Hc. repeat (apply elem_of_cons in Hc as [->|Hc]; [discriminate|]).
    by apply elem_of_nil in Hc.
  - intros _. reflexivity.
Defined.

(** ** Candidates of a raised intent *)

Lemma declares_declared intent entry ints :
  entry_intents entry = Some ints →
  declares intent ints = declared intent entry.
Proof.
  intros Hints. unfold declares, declared. rewrite Hints. clear Hints.
  induction ints as [|int ints IH]; [done|].
  cbn. destruct (String.eqb (int_name int) intent); [done|]. apply IH.
Qed.

(** The de-duplication [find] where every listener carries directory data. *)
Lemma same_app_data st entry app d :
  port_directoryData st !! port_ref app = Some d →
  same_app st entry app = Ret (String.eqb (entry_name d) (entry_name entry)).
Proof. intros Hd. unfold same_app. by rewrite Hd. Qed.

Lemma same_app_no_data st entry app :
  port_directoryData st !! port_ref app = None →
  same_app st entry app = Throw TypeError.
Proof. intros Hd. unfold same_app. by rewrite Hd. Qed.

Lemma find_same_app st entry live :
  (∀ app, app ∈ live → is_Some (port_directoryData st !! port_ref app)) →
  find_m (same_app st entry) live = Ret (List.find (matched_by st entry) live).
Proof.
  induction live as [|app live IH]; intros Hdata; [reflexivity|].
  destruct (Hdata app) as [d Hd]; [apply elem_of_cons; by left|].
  cbn [find_m List.find]. rewrite (same_app_data _ _ _ _ Hd).
  unfold matched_by at 1. rewrite Hd. cbn [mbind outcome_bind].
  destruct (String.eqb (entry_name d) (entry_name entry)); [done|].
  apply IH. intros app' Hin. apply Hdata. apply elem_of_cons. by right.
Qed.

Lemma find_existsb {A} (f : A → bool) (l : list A) :
  existsb f l = match List.find f l with Some _ => true | None => false end.
Proof.
  induction l as [|a l IH]; [reflexivity|].
  cbn [existsb List.find]. destruct (f a); [reflexivity|]. apply IH.
Qed.

Lemma directory_candidate_as_specified st intent entry :
  own_or_absent (intentListeners st) intent →
  (∀ app, app ∈ default [] (intentListeners st !! intent) →
          is_Some (port_directoryData st !! port_ref app)) →
  directory_candidate st intent entry =
    Ret (if declared intent entry
            && negb (existsb (matched_by st entry)
                       (default [] (intentListeners st !! intent)))
         then [Directory entry] else []).
Proof.
  intros Hown Hdata. unfold directory_candidate.
  destruct (entry_intents entry) as [ints|] eqn:Hints;
    [|by unfold declared; rewrite Hints].
  rewrite (declares_declared intent entry ints Hints).
  destruct (declared intent entry); [|reflexivity].
  destruct (intentListeners st !! intent) as [live|] eqn:Hlive;
    [|by rewrite (Hown Hlive)].
  rewrite (find_same_app st entry live Hdata).
  cbn [mbind outcome_bind default from_option id andb]. rewrite find_existsb.
  by destruct (List.find (matched_by st entry) live).
Qed.

(** Where every live listener of the intent carries directory data, the
    handler's array [r] is the candidate list of the specification. *)
Lemma directory_pass_as_specified st intent dir :
  own_or_absent (intentListeners st) intent →
  (∀ app, app ∈ default [] (intentListeners st !! intent) →
          is_Some (port_directoryData st !! port_ref app)) →
  directory_pass st intent dir =
    Ret (Directory <$>
           List.filter (λ entry,
               declared intent entry
               && negb (existsb (matched_by st entry)
                          (default [] (intentListeners st !! intent)))) dir).
Proof.
  intros Hown Hdata. induction dir as [|entry dir IH]; [reflexivity|].
  cbn [directory_pass List.filter].
  rewrite IH, (directory_candidate_as_specified st intent entry Hown Hdata).
  cbn [mbind outcome_bind]. by destruct (_ && _).
Qed.

Lemma candidates_as_specified_when_listeners_matched st intent dir :
  directory st = Some dir →
  own_or_absent (intentListeners st) intent →
  (∀ app, app ∈ default [] (intentListeners st !! intent) →
          is_Some (port_directoryData st !! port_ref app)) →
  candidates st intent = Ret (candidates_as_specified st intent dir).
Proof.
  intros Hdir Hown Hdata. unfold candidates, candidates_as_specified.
  rewrite Hdir, (directory_pass_as_specified st intent dir Hown Hdata).
  unfold window_pass.
  destruct (intentListeners st !! intent) eqn:Hlive; [done|].
  by rewrite (Hown Hlive).
Qed.

Lemma directory_candidate_unmatched_listener st intent entry app live :
  intentListeners st !! intent = Some (app :: live) →
  port_directoryData st !! port_ref app = None →
  directory_candidate st intent entry = Throw TypeError
  ∨ directory_candidate st intent entry = Ret [].
Proof.
  intros Hlive Hnone. unfold directory_candidate.
  destruct (entry_intents entry) as [ints|]; [|by right].
  destruct (declares intent ints); [|by right].
  rewrite Hlive. cbn [find_m]. rewrite (same_app_no_data _ _ _ Hnone). by left.
Qed.

Lemma directory_pass_throws st intent dir app live entry ints :
  intentListeners st !! intent = Some (app :: live) →
  port_directoryData st !! port_ref app = None →
  entry ∈ dir → entry_intents entry = Some ints →
  declares intent ints = true →
  directory_pass st intent dir = Throw TypeError.
Proof.
  intros Hlive Hnone Hin Hints Hdecl.
  induction dir as [|entry' dir IH]; [by apply elem_of_nil in Hin|].
  cbn [directory_pass]. apply elem_of_cons in Hin as [<-|Hin].
  - unfold directory_candidate. rewrite Hints, Hdecl, Hlive.
    cbn [find_m]. by rewrite (same_app_no_data _ _ _ Hnone).
  - rewrite (IH Hin).
    by destruct (directory_candidate_unmatched_listener st intent entry'
                   app live Hlive Hnone) as [-> | ->].
Qed.

(** C1, on the code.  When the first live listener of the intent has no
    matched directory entry and some directory entry declares the intent,
    the de-duplication reads [name] off an undefined [directoryData]: the
    handler throws a TypeError and no candidate list comes about. *)
Theorem raiseIntent_throws_on_unmatched_listener
    st port data dir app live entry ints :
  directory st = Some dir →
  intentListeners st !! intent data = Some (app :: live) →
  port_directoryData st !! port_ref app = None →
  entry ∈ dir → entry_intents entry = Some ints →
  declares (intent data) ints = true →
  candidates st (intent data) = Throw TypeError ∧
  raiseIntent port data st = (Throw TypeError, st, []).
Proof.
  intros Hdir Hlive Hnone Hin Hints Hdecl.
  assert (candidates st (intent data) = Throw TypeError) as Hthrow.
  { unfold candidates, window_pass. rewrite Hlive, Hdir.
    cbn [mbind outcome_bind].
    by rewrite (directory_pass_throws st (intent data) dir app live entry ints). }
  split; [done|]. unfold raiseIntent. step. rewrite Hthrow. by step.
Qed.

(** The news page is not in the directory and listens for ViewChart; the
    directory holds two applications that declare ViewChart.  The
    specification's list would be the news page followed by both entries. *)
Lemma raiseIntent_throws_on_unmatched_listener_witness :
  let st := Scenario.after
              [DirectoryLoaded [Scenario.chartEntry; Scenario.otherChartEntry];
               Connect Scenario.chart; Connect Scenario.news;
               Receive Scenario.news (AddIntentListener "ViewChart")] in
  candidates_as_specified st "ViewChart"
      [Scenario.chartEntry; Scenario.otherChartEntry]
    = [Window Scenario.news; Directory Scenario.chartEntry;
       Directory Scenario.otherChartEntry] ∧
  candidates st "ViewChart" = Throw TypeError ∧
  raiseIntent Scenario.chart Scenario.viewMsft st = (Throw TypeError, st, []).
Proof.
  intros st. split; [vm_compute; reflexivity|].
  apply (raiseIntent_throws_on_unmatched_listener st Scenario.chart
           Scenario.viewMsft [Scenario.chartEntry; Scenario.otherChartEntry]
           Scenario.news [] Scenario.chartEntry [Scenario.ViewChart]).
  - vm_compute. reflexivity.
  - vm_compute. reflexivity.
  - vm_compute. reflexivity.
  - apply elem_of_cons. by left.
  - reflexivity.
  - reflexivity.
Defined.

(** ** Resolution of a raised intent *)

Lemma directory_pass_nil st intent dir :
  (∀ entry, entry ∈ dir → directory_candidate st intent entry = Ret []) →
  directory_pass st intent dir = Ret [].
Proof.
  induction dir as [|entry dir IH]; intros Hnone; [reflexivity|].
  cbn [directory_pass].
  rewrite (Hnone entry) by (apply elem_of_cons; by left).
  rewrite IH; [reflexivity|].
  intros entry' Hin. apply Hnone, elem_of_cons. by right.
Qed.

(** C5, on the code.  A raise with no live listener and no directory entry
    declaring the intent, for an intent whose name meets no inherited
    member in the listener registry, returns without doing anything: the
    state is as it was and no message is posted, to the raiser or to
    anybody else; the resolver UI is not called upon either. *)
Theorem raiseIntent_without_candidates_is_silent st port data dir :
  directory st = Some dir →
  default [] (intentListeners st !! intent data) = [] →
  own_or_absent (intentListeners st) (intent data) →
  (∀ entry ints, entry ∈ dir → entry_intents entry = Some ints →
                 declares (intent data) ints = false) →
  candidates st (intent data) = Ret [] ∧
  raiseIntent port data st = (Ret tt, st, []).
Proof.
  intros Hdir Hlive Hown Hdecl.
  assert (candidates st (intent data) = Ret []) as Hnil.
  { unfold candidates. rewrite Hdir, directory_pass_nil.
    - unfold window_pass.
      destruct (intentListeners st !! intent data) eqn:Hlist.
      + cbn in Hlive. by rewrite Hlive.
      + by rewrite (Hown Hlist).
    - intros entry Hin. unfold directory_candidate.
      destruct (entry_intents entry) as [ints|] eqn:Hints; [|reflexivity].
      by rewrite (Hdecl entry ints Hin Hints). }
  split; [done|]. unfold raiseIntent. step. rewrite Hnil. by step.
Qed.

(** The news page raises ViewChart while nobody listens for it and the
    directory is empty: nothing is posted. *)
Lemma raiseIntent_without_candidates_is_silent_witness :
  let st := Scenario.after [DirectoryLoaded []; Connect Scenario.chart;
                            Connect Scenario.news] in
  candidates st "ViewChart" = Ret [] ∧
  raiseIntent Scenario.news Scenario.viewMsft st = (Ret tt, st, []).
Proof.
  intros st.
  apply (raiseIntent_without_candidates_is_silent st Scenario.news
           Scenario.viewMsft []).
  - vm_compute. reflexivity.
  - vm_compute. reflexivity.
  - intros _. reflexivity.
  - intros entry ints Hin. by apply elem_of_nil in Hin.
Defined.

(** C6.  With exactly one live listener of the intent and a directory that
    contributes nothing (each entry declaring the intent is the listener's
    own application), the intent message with the raiser's data goes
    straight to that listener; nothing else happens, and in particular the
    resolver UI is not called upon. *)
Theorem raiseIntent_single_listener_is_direct st port data dir listener :
  directory st = Some dir →
  intentListeners st !! intent data = Some [listener] →
  (∀ entry ints, entry ∈ dir → entry_intents entry = Some ints →
                 declares (intent data) ints = true →
                 ∃ d, port_directoryData st !! port_ref listener = Some d ∧
                      entry_name d = entry_name entry) →
  raiseIntent port data st = (Ret tt, st, [PostMessage listener (MIntent data)]) ∧
  shows_resolver (raiseIntent port data st).2 = false.
Proof.
  intros Hdir Hlive Hown.
  assert (raiseIntent port data st
          = (Ret tt, st, [PostMessage listener (MIntent data)])) as Hrun.
  { unfold raiseIntent. step. unfold candidates. rewrite Hdir.
    rewrite directory_pass_nil.
    - unfold window_pass. rewrite Hlive. cbn [mbind outcome_bind fmap list_fmap app].
      by step.
    - intros entry Hin. unfold directory_candidate.
      destruct (entry_intents entry) as [ints|] eqn:Hints; [|reflexivity].
      destruct (declares (intent data) ints) eqn:Hdecl; [|reflexivity].
      destruct (Hown entry ints Hin Hints Hdecl) as (d & Hd & Hname).
      rewrite Hlive. cbn [find_m]. rewrite (same_app_data _ _ _ _ Hd), Hname.
      by rewrite String.eqb_refl. }
  split; [done|]. by rewrite Hrun.
Qed.

(** The chart page is the only listener for ViewChart, and the only entry
    that declares ViewChart is its own. *)
Lemma raiseIntent_single_listener_is_direct_witness :
  let st := Scenario.after
              [DirectoryLoaded [Scenario.chartEntry];
               Connect Scenario.chart; Connect Scenario.news;
               Receive Scenario.chart (AddIntentListener "ViewChart")] in
  raiseIntent Scenario.news Scenario.viewMsft st
    = (Ret tt, st, [PostMessage Scenario.chart (MIntent Scenario.viewMsft)]) ∧
  shows_resolver (raiseIntent Scenario.news Scenario.viewMsft st).2 = false.
Proof.
  intros st.
  apply (raiseIntent_single_listener_is_direct st Scenario.news
           Scenario.viewMsft [Scenario.chartEntry] Scenario.chart).
  - vm_compute. reflexivity.
  - vm_compute. reflexivity.
  - intros entry ints Hin Hints _. exists Scenario.chartEntry.
    apply elem_of_cons in Hin as [->|Hin]; [|by apply elem_of_nil in Hin].
    split; [vm_compute|]; reflexivity.
Defined.

Lemma find_all_false {A} (f : A → bool) (l : list A) :
  (∀ a, a ∈ l → f a = false) → List.find f l = None.
Proof.
  induction l as [|a l IH]; intros Hf; [reflexivity|].
  cbn [List.find]. rewrite (Hf a) by (apply elem_of_cons; by left).
  apply IH. intros a' Hin. apply Hf, elem_of_cons. by right.
Qed.

(** C10, on the code.  A window selection whose tab has no listener
    registered for the intent posts nothing and leaves the state untouched.
    It returns normally where the intent has a listener list, and where it
    has none and its name is an ordinary one; where it has none and its
    name is one that every object inherits, the fallback to the empty list
    is not taken and the handler throws a TypeError. *)
Theorem resolveIntent_window_without_listener
    details intent context st :
  (∀ item, item ∈ default [] (intentListeners st !! intent) →
           tab_id (sender item) ≠ tab_id (sender details)) →
  resolveIntent (Window details) intent context st =
    (match intentListeners st !! intent with
     | Some _ => Ret tt
     | None => if inherited intent then Throw TypeError else Ret tt
     end, st, []).
Proof.
  intros Hnone. unfold resolveIntent. step.
  destruct (intentListeners st !! intent) as [list|].
  - step. rewrite find_all_false; [reflexivity|].
    intros item Hin. apply Z.eqb_neq. by apply Hnone.
  - destruct (inherited intent); step; reflexivity.
Qed.

(** Nobody listens for an intent called constructor; the user's selection
    for it ends in a TypeError. *)
Lemma resolveIntent_window_without_listener_witness :
  let st := Scenario.after
              [DirectoryLoaded []; Connect Scenario.chart; Connect Scenario.news;
               Receive Scenario.chart (AddIntentListener "ViewChart")] in
  intentListeners st !! "constructor" = None ∧
  resolveIntent (Window Scenario.news) "constructor" Scenario.msft st
    = (Throw TypeError, st, []).
Proof.
  intros st. split; [vm_compute; reflexivity|].
  apply (resolveIntent_window_without_listener Scenario.news
           "constructor" Scenario.msft st).
  intros item Hin.
  assert (default [] (intentListeners st !! "constructor") = [])
    as Hlist by (vm_compute; reflexivity).
  rewrite Hlist in Hin. by apply elem_of_nil in Hin.
Defined.

(** ** Launch URLs *)

(** C4, on the code.  The launch callback of the single-candidate branch of
    [raiseIntent] never gets as far as a URL: with a manifest that lists its
    intents it stops at the undeclared [contentManifest] with a
    ReferenceError, otherwise earlier with a TypeError.  On the manifest of
    the specification's example it throws the ReferenceError, while the
    callback of [resolveIntent] opens app://open?sym=MSFT. *)
Theorem raise_launch_never_opens :
  (∀ mD data st, ∃ e, raise_launch mD data st = (Throw e, st, [])) ∧
  (∀ st, raise_launch Scenario.manifest Scenario.viewMsft st
         = (Throw ReferenceError, st, [])) ∧
  (∀ st, resolve_launch Scenario.manifest Scenario.otherChartEntry
           "ViewChart" Scenario.msft st
         = (Ret tt, st, [WindowOpen (Some "app://open?sym=MSFT")
                           (Some "other-chart")])).
Proof.
  split_and!.
  - intros mD data st. unfold raise_launch, raise_launch_with.
    destruct (mf_intents mD) as [ints|]; [|by eexists].
    step. destruct (find_m _ ints) as [found|e]; step; by eexists.
  - reflexivity.
  - reflexivity.
Qed.

(** Only the first occurrence of a placeholder is replaced. *)
Example substitute_first_occurrence_only :
  substitute [("symbol", VStr "MSFT")] (Some "${symbol} vs ${symbol}")
    = Ret (Some "MSFT vs ${symbol}").
Proof. reflexivity. Qed.

(** A placeholder whose parameter was not extracted stays as it is. *)
Example substitute_leaves_unmatched_placeholder :
  substitute [("symbol", VStr "MSFT")] (Some "${symbol}/${venue}")
    = Ret (Some "MSFT/${venue}").
Proof. reflexivity. Qed.

(** A dollar sign in an extracted value is read as a replacement pattern:
    [$&] brings the placeholder back. *)
Example substitute_expands_dollar_patterns :
  substitute [("symbol", VStr "A$&B")] (Some "sym=${symbol}")
    = Ret (Some "sym=A${symbol}B").
Proof. reflexivity. Qed.

(** A parameter of the context's type whose key the context lacks is
    replaced by the text of [undefined]. *)
Example resolve_launch_missing_field :
  ∀ st, resolve_launch Scenario.manifest Scenario.otherChartEntry "ViewChart"
          (VObj [("type", VStr "security")]) st
        = (Ret tt, st, [WindowOpen (Some "app://open?sym=undefined")
                          (Some "other-chart")]).
Proof. reflexivity. Qed.

(** ** Disconnection *)

Section Maintains.
Variable I : Broker → Prop.
Variable E : Effect → Prop.

Lemma maintains_bind {A B} (m : Handler A) (k : A → Handler B) post post' :
  maintains I E m post →
  (∀ a, post a → maintains I E (k a) post') →
  maintains I E (m ≫= k) post'.
Proof.
  intros Hm Hk st Hst. destruct (Hm st Hst) as (Hst1 & Heffs1 & Hpost).
  unfold mbind, handler_bind.
  destruct (m st) as [[[a|e] st1] effs1]; cbn [fst snd] in *.
  - destruct (Hk a (Hpost a eq_refl) st1 Hst1) as (Hst2 & Heffs2 & Hpost').
    destruct (k a st1) as [[o st2] effs2]; cbn [fst snd] in *.
    split_and!; [done| |done]. by apply Forall_app.
  - split_and!; [done..|]. intros b Hb. discriminate Hb.
Qed.

Lemma maintains_weaken {A} (m : Handler A) (post post' : A → Prop) :
  maintains I E m post → (∀ a, post a → post' a) → maintains I E m post'.
Proof.
  intros Hm Himp st Hst. destruct (Hm st Hst) as (? & ? & Hpost).
  split_and!; [done..|]. intros a Ha. by apply Himp, Hpost.
Qed.

Lemma maintains_mret {A} (a : A) : maintains I E (mret a) (λ x, x = a).
Proof.
  intros st Hst. split_and!; [done|constructor|]. intros x Hx. by injection Hx.
Qed.

Lemma maintains_throw {A} e (post : A → Prop) : maintains I E (throw e) post.
Proof.
  intros st Hst. split_and!; [done|constructor|]. intros x Hx. discriminate Hx.
Qed.

Lemma maintains_get_state : maintains I E get_state I.
Proof.
  intros st Hst. split_and!; [done|constructor|].
  intros x Hx. injection Hx as <-. done.
Qed.

Lemma maintains_deref {A} (o : option A) :
  maintains I E (deref o) (λ a, o = Some a).
Proof.
  destruct o as [a|]; [|apply maintains_throw].
  eapply maintains_weaken; [apply maintains_mret|]. by intros ? ->.
Qed.

Lemma maintains_lift {A} (o : Outcome A) :
  maintains I E (lift o) (λ a, o = Ret a).
Proof. intros st Hst. split_and!; [done|constructor|]. by intros a <-. Qed.

Lemma maintains_modify f :
  (∀ st, I st → I (f st)) → maintains I E (modify f) (λ _, True).
Proof. intros Hf st Hst. split_and!; [by apply Hf|constructor|done]. Qed.

Lemma maintains_emit e : E e → maintains I E (emit e) (λ _, True).
Proof. intros He st Hst. split_and!; [done|by repeat constructor|done]. Qed.

Lemma maintains_for_each {A} (f : A → Handler unit) (l : list A) :
  (∀ a, maintains I E (f a) (λ _, True)) →
  maintains I E (for_each f l) (λ _, True).
Proof.
  intros Hf. induction l as [|a l IH]; cbn [for_each].
  - eapply maintains_weaken; [apply maintains_mret|done].
  - eapply maintains_bind; [apply Hf|]. intros _ _. apply IH.
Qed.
End Maintains.

Ltac maintains_prim :=
  lazymatch goal with
  | |- maintains _ _ get_state _ => apply maintains_get_state
  | |- maintains _ _ (deref _) _ => apply maintains_deref
  | |- maintains _ _ (lift _) _ => apply maintains_lift
  | |- maintains _ _ (throw _) _ => apply maintains_throw
  | |- maintains _ _ (mret _) _ =>
      first [apply maintains_mret
            |eapply maintains_weaken; [apply maintains_mret | done]]
  | |- maintains _ _ (modify _) _ => apply maintains_modify
  | |- maintains _ _ (emit _) _ => apply maintains_emit
  end.

Lemma elem_of_filter_list {A} (f : A → bool) (l : list A) (x : A) :
  x ∈ List.filter f l ↔ x ∈ l ∧ f x = true.
Proof. rewrite !list_elem_of_In. apply filter_In. Qed.

Section Disconnected.
Variable p : Port.

(** Updates that touch neither [connected] nor the intent listeners. *)
Lemma unreachable_same st st' :
  connected st' = connected st →
  intentListeners st' = intentListeners st →
  unreachable p st → unreachable p st'.
Proof. intros Hc Hi [??]. split; by rewrite ?Hc, ?Hi. Qed.

Lemma unreachable_connected_port st l q :
  unreachable p st → connected_port st l = Some q → q ≠ p.
Proof.
  intros [Hc _] Hq ->. apply (Hc l). unfold connected_port in Hq.
  destruct (connected st !! l) as [[q|]|]; cbn in Hq; congruence.
Qed.

Lemma unreachable_insert_connected st q :
  q ≠ p → unreachable p st →
  unreachable p (set_connected (<[app_id q := Some q]> (connected st)) st).
Proof.
  intros Hq [Hc Hi]. split; [|done]. intros k. cbn.
  destruct (decide (k = app_id q)) as [->|Hk].
  - rewrite lookup_insert_eq. congruence.
  - rewrite lookup_insert_ne by done. apply Hc.
Qed.

Lemma unreachable_null_connected st id :
  unreachable p st →
  unreachable p (set_connected (<[id := None]> (connected st)) st).
Proof.
  intros [Hc Hi]. split; [|done]. intros k. cbn.
  destruct (decide (k = id)) as [->|Hk].
  - rewrite lookup_insert_eq. congruence.
  - rewrite lookup_insert_ne by done. apply Hc.
Qed.

Lemma keeps_out_onConnect origin q :
  q ≠ p → keeps_out p (onConnect origin q) (λ _, True).
Proof.
  intros Hq. unfold onConnect.
  eapply maintains_bind; [maintains_prim|intros app_origin _].
  eapply maintains_bind; [maintains_prim|intros st _].
  eapply maintains_bind; [maintains_prim|intros dir _].
  eapply maintains_bind; [maintains_prim|intros found _].
  eapply maintains_bind with (post := λ _, True).
  - destruct found as [entry|]; [|maintains_prim].
    destruct (truthy_str (entry_manifest entry)).
    + maintains_prim. cbn. tauto.
    + eapply maintains_bind.
      { maintains_prim. intros st'. by apply unreachable_same. }
      intros ? _. maintains_prim. cbn. done.
  - intros ? _. maintains_prim. intros st'.
    by apply unreachable_insert_connected.
Qed.

Lemma keeps_out_onConnect_manifest q entry data :
  q ≠ p → keeps_out p (onConnect_manifest q entry data) (λ _, True).
Proof.
  intros Hq. unfold onConnect_manifest.
  eapply maintains_bind.
  { maintains_prim. intros st'. by apply unreachable_same. }
  intros ? _. maintains_prim. cbn. done.
Qed.

Lemma keeps_out_onDisconnect q : keeps_out p (onDisconnect q) (λ _, True).
Proof.
  unfold onDisconnect.
  eapply maintains_bind.
  { maintains_prim. intros st. apply unreachable_null_connected. }
  intros ? _. eapply maintains_bind.
  { maintains_prim. intros st. by apply unreachable_same. }
  intros ? _. maintains_prim.
  intros st [Hc Hi]. split; [done|]. intros name ls. cbn.
  rewrite lookup_fmap.
  destruct (intentListeners st !! name) as [l|] eqn:Hl; cbn; [|done].
  intros [= <-] Hin. apply (Hi name l Hl).
  destruct (length l); [done|].
  by apply elem_of_filter_list in Hin as [? _].
Qed.

Lemma keeps_out_addContextListener q :
  keeps_out p (addContextListener q) (λ _, True).
Proof.
  unfold addContextListener.
  eapply maintains_bind; [maintains_prim|intros st _].
  eapply maintains_bind; [maintains_prim|intros q' _].
  eapply maintains_bind; [maintains_prim|intros l _].
  maintains_prim. intros st'. by apply unreachable_same.
Qed.

Lemma keeps_out_addIntentListener q name :
  q ≠ p → keeps_out p (addIntentListener q name) (λ _, True).
Proof.
  intros Hq. unfold addIntentListener.
  eapply maintains_bind; [maintains_prim|intros st0 _].
  eapply maintains_bind with (post := λ _, True).
  { destruct (intentListeners st0 !! name); [maintains_prim|].
    destruct (inherited name); [maintains_prim|].
    maintains_prim.
    intros st [Hc Hi]. split; [done|]. intros name' ls. cbn.
    destruct (decide (name' = name)) as [->|Hne].
    - rewrite lookup_insert_eq. intros [= <-]. apply not_elem_of_nil.
    - rewrite lookup_insert_ne by done. apply Hi. }
  intros ? _. maintains_prim.
  intros st [Hc Hi]. split; [done|]. intros name' ls. cbn.
  destruct (decide (name' = name)) as [->|Hne].
  - rewrite lookup_insert_eq. intros [= <-].
    intros [Hin|Hin%list_elem_of_singleton]%elem_of_app; [|done].
    destruct (intentListeners st !! name) as [l|] eqn:Hl.
    + by apply (Hi name l Hl).
    + by apply elem_of_nil in Hin.
  - rewrite lookup_insert_ne by done. apply Hi.
Qed.

Lemma keeps_out_broadcast q data : keeps_out p (broadcast q data) (λ _, True).
Proof.
  unfold broadcast.
  eapply maintains_bind; [maintains_prim|intros st _].
  eapply maintains_bind; [maintains_prim|intros q' _].
  eapply maintains_bind; [maintains_prim|intros history _].
  eapply maintains_bind; [maintains_prim|intros ctx _].
  eapply maintains_bind.
  { maintains_prim. intros st'. by apply unreachable_same. }
  intros ? _.
  eapply maintains_bind; [maintains_prim|intros listeners _].
  apply maintains_for_each. intros l. unfold deliver_context.
  eapply maintains_bind; [maintains_prim|intros st' Hst'].
  eapply maintains_bind; [maintains_prim|intros target Htarget].
  maintains_prim. cbn in *. by eapply unreachable_connected_port.
Qed.

Lemma keeps_out_joinChannel channels q chan restoreOnly :
  q ≠ p → keeps_out p (joinChannel channels q chan restoreOnly) (λ _, True).
Proof.
  intros Hq. unfold joinChannel.
  eapply maintains_bind; [maintains_prim|intros st _].
  eapply maintains_bind; [maintains_prim|intros q' _].
  eapply maintains_bind; [maintains_prim|intros prev _].
  eapply maintains_bind;
    [maintains_prim; intros st'; by apply unreachable_same|intros ? _].
  eapply maintains_bind; [maintains_prim|intros left_prev _].
  eapply maintains_bind with (post := λ _, True).
  { destruct (contextListeners left_prev !! chan); [maintains_prim|].
    destruct (inherited chan); [maintains_prim|].
    maintains_prim. intros st'. by apply unreachable_same. }
  intros ? _.
  do 3 (eapply maintains_bind;
        [maintains_prim; intros st'; by apply unreachable_same|intros ? _]).
  eapply maintains_bind; [maintains_prim; cbn; tauto|intros ? _].
  eapply maintains_bind; [maintains_prim|intros selected _].
  eapply maintains_bind; [maintains_prim; cbn; tauto|intros ? _].
  eapply maintains_bind; [maintains_prim|intros st' _].
  eapply maintains_bind with (post := λ _, True).
  { destruct (contexts st' !! chan); [maintains_prim|].
    destruct (inherited chan); maintains_prim. }
  intros history _. maintains_prim. cbn. done.
Qed.

Lemma directory_pass_no_window st intent dir r q :
  directory_pass st intent dir = Ret r → Window q ∉ r.
Proof.
  revert r. induction dir as [|entry dir IH]; intros r; cbn [directory_pass].
  - intros [= <-]. apply not_elem_of_nil.
  - destruct (directory_candidate st intent entry) as [r1|] eqn:Hr1; [|done].
    destruct (directory_pass st intent dir) as [r2|]; [|done].
    cbn. intros [= <-] [Hin|Hin]%elem_of_app; [|by apply (IH r2)].
    unfold directory_candidate in Hr1.
    destruct (entry_intents entry) as [ints|];
      [|injection Hr1 as <-; by apply elem_of_nil in Hin].
    destruct (declares intent ints);
      [|injection Hr1 as <-; by apply elem_of_nil in Hin].
    destruct (intentListeners st !! intent) as [ls|].
    + destruct (find_m _ ls) as [[found|]|]; cbn in Hr1; [| |done];
        injection Hr1 as <-.
      * by apply elem_of_nil in Hin.
      * by apply list_elem_of_singleton in Hin.
    + destruct (inherited intent); [done|].
      injection Hr1 as <-. by apply list_elem_of_singleton in Hin.
Qed.

Lemma candidates_window st intent r q :
  candidates st intent = Ret r → Window q ∈ r →
  ∃ ls, intentListeners st !! intent = Some ls ∧ q ∈ ls.
Proof.
  unfold candidates.
  destruct (window_pass st intent) as [r1|] eqn:Hr1; [|done].
  cbn [mbind outcome_bind].
  destruct (directory st) as [dir|]; [|done].
  destruct (directory_pass st intent dir) as [r2|] eqn:Hr2; [|done].
  cbn. intros [= <-] [Hin|Hin]%elem_of_app;
    [|by apply (directory_pass_no_window _ _ _ _ _ Hr2) in Hin].
  unfold window_pass in Hr1.
  destruct (intentListeners st !! intent) as [ls|].
  - injection Hr1 as <-. exists ls. split; [done|].
    apply list_elem_of_fmap in Hin as (q' & [= ->] & Hq'). done.
  - destruct (inherited intent); [done|].
    injection Hr1 as <-. by apply elem_of_nil in Hin.
Qed.

Lemma keeps_out_raiseIntent q data : keeps_out p (raiseIntent q data) (λ _, True).
Proof.
  unfold raiseIntent.
  eapply maintains_bind; [maintains_prim|intros st [_ Hi]].
  eapply maintains_bind; [maintains_prim|intros r Hr]. cbn beta in Hr.
  assert (Window p ∉ r) as Hout.
  { intros (ls & Hls & Hin)%(candidates_window _ _ _ _ Hr). by apply (Hi _ _ Hls). }
  assert (keeps_out p (emit (ResolverUI r (intent data) (context data)))
            (λ _, True)) as Hui by (by apply maintains_emit).
  destruct r as [|[details|details] [|c r]]; try apply Hui.
  - maintains_prim.
  - maintains_prim. cbn. intros ->. apply Hout, elem_of_cons. by left.
  - maintains_prim. cbn. tauto.
Qed.

Lemma keeps_out_resolveIntent selected intent context :
  keeps_out p (resolveIntent selected intent context) (λ _, True).
Proof.
  unfold resolveIntent. destruct selected as [details|details].
  - eapply maintains_bind; [maintains_prim|intros st [_ Hi]].
    eapply maintains_bind with (post := λ winList, p ∉ winList).
    { destruct (intentListeners st !! intent) as [ls|] eqn:Hls.
      - eapply maintains_weaken; [apply maintains_mret|].
        intros ? ->. by apply (Hi _ _ Hls).
      - destruct (inherited intent); [maintains_prim|].
        eapply maintains_weaken; [apply maintains_mret|].
        intros ? ->. apply not_elem_of_nil. }
    intros winList Hout. cbn zeta.
    destruct (List.find _ _) as [win|] eqn:Hfind; [|maintains_prim].
    eapply maintains_bind; [|intros ? _; maintains_prim].
    maintains_prim. cbn. intros ->.
    by apply find_some in Hfind as [Hin%list_elem_of_In _].
  - maintains_prim. cbn. tauto.
Qed.

Lemma keeps_out_raise_launch_with contentManifest mD data :
  keeps_out p (raise_launch_with contentManifest mD data) (λ _, True).
Proof.
  unfold raise_launch_with.
  eapply maintains_bind; [maintains_prim|intros ints _].
  eapply maintains_bind; [maintains_prim|intros intentData _].
  eapply maintains_bind with (post := λ _, True).
  { destruct contentManifest; maintains_prim. }
  intros cm _.
  eapply maintains_bind; [maintains_prim|intros ps _].
  eapply maintains_bind; [maintains_prim|intros params _].
  eapply maintains_bind; [maintains_prim|intros template _].
  eapply maintains_bind; [maintains_prim|intros start_url _].
  maintains_prim. cbn. tauto.
Qed.

Lemma keeps_out_resolve_launch mD details intent context :
  keeps_out p (resolve_launch mD details intent context) (λ _, True).
Proof.
  unfold resolve_launch.
  eapply maintains_bind with (post := λ _, True).
  - destruct (mf_intents mD) as [ints|]; [|maintains_prim].
    eapply maintains_bind; [maintains_prim|intros intentData _].
    eapply maintains_bind; [maintains_prim|intros ps _].
    eapply maintains_bind; [maintains_prim|intros params _].
    eapply maintains_bind; [maintains_prim|intros template _].
    eapply maintains_weaken; [maintains_prim|done].
  - intros start_url _. maintains_prim. cbn. tauto.
Qed.

Lemma keeps_out_open name : keeps_out p (open name) (λ _, True).
Proof.
  unfold open.
  eapply maintains_bind; [maintains_prim|intros st _].
  eapply maintains_bind; [maintains_prim|intros dir _].
  destruct (List.filter _ dir); maintains_prim. cbn. tauto.
Qed.

Lemma keeps_out_handle channels origin ev :
  ¬ concerns p ev → keeps_out p (handle channels origin ev) (λ _, True).
Proof.
  intros Hev. destruct ev as [data|q|q|q msg|k mD|q tabId title]; cbn in *.
  - maintains_prim. intros st. by apply unreachable_same.
  - by apply keeps_out_onConnect.
  - apply keeps_out_onDisconnect.
  - destruct msg; cbn.
    + apply keeps_out_open.
    + apply keeps_out_addContextListener.
    + by apply keeps_out_addIntentListener.
    + apply keeps_out_broadcast.
    + apply keeps_out_raiseIntent.
    + apply keeps_out_resolveIntent.
    + by apply keeps_out_joinChannel.
    + unfold getTabTitle. maintains_prim. cbn. tauto.
    + maintains_prim.
  - destruct k; cbn.
    + by apply keeps_out_onConnect_manifest.
    + maintains_prim. cbn. tauto.
    + apply keeps_out_raise_launch_with.
    + apply keeps_out_resolve_launch.
    + maintains_prim.
  - maintains_prim. cbn. done.
Qed.

Lemma run_keeps_out channels origin evs st :
  Forall (λ ev, ¬ concerns p ev) evs → unreachable p st →
  unreachable p (run channels origin evs st).1 ∧
  Forall (λ e, ¬ mentions p e) (run channels origin evs st).2.
Proof.
  intros Hevs. revert st.
  induction Hevs as [|ev evs Hev _ IH]; intros st Hst; cbn [run].
  - split; [done|constructor].
  - destruct (keeps_out_handle channels origin ev Hev st Hst) as (Hst1 & Heffs1 & _).
    destruct (handle channels origin ev st) as [[o st1] effs1]; cbn in *.
    destruct (IH st1 Hst1) as [Hst2 Heffs2].
    destruct (run channels origin evs st1) as [st2 effs2]; cbn in *.
    split; [done|]. by apply Forall_app.
Qed.

(** What the cleanup of [p] itself achieves. *)
Lemma onDisconnect_state st :
  (onDisconnect p st).1.2 =
    set_intentListeners
      ((λ l, if 0 <? length l then List.filter (other_tab p) l else l)
         <$> intentListeners st)
      (set_contextListeners
         (List.filter (not_id (app_id p)) <$> contextListeners st)
         (set_connected (<[app_id p := None]> (connected st)) st)).
Proof. reflexivity. Qed.

Lemma onDisconnect_unreachable st :
  connected_by_id st → unreachable p (onDisconnect p st).1.2.
Proof.
  intros Hby. rewrite onDisconnect_state. split; cbn.
  - intros k. destruct (decide (k = app_id p)) as [->|Hk].
    + rewrite lookup_insert_eq. congruence.
    + rewrite lookup_insert_ne by done. intros Hk'. by apply Hk, eq_sym, Hby.
  - intros name ls. rewrite lookup_fmap.
    destruct (intentListeners st !! name) as [l|]; cbn; [|done].
    intros [= <-] Hin. destruct l as [|q l]; [by apply elem_of_nil in Hin|].
    apply elem_of_filter_list in Hin as [_ Hin].
    unfold other_tab in Hin. by rewrite Z.eqb_refl in Hin.
Qed.
End Disconnected.

(** C7.  Once the disconnect cleanup of an endpoint has run, its id is in no
    channel's listener list and the endpoint is in no intent's listener
    list.  From then on no broadcast and no raiseIntent posts a message to
    it or offers it to the resolver UI; nor does any other event that is not
    the endpoint's own, however many of them follow. *)
Theorem disconnect_purges_endpoint channels origin st port evs :
  connected_by_id st →
  Forall (λ ev, ¬ concerns port ev) evs →
  let st' := (onDisconnect port st).1.2 in
  (∀ channel listeners,
     contextListeners st' !! channel = Some listeners →
     app_id port ∉ listeners) ∧
  (∀ name ls, intentListeners st' !! name = Some ls → port ∉ ls) ∧
  (∀ q data, Forall (λ e, ¬ mentions port e) (broadcast q data st').2) ∧
  (∀ q data, Forall (λ e, ¬ mentions port e) (raiseIntent q data st').2) ∧
  Forall (λ e, ¬ mentions port e) (run channels origin evs st').2.
Proof.
  intros Hby Hevs st'.
  assert (unreachable port st') as Hout by (by apply onDisconnect_unreachable).
  split_and!.
  - intros channel listeners. subst st'. rewrite onDisconnect_state. cbn.
    rewrite lookup_fmap.
    destruct (contextListeners st !! channel) as [l|]; cbn; [|done].
    intros [= <-] [_ Hin]%elem_of_filter_list.
    unfold not_id in Hin. by rewrite String.eqb_refl in Hin.
  - apply Hout.
  - intros q data. apply (keeps_out_broadcast port q data st' Hout).
  - intros q data. apply (keeps_out_raiseIntent port q data st' Hout).
  - by apply run_keeps_out.
Qed.

(** The chart page listens for contexts and for ViewChart and then goes
    away; the news page broadcasts and raises ViewChart afterwards. *)
Lemma disconnect_purges_endpoint_witness :
  let st := Scenario.after
              [DirectoryLoaded []; Connect Scenario.chart; Connect Scenario.news;
               Receive Scenario.chart AddContextListener;
               Receive Scenario.chart (AddIntentListener "ViewChart");
               Receive Scenario.news AddContextListener] in
  let evs := [Receive Scenario.news (Broadcast (VObj [("context", Scenario.msft)]));
              Receive Scenario.news (RaiseIntent Scenario.viewMsft)] in
  let st' := (onDisconnect Scenario.chart st).1.2 in
  (∀ channel listeners,
     contextListeners st' !! channel = Some listeners →
     app_id Scenario.chart ∉ listeners) ∧
  (∀ name ls, intentListeners st' !! name = Some ls → Scenario.chart ∉ ls) ∧
  (∀ q data, Forall (λ e, ¬ mentions Scenario.chart e) (broadcast q data st').2) ∧
  (∀ q data, Forall (λ e, ¬ mentions Scenario.chart e) (raiseIntent q data st').2) ∧
  Forall (λ e, ¬ mentions Scenario.chart e)
    (run Scenario.channels Scenario.origin evs st').2.
Proof.
  intros st evs.
  apply (disconnect_purges_endpoint Scenario.channels Scenario.origin st
           Scenario.chart evs).
  - intros k q.
    assert (connected st = <["fdc3-desktop-agent8" := Some Scenario.news]>
                             (<["fdc3-desktop-agent7" := Some Scenario.chart]> ∅))
      as -> by (vm_compute; reflexivity).
    destruct (decide (k = "fdc3-desktop-agent8")) as [->|Hk8].
    { rewrite lookup_insert_eq. by intros [= <-]. }
    rewrite lookup_insert_ne by done.
    destruct (decide (k = "fdc3-desktop-agent7")) as [->|Hk7].
    { rewrite lookup_insert_eq. by intros [= <-]. }
    rewrite lookup_insert_ne by done. by rewrite lookup_empty.
  - repeat constructor; cbn; discriminate.
Defined.

(** ** States the broker can be in *)

(** Follows a handler through its binds and case distinctions and leaves
    the obligations of its state updates and effects. *)
Ltac maintains_walk :=
  lazymatch goal with
  | |- maintains _ _ (_ ≫= _) _ =>
      eapply maintains_bind with (post := λ _, True);
      [maintains_walk | intros ? _; maintains_walk]
  | |- maintains _ _ (match ?x with _ => _ end) _ => destruct x; maintains_walk
  | |- maintains _ _ (for_each _ _) _ =>
      apply maintains_for_each; intros ?; maintains_walk
  | |- maintains _ _ (deliver_context _ _) _ =>
      unfold deliver_context; maintains_walk
  | |- maintains _ _ (modify _) _ => apply maintains_modify
  | |- maintains _ _ (emit _) _ => apply maintains_emit
  | |- maintains _ _ (throw _) _ => apply maintains_throw
  | |- maintains _ _ _ _ => eapply maintains_weaken; [maintains_prim | done]
  end.

Lemma connected_by_id_insert st q :
  connected_by_id st →
  connected_by_id (set_connected (<[app_id q := Some q]> (connected st)) st).
Proof.
  intros Hby k q'. cbn. destruct (decide (k = app_id q)) as [->|Hk].
  - rewrite lookup_insert_eq. by intros [= <-].
  - rewrite lookup_insert_ne by done. apply Hby.
Qed.

Lemma connected_by_id_null st id :
  connected_by_id st →
  connected_by_id (set_connected (<[id := None]> (connected st)) st).
Proof.
  intros Hby k q'. cbn. destruct (decide (k = id)) as [->|Hk].
  - by rewrite lookup_insert_eq.
  - rewrite lookup_insert_ne by done. apply Hby.
Qed.

Lemma handle_connected_by_id channels origin ev :
  maintains connected_by_id (λ _, True) (handle channels origin ev) (λ _, True).
Proof.
  destruct ev as [data|q|q|q msg|k mD|q tabId title]; cbn [handle].
  - maintains_walk. by intros st Hst.
  - unfold onConnect. maintains_walk; try done; try by intros st Hst.
    intros st. apply connected_by_id_insert.
  - unfold onDisconnect. maintains_walk; try by intros st Hst.
    intros st. apply connected_by_id_null.
  - destruct msg; cbn [onMessage];
      unfold open, addContextListener, addIntentListener, broadcast,
        raiseIntent, resolveIntent, joinChannel, getTabTitle;
      maintains_walk; try done;
      intros st Hst; try destruct (_ !! _); exact Hst.
  - destruct k; cbn [onManifest];
      unfold onConnect_manifest, raise_launch, raise_launch_with, resolve_launch;
      maintains_walk; try done; by intros st Hst.
  - maintains_walk. done.
Qed.

(** Every state the event loop reaches from the initial one files its
    connections under their own ids. *)
Lemma run_connected_by_id channels origin evs st :
  connected_by_id st → connected_by_id (run channels origin evs st).1.
Proof.
  revert st. induction evs as [|ev evs IH]; intros st Hst; cbn [run]; [done|].
  destruct (handle_connected_by_id channels origin ev st Hst) as (Hst1 & _ & _).
  destruct (handle channels origin ev st) as [[o st1] effs1]; cbn in *.
  specialize (IH st1 Hst1).
  by destruct (run channels origin evs st1) as [st2 effs2].
Qed.

Lemma init_connected_by_id channels : connected_by_id (init channels).
Proof.
  unfold init.
  assert (∀ b, connected b = ∅ →
            connected (foldl (λ b chan,
              set_contexts (<[chan_id chan := []]> (contexts b))
                (set_contextListeners (<[chan_id chan := []]> (contextListeners b)) b))
              b channels) = ∅) as Hfold.
  { induction channels as [|chan channels IH]; intros b Hb; [done|].
    cbn [foldl]. by apply IH. }
  intros k q. by rewrite Hfold.
Qed.

(** * Further properties *)

(** ** Replacing a placeholder *)

Lemma string_app_cons (x : ascii) (a b : string) :
  String x a +:+ b = String x (a +:+ b).
Proof. reflexivity. Qed.

Lemma string_app_assoc (a b c : string) : (a +:+ b) +:+ c = a +:+ (b +:+ c).
Proof.
  induction a as [|x a IH]; [reflexivity|]. rewrite !string_app_cons. by f_equal.
Qed.

Lemma string_app_inv_head (a b c : string) : a +:+ b = a +:+ c → b = c.
Proof.
  induction a as [|x a IH]; [done|]. rewrite !string_app_cons.
  intros [= H]. by apply IH.
Qed.

Lemma is_prefix_app (p rest : string) : is_prefix p (p +:+ rest) = true.
Proof.
  induction p as [|x p IH]; [reflexivity|]. rewrite string_app_cons.
  cbn [is_prefix]. by rewrite Ascii.eqb_refl.
Qed.

Lemma is_prefix_drop (p s : string) :
  is_prefix p s = true → s = p +:+ drop_string (String.length p) s.
Proof.
  revert s. induction p as [|x p IH]; intros s; [reflexivity|].
  destruct s as [|y s]; [done|]. cbn [is_prefix String.length drop_string].
  destruct (Ascii.eqb_spec x y) as [->|]; [|done].
  intros Hp. rewrite string_app_cons. by rewrite <- (IH s Hp).
Qed.

Lemma split_first_occurs pat s before after :
  split_first pat s = Some (before, after) → occurs_at pat s before after.
Proof.
  unfold occurs_at. revert before after.
  induction s as [|c s IH]; intros before after; cbn [split_first].
  - destruct (is_prefix pat "") eqn:Hp; [|done].
    intros [= <- <-]. by apply is_prefix_drop.
  - destruct (is_prefix pat (String c s)) eqn:Hp.
    + intros [= <- <-]. by apply is_prefix_drop.
    + destruct (split_first pat s) as [[b a]|]; [|done].
      intros [= <- <-]. rewrite string_app_cons. by rewrite <- (IH b a).
Qed.

Lemma split_first_earliest pat s before after :
  occurs_at pat s before after →
  (∀ b a, occurs_at pat s b a → String.length before ≤ String.length b) →
  split_first pat s = Some (before, after).
Proof.
  unfold occurs_at. revert before after.
  induction s as [|c s IH]; intros before after Hocc Hfirst.
  - destruct before as [|c' before]; [|by rewrite string_app_cons in Hocc].
    change (""%string = pat +:+ after) in Hocc.
    destruct pat as [|x pat]; [|by rewrite string_app_cons in Hocc].
    change (""%string = after) in Hocc. by subst after.
  - cbn [split_first]. destruct (is_prefix pat (String c s)) eqn:Hp.
    + pose proof (Hfirst ""%string _ (is_prefix_drop _ _ Hp)) as Hlen.
      destruct before as [|c' before]; [|cbn in Hlen; lia].
      change (String c s = pat +:+ after) in Hocc.
      f_equal. f_equal. apply (string_app_inv_head pat).
      by rewrite <- is_prefix_drop.
    + destruct before as [|c' before].
      { change (String c s = pat +:+ after) in Hocc.
        by rewrite Hocc, is_prefix_app in Hp. }
      rewrite string_app_cons in Hocc. injection Hocc as <- Hocc.
      rewrite (IH before after Hocc); [done|].
      intros b a Hb. specialize (Hfirst (String c b) a).
      rewrite string_app_cons, <- Hb in Hfirst. specialize (Hfirst eq_refl).
      cbn in Hfirst. lia.
Qed.

Lemma split_first_absent pat s :
  (∀ b a, ¬ occurs_at pat s b a) → split_first pat s = None.
Proof.
  intros Habsent. destruct (split_first pat s) as [[b a]|] eqn:Hs; [|done].
  by destruct (Habsent b a (split_first_occurs _ _ _ _ Hs)).
Qed.

Lemma split_first_is_earliest pat s before after :
  split_first pat s = Some (before, after) →
  ∀ b a, occurs_at pat s b a → String.length before ≤ String.length b.
Proof.
  unfold occurs_at. revert before after.
  induction s as [|c s IH]; intros before after; cbn [split_first].
  - destruct (is_prefix pat "") eqn:Hp; [|done].
    intros [= <- <-] b a _. cbn. lia.
  - destruct (is_prefix pat (String c s)) eqn:Hp.
    { intros [= <- <-] b a _. cbn. lia. }
    destruct (split_first pat s) as [[b1 a1]|] eqn:Hs; [|done].
    intros [= <- <-] b a Hocc. destruct b as [|c' b].
    { change (String c s = pat +:+ a) in Hocc.
      by rewrite Hocc, is_prefix_app in Hp. }
    rewrite string_app_cons in Hocc. injection Hocc as <- Hocc.
    specialize (IH b1 a1 eq_refl b a Hocc). cbn. lia.
Qed.

Lemma split_first_None_absent pat s :
  split_first pat s = None → ∀ b a, ¬ occurs_at pat s b a.
Proof.
  unfold occurs_at. induction s as [|c s IH]; cbn [split_first].
  - destruct (is_prefix pat "") eqn:Hp; [done|]. intros _ b a Hocc.
    destruct b as [|c' b]; [|by rewrite string_app_cons in Hocc].
    change (""%string = pat +:+ a) in Hocc.
    by rewrite Hocc, is_prefix_app in Hp.
  - destruct (is_prefix pat (String c s)) eqn:Hp; [done|].
    destruct (split_first pat s) as [[b1 a1]|] eqn:Hs; [done|].
    intros _ b a Hocc. destruct b as [|c' b].
    { change (String c s = pat +:+ a) in Hocc.
      by rewrite Hocc, is_prefix_app in Hp. }
    rewrite string_app_cons in Hocc. injection Hocc as <- Hocc.
    by apply (IH eq_refl b a).
Qed.

Lemma get_substitution_other matched before after c r :
  Ascii.eqb c "$" = false →
  get_substitution matched before after (String c r)
    = String c (get_substitution matched before after r).
Proof.
  intros Hc.
  destruct c as [[] [] [] [] [] [] [] []]; try reflexivity; discriminate Hc.
Qed.

Lemma get_substitution_plain matched before after rep :
  has_dollar rep = false → get_substitution matched before after rep = rep.
Proof.
  induction rep as [|c r IH]; [reflexivity|]. cbn [has_dollar].
  intros [Hc Hr]%orb_false_elim.
  rewrite get_substitution_other by done. by rewrite IH.
Qed.

(** X1.  [replace] with a pattern that does not occur in the string returns
    the string as it is, whatever the replacement. *)
Theorem js_replace_absent s pat rep :
  (∀ b a, ¬ occurs_at pat s b a) → js_replace s pat rep = s.
Proof.
  intros Habsent. unfold js_replace. by rewrite split_first_absent.
Qed.

Lemma js_replace_absent_witness :
  js_replace "app://open?venue=${venue}" (placeholder "symbol") "MSFT"
    = "app://open?venue=${venue}".
Proof.
  apply (js_replace_absent "app://open?venue=${venue}" (placeholder "symbol") "MSFT").
  apply split_first_None_absent. vm_compute. reflexivity.
Defined.

(** X2.  [replace] with a replacement that holds no dollar sign puts the
    replacement in the place of the earliest occurrence of the pattern and
    leaves the rest of the string, later occurrences included, as it is. *)
Theorem js_replace_earliest s pat rep before after :
  occurs_at pat s before after →
  (∀ b a, occurs_at pat s b a → String.length before ≤ String.length b) →
  has_dollar rep = false →
  js_replace s pat rep = before +:+ rep +:+ after.
Proof.
  intros Hocc Hfirst Hrep. unfold js_replace.
  rewrite (split_first_earliest pat s before after Hocc Hfirst).
  by rewrite get_substitution_plain.
Qed.

Lemma js_replace_earliest_witness :
  js_replace "${symbol} vs ${symbol}" (placeholder "symbol") "MSFT"
    = "MSFT vs ${symbol}".
Proof.
  apply (js_replace_earliest "${symbol} vs ${symbol}" (placeholder "symbol")
           "MSFT" "" " vs ${symbol}").
  - reflexivity.
  - apply (split_first_is_earliest _ _ "" " vs ${symbol}"). vm_compute. reflexivity.
  - reflexivity.
Defined.

(** X4.  Placeholders of parameters that do not occur in the template leave
    it untouched: substitution with only such parameters returns the
    template itself. *)
Theorem substitute_without_occurrence params t :
  (∀ key v, (key, v) ∈ params → ∀ b a, ¬ occurs_at (placeholder key) t b a) →
  substitute params (Some t) = Ret (Some t).
Proof.
  induction params as [|[key v] params IH]; intros Habsent; [reflexivity|].
  cbn [substitute]. unfold js_replace. rewrite split_first_absent.
  - apply IH. intros key' v' Hin. apply (Habsent key' v'), elem_of_cons. by right.
  - apply (Habsent key v), elem_of_cons. by left.
Qed.

Lemma substitute_without_occurrence_witness :
  substitute [("symbol", VStr "MSFT")] (Some "app://open?venue=${venue}")
    = Ret (Some "app://open?venue=${venue}").
Proof.
  apply (substitute_without_occurrence [("symbol", VStr "MSFT")]
           "app://open?venue=${venue}").
  intros key v Hin. apply list_elem_of_singleton in Hin. injection Hin as -> ->.
  apply split_first_None_absent. vm_compute. reflexivity.
Defined.

(** ** What the handlers leave behind *)

Lemma deliver_context_state data l st : (deliver_context data l st).1.2 = st.
Proof.
  unfold deliver_context. step.
  destruct (connected_port st l) as [q|]; step; reflexivity.
Qed.

Lemma for_each_deliver_state data ls st :
  (for_each (deliver_context data) ls st).1.2 = st.
Proof.
  induction ls as [|l ls IH]; [reflexivity|]. cbn [for_each].
  pose proof (deliver_context_state data l st) as Hl.
  unfold mbind, handler_bind.
  destruct (deliver_context data l st) as [[[[]|e] st1] effs1]; cbn in Hl; subst st1.
  - destruct (for_each (deliver_context data) ls st) as [[o st2] effs2]. done.
  - reflexivity.
Qed.

(** A broadcast either leaves the state alone or puts one context in front
    of the history of the broadcaster's channel, and changes nothing else. *)
Lemma broadcast_state port data st :
  (broadcast port data st).1.2 = st ∨
  ∃ p history ctx,
    connected_port st (app_id port) = Some p ∧
    contexts st !! current_channel st p = Some history ∧
    prop data "context" = Ret ctx ∧
    (broadcast port data st).1.2 =
      set_contexts (<[current_channel st p := ctx :: history]> (contexts st)) st.
Proof.
  unfold broadcast. step.
  destruct (connected_port st (app_id port)) as [p|] eqn:Hp; step; [|by left].
  destruct (contexts st !! current_channel st p) as [history|] eqn:Hh; step;
    [|by left].
  destruct (prop data "context") as [ctx|e] eqn:Hctx; step; [|by left].
  right. exists p, history, ctx. split_and!; [done..|].
  cbn [contextListeners set_contexts].
  destruct (contextListeners st !! current_channel st p) as [ls|]; step;
    [|reflexivity].
  apply for_each_deliver_state.
Qed.

(** addContextListener either leaves the state alone or appends the id to
    the listener list of the endpoint's channel. *)
Lemma addContextListener_state port st :
  (addContextListener port st).1.2 = st ∨
  ∃ p ls,
    connected_port st (app_id port) = Some p ∧
    contextListeners st !! current_channel st p = Some ls ∧
    (addContextListener port st).1.2 =
      set_contextListeners
        (<[current_channel st p := ls ++ [app_id port]]> (contextListeners st)) st.
Proof.
  unfold addContextListener. step.
  destruct (connected_port st (app_id port)) as [p|] eqn:Hp; step; [|by left].
  destruct (contextListeners st !! current_channel st p) as [ls|] eqn:Hl; step;
    [|by left].
  right. by exists p, ls.
Qed.

Lemma emit_let_state {A} (res : Outcome A * Broker * list Effect) e :
  (let '(o, st', effs) := res in (o, st', e :: effs)).1.2 = res.1.2.
Proof. by destruct res as [[??]?]. Qed.

(** The state [joinChannel] leaves behind once it has found the endpoint's
    connection and its previous listener list, whether or not it goes on to
    throw: the previous list without the id, the target list with the id at
    its end, and the target remembered for the port and for the tab. *)
Lemma joinChannel_state channels port chan restoreOnly st p prev :
  connected_port st (app_id port) = Some p →
  contextListeners st !! current_channel st p = Some prev →
  own_or_absent (contextListeners st) chan →
  let left_prev := <[current_channel st p := List.filter (not_id (app_id port)) prev]>
                     (contextListeners st) in
  (joinChannel channels port chan restoreOnly st).1.2 =
    set_tabChannels (<[tab_key port := chan]> (tabChannels st))
      (set_port_channel (<[port_ref p := chan]> (port_channel st))
         (set_contextListeners
            (<[chan := default [] (left_prev !! chan) ++ [app_id port]]> left_prev)
            st)).
Proof.
  intros Hp Hprev Hown left_prev. unfold joinChannel.
  step. rewrite Hp. step. rewrite Hprev. step.
  cbn [contextListeners set_contextListeners]. fold left_prev.
  assert (left_prev !! chan = None → inherited chan = false) as Hown'.
  { intros Hnone. apply Hown. subst left_prev.
    destruct (decide (current_channel st p = chan)) as [<-|Hne].
    - by rewrite lookup_insert_eq in Hnone.
    - by rewrite lookup_insert_ne in Hnone. }
  destruct (left_prev !! chan) as [ls|] eqn:Hls;
    [|rewrite (Hown' eq_refl)]; step;
    rewrite emit_let_state;
    cbn [contextListeners set_contextListeners set_port_channel set_tabChannels
         port_channel tabChannels connected contexts directory intentListeners
         port_directoryData];
    rewrite ?Hls, ?lookup_insert_eq, ?insert_insert_eq;
    cbn [default from_option id];
    (destruct (List.find _ channels) as [c|]; step; [|reflexivity]);
    rewrite emit_let_state;
    cbn [contexts set_contextListeners set_port_channel set_tabChannels];
    (destruct (contexts st !! chan) as [h|]; step; [reflexivity|]);
    (destruct (inherited chan); step; reflexivity).
Qed.

(** Under an inherited name that has no listener list of its own the join
    stops at [push]: the endpoint has left its previous list and is in
    none. *)
Lemma joinChannel_inherited channels port chan restoreOnly st p prev :
  connected_port st (app_id port) = Some p →
  contextListeners st !! current_channel st p = Some prev →
  contextListeners st !! chan = None →
  inherited chan = true →
  joinChannel channels port chan restoreOnly st =
    (Throw TypeError,
     set_contextListeners
       (<[current_channel st p := List.filter (not_id (app_id port)) prev]>
          (contextListeners st)) st,
     []).
Proof.
  intros Hp Hprev Hnone Hinh. unfold joinChannel.
  step. rewrite Hp. step. rewrite Hprev. step.
  cbn [contextListeners set_contextListeners].
  rewrite lookup_insert_ne by congruence.
  rewrite Hnone, Hinh. by step.
Qed.

Lemma joinChannel_channel_step channels port chan restoreOnly st :
  channel_step st (joinChannel channels port chan restoreOnly st).1.2.
Proof.
  destruct (connected_port st (app_id port)) as [p|] eqn:Hp.
  - destruct (contextListeners st !! current_channel st p) as [prev|] eqn:Hprev.
    + destruct (contextListeners st !! chan) as [ls|] eqn:Hchan.
      * rewrite (joinChannel_state channels port chan restoreOnly st p prev
                   Hp Hprev) by (intros Hnone; congruence).
        by apply (step_join _ _ port p prev chan).
      * destruct (inherited chan) eqn:Hinh.
        -- rewrite (joinChannel_inherited channels port chan restoreOnly st
                      p prev Hp Hprev Hchan Hinh).
           by apply (step_leave _ _ port p prev).
        -- rewrite (joinChannel_state channels port chan restoreOnly st p prev
                      Hp Hprev) by (intros _; exact Hinh).
           by apply (step_join _ _ port p prev chan).
    + unfold joinChannel. step. rewrite Hp. step. rewrite Hprev. step.
      by apply step_same.
  - unfold joinChannel. step. rewrite Hp. step. by apply step_same.
Qed.

(** Handlers that leave the channel registries alone. *)
Ltac registries_same :=
  maintains_walk; try done;
  intros ? [? [? [? [? ?]]]]; repeat case_match; split_and!; assumption.

Lemma handle_same_registries (m : Handler unit) st :
  maintains (λ s, connected s = connected st ∧
                  contextListeners s = contextListeners st ∧
                  port_channel s = port_channel st ∧
                  contexts s = contexts st ∧
                  tabChannels s = tabChannels st)
            (λ _, True) m (λ _, True) →
  channel_step st (m st).1.2.
Proof.
  intros Hm. destruct (Hm st) as ((? & ? & ? & ? & ?) & _); [done|].
  by apply step_same.
Qed.

Lemma onConnect_channel_step origin port st :
  channel_step st (onConnect origin port st).1.2.
Proof.
  unfold onConnect.
  destruct (origin (sender_url (sender port))) as [o|]; step;
    [|by apply step_same].
  destruct (directory st) as [dir|]; step; [|by apply step_same].
  destruct (find_m (same_origin origin o) dir) as [[entry|]|e]; step;
    [| |by apply step_same].
  - destruct (truthy_str (entry_manifest entry)); step;
      by apply (step_connect _ _ port).
  - by apply (step_connect _ _ port).
Qed.

(** One turn of the event loop is one step of the channel registries. *)
Lemma handle_channel_step channels origin ev st :
  channel_step st (handle channels origin ev st).1.2.
Proof.
  destruct ev as [data|q|q|q msg|k mD|q tabId title]; cbn [handle].
  - by apply step_same.
  - apply onConnect_channel_step.
  - by apply (step_disconnect _ _ q).
  - destruct msg; cbn [onMessage].
    + apply handle_same_registries. unfold open. registries_same.
    + destruct (addContextListener_state q st) as [->|(p & ls & Hp & Hls & ->)].
      * by apply step_same.
      * by apply (step_listen _ _ q p ls).
    + apply handle_same_registries. unfold addIntentListener. registries_same.
    + destruct (broadcast_state q data st) as [->|(p & h & ctx & Hp & Hh & _ & ->)].
      * by apply step_same.
      * by apply (step_broadcast _ _ q p h ctx).
    + apply handle_same_registries. unfold raiseIntent. registries_same.
    + apply handle_same_registries. unfold resolveIntent. registries_same.
    + apply joinChannel_channel_step.
    + apply handle_same_registries. unfold getTabTitle. registries_same.
    + by apply step_same.
  - destruct k; cbn [onManifest].
    + apply handle_same_registries. unfold onConnect_manifest. registries_same.
    + apply handle_same_registries. registries_same.
    + apply handle_same_registries. unfold raise_launch, raise_launch_with.
      registries_same.
    + apply handle_same_registries. unfold resolve_launch. registries_same.
    + by apply step_same.
  - by apply step_same.
Qed.

(** ** Invariants of the channel registries *)

Lemma run_invariant (Inv : Broker → Prop) channels origin :
  (∀ st st1, channel_step st st1 → Inv st → Inv st1) →
  ∀ evs st, Inv st → Inv (run channels origin evs st).1.
Proof.
  intros Hstep evs. induction evs as [|ev evs IH]; intros st Hst; [done|].
  cbn [run]. pose proof (handle_channel_step channels origin ev st) as Hev.
  destruct (handle channels origin ev st) as [[o st1] effs1]. cbn in Hev.
  specialize (IH st1 (Hstep st st1 Hev Hst)).
  by destruct (run channels origin evs st1) as [st2 effs2].
Qed.

Lemma connected_port_insert st st1 port l :
  connected st1 = <[app_id port := Some port]> (connected st) →
  is_Some (connected_port st l) → is_Some (connected_port st1 l).
Proof.
  intros Hc. unfold connected_port. rewrite Hc.
  destruct (decide (l = app_id port)) as [->|Hl].
  - rewrite lookup_insert_eq. eauto.
  - by rewrite lookup_insert_ne.
Qed.

Lemma connected_port_same st st1 l :
  connected st1 = connected st → connected_port st1 l = connected_port st l.
Proof. intros Hc. unfold connected_port. by rewrite Hc. Qed.

Lemma listeners_connected_step st st1 :
  channel_step st st1 → listeners_connected st → listeners_connected st1.
Proof.
  intros Hstep Hinv ch ls l.
  destruct Hstep as [Hc Hl _ _ _|q Hc Hl _ _ _|q Hc Hl _ _ _
                    |q p ls0 Hp Hls0 Hc Hl _ _ _
                    |q p prev chan Hp Hprev Hc Hl _ _ _
                    |q p prev Hp Hprev Hc Hl _ _ _
                    |q p h ctx Hp Hh Hc Hl _ _ _]; rewrite Hl.
  - rewrite (connected_port_same _ _ _ Hc). apply Hinv.
  - intros Hls Hin. eapply connected_port_insert; [done|]. by eapply Hinv.
  - rewrite lookup_fmap.
    destruct (contextListeners st !! ch) as [ls1|] eqn:Hls1; cbn; [|done].
    intros [= <-] [Hin Hne]%elem_of_filter_list.
    unfold connected_port. rewrite Hc, lookup_insert_ne.
    + by apply (Hinv ch ls1 l).
    + intros <-. unfold not_id in Hne. by rewrite String.eqb_refl in Hne.
  - rewrite (connected_port_same _ _ _ Hc).
    destruct (decide (ch = current_channel st p)) as [->|Hne].
    + rewrite lookup_insert_eq.
      intros [= <-] [Hin|Heq%list_elem_of_singleton]%elem_of_app.
      * by eapply Hinv.
      * subst l. by rewrite Hp.
    + rewrite lookup_insert_ne by done. apply Hinv.
  - rewrite (connected_port_same _ _ _ Hc). cbn zeta.
    assert (∀ ch' ls', <[current_channel st p := List.filter (not_id (app_id q)) prev]>
                         (contextListeners st) !! ch' = Some ls' →
                       ∀ l', l' ∈ ls' → is_Some (connected_port st l')) as Hleft.
    { intros ch' ls'. destruct (decide (ch' = current_channel st p)) as [->|Hne].
      - rewrite lookup_insert_eq.
        intros [= <-] l' [Hin _]%elem_of_filter_list. by eapply Hinv.
      - rewrite lookup_insert_ne by done. intros Hls' l' Hin. by eapply Hinv. }
    destruct (decide (ch = chan)) as [->|Hne].
    + rewrite lookup_insert_eq.
      intros [= <-] [Hin|Heq%list_elem_of_singleton]%elem_of_app;
        [|subst l; by rewrite Hp].
      destruct (_ !! chan) as [ls'|] eqn:Hls'; cbn in Hin.
      * by eapply Hleft.
      * by apply elem_of_nil in Hin.
    + rewrite lookup_insert_ne by done. intros Hls Hin. by eapply Hleft.
  - rewrite (connected_port_same _ _ _ Hc).
    destruct (decide (ch = current_channel st p)) as [->|Hne].
    + rewrite lookup_insert_eq.
      intros [= <-] [Hin _]%elem_of_filter_list. by eapply Hinv.
    + rewrite lookup_insert_ne by done. apply Hinv.
  - rewrite (connected_port_same _ _ _ Hc). apply Hinv.
Qed.

Lemma channels_listed_step st st1 :
  channel_step st st1 → channels_listed st → channels_listed st1.
Proof.
  intros Hstep [Hdef Hinv].
  assert (∀ f, is_Some (contextListeners st !! f) →
               contextListeners st1 = contextListeners st ∨
               (∃ g, contextListeners st1 = g <$> contextListeners st) ∨
               (∃ k v, contextListeners st1 = <[k := v]> (contextListeners st)) ∨
               (∃ k v k' v', contextListeners st1
                  = <[k := v]> (<[k' := v']> (contextListeners st))) →
               is_Some (contextListeners st1 !! f)) as Hkeep.
  { intros f Hf [->|[(g & ->)|[(k & v & ->)|(k & v & k' & v' & ->)]]]; [done|..].
    - rewrite lookup_fmap. by apply fmap_is_Some.
    - rewrite lookup_insert. case_decide; eauto.
    - rewrite lookup_insert. case_decide; [eauto|].
      rewrite lookup_insert. case_decide; eauto. }
  destruct Hstep as [_ Hl Hpc _ _|q _ Hl Hpc _ _|q _ Hl Hpc _ _
                    |q p ls0 _ _ _ Hl Hpc _ _
                    |q p prev chan _ _ _ Hl Hpc _ _
                    |q p prev _ _ _ Hl Hpc _ _
                    |q p h ctx _ _ _ Hl Hpc _ _].
  1-4,6-7: split; [apply Hkeep; [done|] | intros ref ch; rewrite Hpc; intros Href;
                 apply Hkeep; [by eapply Hinv|]]; eauto 10.
  split; [apply Hkeep; [done|]; eauto 10|].
  intros ref ch. rewrite Hpc, Hl. cbn zeta.
  destruct (decide (ref = port_ref p)) as [->|Hne].
  - rewrite lookup_insert_eq. intros [= <-]. rewrite lookup_insert_eq. eauto.
  - rewrite lookup_insert_ne by done. intros Href.
    pose proof (Hinv ref ch Href) as Hch.
    rewrite lookup_insert. case_decide; [eauto|].
    rewrite lookup_insert. case_decide; eauto.
Qed.

Lemma history_extends_refl st : history_extends st st.
Proof. intros ch. destruct (contexts st !! ch) as [h|]; [by exists []|done]. Qed.

Lemma history_extends_trans st1 st2 st3 :
  history_extends st1 st2 → history_extends st2 st3 → history_extends st1 st3.
Proof.
  intros H12 H23 ch. specialize (H12 ch). specialize (H23 ch).
  destruct (contexts st1 !! ch) as [h|].
  - destruct H12 as [new Hnew]. rewrite Hnew in H23.
    destruct H23 as [new' Hnew']. exists (new' ++ new). by rewrite <- app_assoc.
  - by rewrite H12 in H23.
Qed.

Lemma history_extends_step st st1 : channel_step st st1 → history_extends st st1.
Proof.
  intros Hstep ch.
  destruct Hstep as [_ _ _ Hx _|q _ _ _ Hx _|q _ _ _ Hx _
                    |q p ls0 _ _ _ _ _ Hx _
                    |q p prev chan _ _ _ _ _ Hx _
                    |q p prev _ _ _ _ _ Hx _
                    |q p h ctx _ Hh _ _ _ Hx _]; rewrite Hx.
  1-6: destruct (contexts st !! ch) as [h|]; [by exists []|done].
  destruct (decide (ch = current_channel st p)) as [->|Hne].
  - rewrite Hh, lookup_insert_eq. by exists [ctx].
  - rewrite lookup_insert_ne by done.
    destruct (contexts st !! ch) as [h'|]; [by exists []|done].
Qed.

(** The registries at startup. *)
Lemma lookup_insert_nil_or {A} (m : gmap string (list A)) (x k : string)
    (rest : list string) :
  (if decide (k ∈ rest) then Some [] else <[x := []]> m !! k)
  = (if decide (k ∈ x :: rest) then Some [] else m !! k).
Proof.
  destruct (decide (k ∈ rest)) as [Hin|Hnot].
  - rewrite decide_True; [done|]. apply elem_of_cons. by right.
  - destruct (decide (k = x)) as [->|Hne].
    + rewrite lookup_insert_eq, decide_True; [done|]. apply elem_of_cons. by left.
    + rewrite lookup_insert_ne by done. rewrite decide_False; [done|].
      intros [?|?]%elem_of_cons; done.
Qed.

Lemma init_registries channels :
  connected (init channels) = ∅ ∧
  port_channel (init channels) = ∅ ∧
  (∀ k, contexts (init channels) !! k =
          if decide (k ∈ "default" :: (chan_id <$> channels))
          then Some [] else None) ∧
  (∀ k, contextListeners (init channels) !! k =
          if decide (k ∈ "default" :: (chan_id <$> channels))
          then Some [] else None).
Proof.
  unfold init.
  set (f := λ (b : Broker) (chan : SystemChannel),
              set_contexts (<[chan_id chan := []]> (contexts b))
                (set_contextListeners
                   (<[chan_id chan := []]> (contextListeners b)) b)).
  assert (∀ b,
    connected (foldl f b channels) = connected b ∧
    port_channel (foldl f b channels) = port_channel b ∧
    (∀ k, contexts (foldl f b channels) !! k =
            if decide (k ∈ chan_id <$> channels) then Some [] else contexts b !! k) ∧
    (∀ k, contextListeners (foldl f b channels) !! k =
            if decide (k ∈ chan_id <$> channels) then Some []
            else contextListeners b !! k)) as Hfold.
  { induction channels as [|chan channels IH]; intros b.
    - split_and!; [done..| |]; intros k; rewrite decide_False; try done;
        apply not_elem_of_nil.
    - cbn [foldl]. destruct (IH (f b chan)) as (Hc & Hp & Hx & Hl).
      split_and!; [done..| |]; intros k; rewrite ?Hx, ?Hl; rewrite fmap_cons;
        apply lookup_insert_nil_or. }
  destruct (Hfold (mkBroker None ∅ {["default" := []]} ∅ {["default" := []]} ∅ ∅ ∅))
    as (Hc & Hp & Hx & Hl).
  split_and!; [done..| |]; intros k; rewrite ?Hx, ?Hl;
    cbn [contexts contextListeners];
    by rewrite <- insert_empty, lookup_insert_nil_or, lookup_empty.
Qed.

Lemma run_registries_sound channels origin evs :
  listeners_connected (run channels origin evs (init channels)).1 ∧
  channels_listed (run channels origin evs (init channels)).1.
Proof.
  destruct (init_registries channels) as (Hc & Hp & _ & Hl). split.
  - apply run_invariant; [apply listeners_connected_step|].
    intros ch ls l. rewrite Hl. case_decide; [|done].
    intros [= <-] Hin. by apply elem_of_nil in Hin.
  - apply run_invariant; [apply channels_listed_step|]. split.
    + rewrite Hl, decide_True; [eauto|]. apply elem_of_cons. by left.
    + intros ref ch. by rewrite Hp, lookup_empty.
Qed.

(** X5.  In every state the event loop reaches from startup, each id in a
    context listener list has a live connection: the list entries of an
    endpoint do not outlive its disconnect. *)
Theorem listeners_have_connections channels origin evs ch ls l :
  let st := (run channels origin evs (init channels)).1 in
  contextListeners st !! ch = Some ls → l ∈ ls →
  ∃ q, connected_port st l = Some q.
Proof.
  intros st Hls Hin.
  destruct (run_registries_sound channels origin evs) as [Hconn _].
  by apply (Hconn ch ls l).
Qed.

Lemma listeners_have_connections_witness :
  let evs := [DirectoryLoaded []; Connect Scenario.chart; Connect Scenario.news;
              Receive Scenario.chart AddContextListener;
              Receive Scenario.news AddContextListener;
              Disconnect Scenario.chart] in
  let st := (run Scenario.channels Scenario.origin evs (init Scenario.channels)).1 in
  ∃ q, connected_port st "fdc3-desktop-agent8" = Some q.
Proof.
  intros evs st.
  apply (listeners_have_connections Scenario.channels Scenario.origin evs
           "default" ["fdc3-desktop-agent8"] "fdc3-desktop-agent8").
  - vm_compute. reflexivity.
  - apply list_elem_of_singleton. reflexivity.
Defined.

Lemma listeners_targets st ls :
  (∀ l, l ∈ ls → is_Some (connected_port st l)) →
  ∃ targets, Forall2 (λ l q, connected_port st l = Some q) ls targets.
Proof.
  induction ls as [|l ls IH]; intros Hls; [by exists []|].
  destruct (Hls l) as [q Hq]; [apply elem_of_cons; by left|].
  destruct IH as [targets Htargets].
  { intros l' Hin. apply Hls, elem_of_cons. by right. }
  exists (q :: targets). by constructor.
Qed.

Lemma channels_listed_current st p :
  channels_listed st → is_Some (contextListeners st !! current_channel st p).
Proof.
  intros [Hdef Hinv]. unfold current_channel.
  destruct (port_channel st !! port_ref p) as [ch|] eqn:Hch; [|done].
  destruct (String.eqb ch ""); [done|]. by eapply Hinv.
Qed.

(** X6.  In a state reached from startup, a broadcast from a connected
    endpoint whose channel has a history, with defined data, cannot fail
    half-way: it returns normally, stores the context and posts one
    message for every entry of the channel's listener list. *)
Theorem broadcast_completes channels origin evs port data p history ctx :
  let st := (run channels origin evs (init channels)).1 in
  connected_port st (app_id port) = Some p →
  contexts st !! current_channel st p = Some history →
  prop data "context" = Ret ctx →
  ∃ listeners targets,
    contextListeners st !! current_channel st p = Some listeners ∧
    Forall2 (λ l q, connected_port st l = Some q) listeners targets ∧
    broadcast port data st =
      (Ret tt,
       set_contexts (<[current_channel st p := ctx :: history]> (contexts st)) st,
       (λ q, PostMessage q (MContext data)) <$> targets).
Proof.
  intros st Hp Hh Hctx.
  destruct (run_registries_sound channels origin evs) as [Hconn Hlisted].
  fold st in Hconn, Hlisted.
  destruct (channels_listed_current st p Hlisted) as [listeners Hl].
  destruct (listeners_targets st listeners) as [targets Ht].
  { intros l Hin. by eapply Hconn. }
  exists listeners, targets. split_and!; [done..|].
  unfold broadcast. step. rewrite Hp. step. rewrite Hh. step. rewrite Hctx. step.
  rewrite Hl. step. by apply for_each_deliver.
Qed.

Lemma broadcast_completes_witness :
  let evs := [DirectoryLoaded []; Connect Scenario.chart; Connect Scenario.news;
              Receive Scenario.news (JoinChannel "red" false);
              Receive Scenario.chart (JoinChannel "red" false)] in
  let st := (run Scenario.channels Scenario.origin evs (init Scenario.channels)).1 in
  let data := VObj [("context", Scenario.msft)] in
  ∃ listeners targets,
    contextListeners st !! current_channel st Scenario.chart = Some listeners ∧
    Forall2 (λ l q, connected_port st l = Some q) listeners targets ∧
    broadcast Scenario.chart data st =
      (Ret tt,
       set_contexts (<[current_channel st Scenario.chart := [Scenario.msft]]>
                       (contexts st)) st,
       (λ q, PostMessage q (MContext data)) <$> targets).
Proof.
  intros evs st data.
  apply (broadcast_completes Scenario.channels Scenario.origin evs
           Scenario.chart data Scenario.chart [] Scenario.msft).
  - vm_compute. reflexivity.
  - vm_compute. reflexivity.
  - reflexivity.
Defined.

(** X7.  In a state reached from startup, addContextListener from a
    connected endpoint never throws: the listener list of the endpoint's
    channel exists, and the id is appended to it. *)
Theorem addContextListener_succeeds channels origin evs port p :
  let st := (run channels origin evs (init channels)).1 in
  connected_port st (app_id port) = Some p →
  ∃ listeners,
    contextListeners st !! current_channel st p = Some listeners ∧
    addContextListener port st =
      (Ret tt,
       set_contextListeners
         (<[current_channel st p := listeners ++ [app_id port]]>
            (contextListeners st)) st,
       []).
Proof.
  intros st Hp.
  destruct (run_registries_sound channels origin evs) as [_ Hlisted].
  fold st in Hlisted.
  destruct (channels_listed_current st p Hlisted) as [listeners Hl].
  exists listeners. split; [done|].
  unfold addContextListener. step. rewrite Hp. step. rewrite Hl. by step.
Qed.

Lemma addContextListener_succeeds_witness :
  let evs := [DirectoryLoaded []; Connect Scenario.chart;
              Receive Scenario.chart (JoinChannel "trading-desk" false)] in
  let st := (run Scenario.channels Scenario.origin evs (init Scenario.channels)).1 in
  ∃ listeners,
    contextListeners st !! current_channel st Scenario.chart = Some listeners ∧
    addContextListener Scenario.chart st =
      (Ret tt,
       set_contextListeners
         (<[current_channel st Scenario.chart
              := listeners ++ [app_id Scenario.chart]]>
            (contextListeners st)) st,
       []).
Proof.
  intros evs st.
  apply (addContextListener_succeeds Scenario.channels Scenario.origin evs
           Scenario.chart Scenario.chart).
  vm_compute. reflexivity.
Defined.

Lemma run_history_extends channels origin evs st :
  history_extends st (run channels origin evs st).1.
Proof.
  revert st. induction evs as [|ev evs IH]; intros st; cbn [run].
  - apply history_extends_refl.
  - pose proof (handle_channel_step channels origin ev st) as Hev.
    destruct (handle channels origin ev st) as [[o st1] effs1]. cbn in Hev.
    specialize (IH st1).
    destruct (run channels origin evs st1) as [st2 effs2]. cbn in IH |- *.
    eapply history_extends_trans; [by apply history_extends_step|done].
Qed.

(** X8.  Whatever events follow, no history is lost: a channel's history
    afterwards is its history before with the newer contexts in front. *)
Theorem histories_only_grow channels origin evs st ch history :
  contexts st !! ch = Some history →
  ∃ new, contexts (run channels origin evs st).1 !! ch = Some (new ++ history).
Proof.
  intros Hh. pose proof (run_history_extends channels origin evs st ch) as Hch.
  by rewrite Hh in Hch.
Qed.

Lemma histories_only_grow_witness :
  let st := Scenario.after
              [DirectoryLoaded []; Connect Scenario.chart;
               Receive Scenario.chart (Broadcast (VObj [("context", Scenario.msft)]))] in
  ∃ new,
    contexts (run Scenario.channels Scenario.origin
                [Receive Scenario.chart (JoinChannel "red" false);
                 Disconnect Scenario.chart] st).1 !! "default"
      = Some (new ++ [Scenario.msft]).
Proof.
  intros st.
  apply (histories_only_grow Scenario.channels Scenario.origin _ st "default"
           [Scenario.msft]).
  vm_compute. reflexivity.
Defined.

(** X9.  The channels with a history are those of startup for good: the
    default channel and the system channels.  No join and no broadcast
    gives a history to any other channel id. *)
Theorem histories_only_for_startup_channels channels origin evs k :
  is_Some (contexts (run channels origin evs (init channels)).1 !! k)
  ↔ k ∈ "default" :: (chan_id <$> channels).
Proof.
  pose proof (run_history_extends channels origin evs (init channels) k) as Hk.
  destruct (init_registries channels) as (_ & _ & Hx & _).
  rewrite Hx in Hk. case_decide as Hin.
  - destruct Hk as [new ->]. split; eauto.
  - rewrite Hk. split; [by intros [??]|done].
Qed.

(** ** Joining and leaving *)

(** X10.  A join of a channel id that meets no inherited member in the
    listener registry moves the endpoint, whether or not the handler goes on
    to throw: every entry of its id is taken out of the listener list of its
    previous channel and one entry is put at the end of the target's list;
    a join of the channel it is already on leaves it there exactly once.
    The target is remembered for the port and for the tab. *)
Theorem joinChannel_moves_listener channels port chan restoreOnly st p prev :
  connected_port st (app_id port) = Some p →
  contextListeners st !! current_channel st p = Some prev →
  own_or_absent (contextListeners st) chan →
  let st1 := (joinChannel channels port chan restoreOnly st).1.2 in
  let stayed := List.filter (not_id (app_id port)) prev in
  (current_channel st p ≠ chan →
     contextListeners st1 !! current_channel st p = Some stayed ∧
     contextListeners st1 !! chan
       = Some (default [] (contextListeners st !! chan) ++ [app_id port])) ∧
  (current_channel st p = chan →
     contextListeners st1 !! chan = Some (stayed ++ [app_id port])) ∧
  (app_id port ∉ stayed) ∧
  port_channel st1 !! port_ref p = Some chan ∧
  tabChannels st1 !! tab_key port = Some chan.
Proof.
  intros Hp Hprev Hown st1 stayed. subst st1.
  rewrite (joinChannel_state channels port chan restoreOnly st p prev
             Hp Hprev Hown).
  cbn [contextListeners port_channel tabChannels set_tabChannels
       set_port_channel set_contextListeners]. cbn zeta. fold stayed.
  split_and!.
  - intros Hne. split.
    + rewrite lookup_insert_ne by done. apply lookup_insert_eq.
    + rewrite lookup_insert_eq. by rewrite lookup_insert_ne.
  - intros ->. by rewrite !lookup_insert_eq.
  - intros [_ Hin]%elem_of_filter_list. unfold not_id in Hin.
    by rewrite String.eqb_refl in Hin.
  - apply lookup_insert_eq.
  - apply lookup_insert_eq.
Qed.

(** The chart page, entered twice on the default channel, joins red. *)
Lemma joinChannel_moves_listener_witness :
  let st := Scenario.after [DirectoryLoaded []; Connect Scenario.chart;
                            Receive Scenario.chart AddContextListener;
                            Receive Scenario.chart AddContextListener] in
  let st1 := (joinChannel Scenario.channels Scenario.chart "red" false st).1.2 in
  contextListeners st1 !! "default" = Some [] ∧
  contextListeners st1 !! "red" = Some ["fdc3-desktop-agent7"].
Proof.
  intros st st1.
  destruct (joinChannel_moves_listener Scenario.channels Scenario.chart "red"
              false st Scenario.chart
              ["fdc3-desktop-agent7"; "fdc3-desktop-agent7"])
    as ((Hprev & Hchan) & _).
  - vm_compute. reflexivity.
  - vm_compute. reflexivity.
  - intros _. reflexivity.
  - vm_compute. discriminate.
  - split; [exact Hprev | exact Hchan].
Defined.

Lemma broadcast_without_history port data st p :
  connected_port st (app_id port) = Some p →
  contexts st !! current_channel st p = None →
  broadcast port data st = (Throw TypeError, st, []).
Proof.
  intros Hp Hnone. unfold broadcast. step. rewrite Hp. step. rewrite Hnone.
  by step.
Qed.

(** X11.  After a join of a channel id that has no history (any id that is
    not a startup channel) and that meets no inherited member in the
    listener registry, every broadcast of the endpoint throws a TypeError:
    it stores nothing and reaches nobody. *)
Theorem broadcast_after_unrecognized_join_throws
    channels port chan restoreOnly st p prev :
  connected_port st (app_id port) = Some p →
  contextListeners st !! current_channel st p = Some prev →
  contexts st !! chan = None →
  chan ≠ "" →
  own_or_absent (contextListeners st) chan →
  let st1 := (joinChannel channels port chan restoreOnly st).1.2 in
  ∀ data, broadcast port data st1 = (Throw TypeError, st1, []).
Proof.
  intros Hp Hprev Hnone Hchan Hown st1 data.
  pose proof (joinChannel_state channels port chan restoreOnly st p prev
                Hp Hprev Hown)
    as Hst1. cbn zeta in Hst1. fold st1 in Hst1.
  assert (connected_port st1 (app_id port) = Some p) as Hp1
    by (by rewrite Hst1).
  assert (current_channel st1 p = chan) as Hcur.
  { unfold current_channel. rewrite Hst1. cbn. rewrite lookup_insert_eq.
    by destruct (String.eqb_spec chan ""). }
  apply (broadcast_without_history port data st1 p Hp1).
  rewrite Hcur, Hst1. exact Hnone.
Qed.

Lemma broadcast_after_unrecognized_join_throws_witness :
  let st := Scenario.after [DirectoryLoaded []; Connect Scenario.chart] in
  let st1 := (joinChannel Scenario.channels Scenario.chart "trading-desk"
                false st).1.2 in
  broadcast Scenario.chart Scenario.msft st1 = (Throw TypeError, st1, []).
Proof.
  intros st.
  refine (broadcast_after_unrecognized_join_throws Scenario.channels
            Scenario.chart "trading-desk" false st Scenario.chart []
            _ _ _ _ _ Scenario.msft).
  - vm_compute. reflexivity.
  - vm_compute. reflexivity.
  - vm_compute. reflexivity.
  - discriminate.
  - intros _. reflexivity.
Defined.

(** X27.  A join of a channel id that is an inherited name, with no
    listener list of its own, fails half-way.  The endpoint has been taken
    out of the listener list of its channel and is put into none, while
    port and tab go on remembering the channel as before; no badge is set
    and nothing is posted. *)
Theorem joinChannel_inherited_id_unlists_endpoint
    channels port chan restoreOnly st p prev :
  connected_port st (app_id port) = Some p →
  contextListeners st !! current_channel st p = Some prev →
  contextListeners st !! chan = None →
  inherited chan = true →
  (joinChannel channels port chan restoreOnly st).1.1 = Throw TypeError ∧
  (joinChannel channels port chan restoreOnly st).2 = [] ∧
  let st1 := (joinChannel channels port chan restoreOnly st).1.2 in
  contextListeners st1 !! current_channel st p
    = Some (List.filter (not_id (app_id port)) prev) ∧
  contextListeners st1 !! chan = None ∧
  current_channel st1 p = current_channel st p ∧
  tabChannels st1 = tabChannels st.
Proof.
  intros Hp Hprev Hnone Hinh.
  rewrite (joinChannel_inherited channels port chan restoreOnly st p prev
             Hp Hprev Hnone Hinh).
  cbn [fst snd]. split_and!; try done.
  - cbn. apply lookup_insert_eq.
  - cbn. rewrite lookup_insert_ne by congruence. done.
Qed.

(** The chart page, listening on the default channel, joins a channel
    called constructor. *)
Lemma joinChannel_inherited_id_unlists_endpoint_witness :
  let st := Scenario.after [DirectoryLoaded []; Connect Scenario.chart;
                            Receive Scenario.chart AddContextListener] in
  (joinChannel Scenario.channels Scenario.chart "constructor" false st).1.1
    = Throw TypeError ∧
  (joinChannel Scenario.channels Scenario.chart "constructor" false st).2 = [] ∧
  let st1 := (joinChannel Scenario.channels Scenario.chart "constructor"
                false st).1.2 in
  contextListeners st1 !! "default" = Some [] ∧
  contextListeners st1 !! "constructor" = None ∧
  current_channel st1 Scenario.chart = "default" ∧
  tabChannels st1 = tabChannels st.
Proof.
  intros st.
  apply (joinChannel_inherited_id_unlists_endpoint Scenario.channels
           Scenario.chart "constructor" false st Scenario.chart
           ["fdc3-desktop-agent7"]).
  - vm_compute. reflexivity.
  - vm_compute. reflexivity.
  - vm_compute. reflexivity.
  - reflexivity.
Defined.

(** ** Intent listeners and candidates *)

Lemma addIntentListener_run port name st :
  own_or_absent (intentListeners st) name →
  addIntentListener port name st =
    (Ret tt,
     set_intentListeners
       (<[name := default [] (intentListeners st !! name) ++ [port]]>
          (intentListeners st)) st,
     []).
Proof.
  intros Hown. unfold addIntentListener. step.
  destruct (intentListeners st !! name) as [ls|] eqn:Hls;
    [|rewrite (Hown Hls)]; step; unfold modify;
    cbn [intentListeners set_intentListeners];
    rewrite ?Hls, ?lookup_insert_eq; cbn [default from_option id];
    unfold set_intentListeners; cbn; by rewrite ?insert_insert_eq.
Qed.

Lemma directory_pass_none_declares st intent dir :
  (∀ entry ints, entry ∈ dir → entry_intents entry = Some ints →
                 declares intent ints = false) →
  directory_pass st intent dir = Ret [].
Proof.
  intros Hdecl. apply directory_pass_nil. intros entry Hin.
  unfold directory_candidate.
  destruct (entry_intents entry) as [ints|] eqn:Hints; [|reflexivity].
  by rewrite (Hdecl entry ints Hin Hints).
Qed.

(** X12.  Intent listeners are not de-duplicated.  An endpoint that
    registers twice for an intent whose name meets no inherited member in
    the listener registry is listed twice, so a raise that has only this
    endpoint to go to is not delivered: the resolver UI is asked to choose
    between the endpoint and itself. *)
Theorem duplicate_registration_goes_to_resolver st port raiser data dir :
  directory st = Some dir →
  default [] (intentListeners st !! intent data) = [] →
  own_or_absent (intentListeners st) (intent data) →
  (∀ entry ints, entry ∈ dir → entry_intents entry = Some ints →
                 declares (intent data) ints = false) →
  let st2 := ((addIntentListener port (intent data) ;;
               addIntentListener port (intent data)) st).1.2 in
  intentListeners st2 !! intent data = Some [port; port] ∧
  raiseIntent raiser data st2 =
    (Ret tt, st2,
     [ResolverUI [Window port; Window port] (intent data) (context data)]).
Proof.
  intros Hdir Hnone Hown Hdecl st2.
  assert (intentListeners st2 !! intent data = Some [port; port]
          ∧ directory st2 = Some dir) as [Hls Hdir2].
  { subst st2. erewrite bind_run_Ret by (by apply addIntentListener_run).
    rewrite addIntentListener_run.
    - cbn [fst snd intentListeners directory set_intentListeners].
      rewrite !lookup_insert_eq, Hnone. done.
    - intros Habsent. cbn in Habsent. by rewrite lookup_insert_eq in Habsent. }
  split; [done|]. unfold raiseIntent. step. unfold candidates.
  rewrite Hdir2, (directory_pass_none_declares st2 (intent data) dir Hdecl).
  unfold window_pass. rewrite Hls.
  cbn [mbind outcome_bind fmap list_fmap app]. by step.
Qed.

Lemma duplicate_registration_goes_to_resolver_witness :
  let st := Scenario.after [DirectoryLoaded []; Connect Scenario.chart;
                            Connect Scenario.news] in
  let st2 := ((addIntentListener Scenario.chart "ViewChart" ;;
               addIntentListener Scenario.chart "ViewChart") st).1.2 in
  intentListeners st2 !! "ViewChart" = Some [Scenario.chart; Scenario.chart] ∧
  raiseIntent Scenario.news Scenario.viewMsft st2 =
    (Ret tt, st2,
     [ResolverUI [Window Scenario.chart; Window Scenario.chart] "ViewChart"
        Scenario.msft]).
Proof.
  intros st.
  apply (duplicate_registration_goes_to_resolver st Scenario.chart
           Scenario.news Scenario.viewMsft []).
  - vm_compute. reflexivity.
  - vm_compute. reflexivity.
  - intros _. reflexivity.
  - intros entry ints Hin. by apply elem_of_nil in Hin.
Defined.

Lemma find_first_match {A} (f : A → bool) (before after : list A) (x : A) :
  (∀ a, a ∈ before → f a = false) → f x = true →
  List.find f (before ++ x :: after) = Some x.
Proof.
  intros Hbefore Hx. induction before as [|a before IH]; cbn [app List.find].
  - by rewrite Hx.
  - rewrite (Hbefore a) by (apply elem_of_cons; by left).
    apply IH. intros a' Hin. apply Hbefore, elem_of_cons. by right.
Qed.

(** X13.  A window selection is served by the first listener of the intent,
    in registration order, that lives in the selected tab: one intent
    message with the given intent and context is posted to it and to no
    one else, and the registries stay as they are. *)
Theorem resolveIntent_posts_to_first_in_tab
    details intent context st before win after :
  intentListeners st !! intent = Some (before ++ win :: after) →
  (∀ item, item ∈ before → tab_id (sender item) ≠ tab_id (sender details)) →
  tab_id (sender win) = tab_id (sender details) →
  (resolveIntent (Window details) intent context st).2 =
    [PostMessage win (MIntent {| intent := intent; context := context;
                                 data_name := None |})] ∧
  (resolveIntent (Window details) intent context st).1.2 = st.
Proof.
  intros Hls Hbefore Hwin. unfold resolveIntent. step. rewrite Hls.
  step. rewrite find_first_match.
  - by step.
  - intros item Hin. apply Z.eqb_neq. by apply Hbefore.
  - by apply Z.eqb_eq.
Qed.

(** The news page registered before the chart page; the chart page's tab
    is selected. *)
Lemma resolveIntent_posts_to_first_in_tab_witness :
  let st := Scenario.after
              [DirectoryLoaded []; Connect Scenario.chart; Connect Scenario.news;
               Receive Scenario.news (AddIntentListener "ViewChart");
               Receive Scenario.chart (AddIntentListener "ViewChart");
               Receive Scenario.chart (AddIntentListener "ViewChart")] in
  (resolveIntent (Window Scenario.chart) "ViewChart" Scenario.msft st).2 =
    [PostMessage Scenario.chart
       (MIntent {| intent := "ViewChart"; context := Scenario.msft;
                   data_name := None |})] ∧
  (resolveIntent (Window Scenario.chart) "ViewChart" Scenario.msft st).1.2 = st.
Proof.
  intros st.
  apply (resolveIntent_posts_to_first_in_tab Scenario.chart "ViewChart"
           Scenario.msft st [Scenario.news] Scenario.chart [Scenario.chart]).
  - vm_compute. reflexivity.
  - intros item Hin. apply list_elem_of_singleton in Hin. subst item. discriminate.
  - reflexivity.
Defined.

Lemma filter_declared_only intent st dir :
  List.filter (λ entry, declared intent entry
                        && negb (existsb (matched_by st entry) [])) dir
  = List.filter (declared intent) dir.
Proof.
  induction dir as [|entry dir IH]; [reflexivity|]. cbn [List.filter existsb negb].
  rewrite andb_true_r. by rewrite <- IH.
Qed.

(** X14.  With no live listener of the intent, and its name meeting no
    inherited member in the listener registry, a raise goes by the
    directory alone and cannot throw: with no declaring entry nothing
    happens, with one its manifest is fetched for the launch, with several
    they go to the resolver UI in directory order.  The registries stay as
    they are. *)
Theorem raiseIntent_by_directory_alone st port data dir :
  directory st = Some dir →
  default [] (intentListeners st !! intent data) = [] →
  own_or_absent (intentListeners st) (intent data) →
  raiseIntent port data st =
    (Ret tt, st,
     match List.filter (declared (intent data)) dir with
     | [] => []
     | [entry] => [Fetch (entry_manifest entry) (KRaiseLaunch data)]
     | entries =>
         [ResolverUI (Directory <$> entries) (intent data) (context data)]
     end).
Proof.
  intros Hdir Hnone Hown. unfold raiseIntent. step.
  rewrite (candidates_as_specified_when_listeners_matched st (intent data) dir
             Hdir Hown).
  - unfold candidates_as_specified. rewrite Hnone, filter_declared_only. step.
    cbn [fmap list_fmap app].
    destruct (List.filter (declared (intent data)) dir) as [|e1 [|e2 es]];
      by step.
  - rewrite Hnone. intros app Hin. by apply elem_of_nil in Hin.
Qed.

(** Two directory entries declare ViewChart and nobody listens for it. *)
Lemma raiseIntent_by_directory_alone_witness :
  let st := Scenario.after
              [DirectoryLoaded [Scenario.chartEntry; Scenario.otherChartEntry];
               Connect Scenario.news] in
  raiseIntent Scenario.news Scenario.viewMsft st =
    (Ret tt, st,
     [ResolverUI [Directory Scenario.chartEntry; Directory Scenario.otherChartEntry]
        "ViewChart" Scenario.msft]).
Proof.
  intros st.
  apply (raiseIntent_by_directory_alone st Scenario.news Scenario.viewMsft
           [Scenario.chartEntry; Scenario.otherChartEntry]).
  - vm_compute. reflexivity.
  - vm_compute. reflexivity.
  - intros _. reflexivity.
Defined.

(** *** Intents named like an inherited member *)

Lemma addIntentListener_inherited port name st :
  intentListeners st !! name = None →
  inherited name = true →
  addIntentListener port name st = (Throw TypeError, st, []).
Proof.
  intros Hnone Hinh. unfold addIntentListener. step.
  rewrite Hnone, Hinh. by step.
Qed.

Lemma addIntentListener_no_inherited port name st :
  no_inherited_listeners st →
  no_inherited_listeners (addIntentListener port name st).1.2.
Proof.
  intros Hinv.
  destruct (inherited name) eqn:Hinh.
  - by rewrite (addIntentListener_inherited port name st (Hinv name Hinh) Hinh).
  - rewrite addIntentListener_run by (intros _; exact Hinh).
    intros name' Hname'. cbn. rewrite lookup_insert_ne by congruence.
    by apply Hinv.
Qed.

(** Handlers that add no intent listener list. *)
Ltac intent_names_same :=
  maintains_walk; try done;
  intros ? Hinv ? Hname; repeat case_match; cbn; by apply Hinv.

Lemma handle_no_inherited channels origin ev st :
  no_inherited_listeners st →
  no_inherited_listeners (handle channels origin ev st).1.2.
Proof.
  intros Hinv.
  assert (∀ m : Handler unit,
            maintains no_inherited_listeners (λ _, True) m (λ _, True) →
            no_inherited_listeners (m st).1.2) as Hm
    by (intros m Hmaint; by destruct (Hmaint st Hinv)).
  destruct ev as [data|q|q|q msg|k mD|q tabId title]; cbn [handle].
  - apply Hm. intent_names_same.
  - apply Hm. unfold onConnect. intent_names_same.
  - rewrite onDisconnect_state. intros name Hname. cbn.
    by rewrite lookup_fmap, (Hinv name Hname).
  - destruct msg; cbn [onMessage].
    + apply Hm. unfold open. intent_names_same.
    + apply Hm. unfold addContextListener. intent_names_same.
    + by apply addIntentListener_no_inherited.
    + apply Hm. unfold broadcast. intent_names_same.
    + apply Hm. unfold raiseIntent. intent_names_same.
    + apply Hm. unfold resolveIntent. intent_names_same.
    + apply Hm. unfold joinChannel. intent_names_same.
    + apply Hm. unfold getTabTitle. intent_names_same.
    + apply Hm. intent_names_same.
  - destruct k; cbn [onManifest].
    + apply Hm. unfold onConnect_manifest. intent_names_same.
    + apply Hm. intent_names_same.
    + apply Hm. unfold raise_launch, raise_launch_with. intent_names_same.
    + apply Hm. unfold resolve_launch. intent_names_same.
    + apply Hm. intent_names_same.
  - apply Hm. intent_names_same.
Qed.

Lemma run_no_inherited channels origin evs st :
  no_inherited_listeners st →
  no_inherited_listeners (run channels origin evs st).1.
Proof.
  revert st. induction evs as [|ev evs IH]; intros st Hinv; [done|].
  cbn [run].
  pose proof (handle_no_inherited channels origin ev st Hinv) as Hev.
  destruct (handle channels origin ev st) as [[o st1] effs1]. cbn in Hev.
  specialize (IH st1 Hev).
  by destruct (run channels origin evs st1) as [st2 effs2].
Qed.

(** X26.  An intent whose name is one that every object inherits cannot be
    used.  In every state the event loop reaches from startup no listener
    list is kept under the name, and each of addIntentListener, raiseIntent
    and the window selection of resolveIntent throws a TypeError for it,
    leaving the state as it was and posting nothing. *)
Theorem inherited_intent_is_unusable
    channels origin evs port data details context :
  inherited (intent data) = true →
  let st := (run channels origin evs (init channels)).1 in
  intentListeners st !! intent data = None ∧
  addIntentListener port (intent data) st = (Throw TypeError, st, []) ∧
  raiseIntent port data st = (Throw TypeError, st, []) ∧
  resolveIntent (Window details) (intent data) context st
    = (Throw TypeError, st, []).
Proof.
  intros Hinh st.
  assert (intentListeners st !! intent data = None) as Hnone.
  { apply run_no_inherited; [|done]. intros name _.
    assert (∀ b, intentListeners
                   (foldl (λ b chan,
                      set_contexts (<[chan_id chan := []]> (contexts b))
                        (set_contextListeners
                           (<[chan_id chan := []]> (contextListeners b)) b))
                      b channels) = intentListeners b) as Hfold.
    { induction channels as [|chan channels IH]; intros b; [done|].
      cbn [foldl]. by rewrite IH. }
    unfold init. by rewrite Hfold. }
  split_and!; [done|by apply addIntentListener_inherited| |].
  - unfold raiseIntent. step. unfold candidates, window_pass.
    rewrite Hnone, Hinh. by step.
  - unfold resolveIntent. step. rewrite Hnone, Hinh. by step.
Qed.

Lemma inherited_intent_is_unusable_witness :
  let st := (run Scenario.channels Scenario.origin
               [DirectoryLoaded [Scenario.chartEntry]; Connect Scenario.chart;
                Receive Scenario.chart (AddIntentListener "toString")]
               (init Scenario.channels)).1 in
  intentListeners st !! "toString" = None ∧
  addIntentListener Scenario.chart "toString" st = (Throw TypeError, st, []) ∧
  raiseIntent Scenario.chart
    {| intent := "toString"; context := Scenario.msft; data_name := None |} st
    = (Throw TypeError, st, []) ∧
  resolveIntent (Window Scenario.chart) "toString" Scenario.msft st
    = (Throw TypeError, st, []).
Proof.
  apply (inherited_intent_is_unusable Scenario.channels Scenario.origin
           [DirectoryLoaded [Scenario.chartEntry]; Connect Scenario.chart;
            Receive Scenario.chart (AddIntentListener "toString")]
           Scenario.chart
           {| intent := "toString"; context := Scenario.msft;
              data_name := None |}
           Scenario.chart Scenario.msft).
  reflexivity.
Defined.

(** ** Launching from a manifest *)

Lemma prop_throws v k e : prop v k = Throw e → e = TypeError.
Proof. destruct v; cbn; congruence. Qed.

Lemma build_params_throws ps ctx params e :
  build_params ps ctx params = Throw e → e = TypeError.
Proof.
  revert params. induction ps as [|[key param] ps IH]; intros params; [done|].
  cbn [build_params].
  destruct (prop ctx "type") as [ty|e'] eqn:Hty; cbn [mbind outcome_bind];
    [|intros [= <-]; by eapply prop_throws].
  destruct (strict_eq_field ty (param_type param)); [|apply IH].
  destruct (truthy_str (param_key param)).
  { destruct (prop ctx (default "" (param_key param))) as [v|e'] eqn:Hv;
      cbn [mbind outcome_bind]; [apply IH|intros [= <-]; by eapply prop_throws]. }
  destruct (truthy_str (param_id param)); [|apply IH].
  destruct (prop ctx "id") as [ids|e'] eqn:Hids; cbn [mbind outcome_bind];
    [|intros [= <-]; by eapply prop_throws].
  destruct (prop ids (default "" (param_id param))) as [v|e'] eqn:Hv;
    cbn [mbind outcome_bind]; [apply IH|intros [= <-]; by eapply prop_throws].
Qed.

Lemma find_m_no_intent (context : Val) (intent : string)
    (ints : list ManifestIntent) :
  (∀ i, i ∈ ints → mi_intent i ≠ intent) →
  let f := λ i : ManifestIntent,
             if truthy_str (mi_type i) then
               ty ← prop context "type";
               Ret (strict_eq_field ty (mi_type i)
                    && String.eqb (mi_intent i) intent)
             else Ret (String.eqb (mi_intent i) intent) in
  find_m f ints = Ret None ∨ find_m f ints = Throw TypeError.
Proof.
  intros Hno f. induction ints as [|i ints IH]; [by left|].
  cbn [find_m].
  assert (String.eqb (mi_intent i) intent = false) as Hi.
  { apply String.eqb_neq, Hno, elem_of_cons. by left. }
  assert (f i = Ret false ∨ f i = Throw TypeError) as [-> | ->].
  { subst f. cbn beta. rewrite Hi. destruct (truthy_str (mi_type i)); [|by left].
    destruct (prop context "type") as [ty|e] eqn:Hty; cbn [mbind outcome_bind].
    - left. by rewrite andb_false_r.
    - right. by rewrite (prop_throws _ _ _ Hty). }
  - cbn [mbind outcome_bind]. apply IH. intros i' Hin.
    apply Hno, elem_of_cons. by right.
  - by right.
Qed.

Lemma handler_bind_assoc {A B C} (m : Handler A) (k1 : A → Handler B)
    (k2 : B → Handler C) st :
  ((m ≫= k1) ≫= k2) st = (m ≫= λ a, k1 a ≫= k2) st.
Proof.
  unfold mbind, handler_bind. destruct (m st) as [[[a|e] st1] effs1]; [|done].
  destruct (k1 a st1) as [[[b|e] st2] effs2]; [|done].
  destruct (k2 b st2) as [[o st3] effs3]. by rewrite app_assoc.
Qed.

(** X15.  A directory selection whose manifest lists intents but none for
    the intent being resolved opens no window: the launch callback throws
    a TypeError and nothing else happens. *)
Theorem resolve_launch_without_intent_entry mD details intent context st ints :
  mf_intents mD = Some ints →
  (∀ i, i ∈ ints → mi_intent i ≠ intent) →
  resolve_launch mD details intent context st = (Throw TypeError, st, []).
Proof.
  intros Hints Hno. unfold resolve_launch. rewrite Hints.
  rewrite ?handler_bind_assoc.
  destruct (find_m_no_intent context intent ints Hno) as [-> | ->]; step;
    [|reflexivity].
  rewrite ?handler_bind_assoc.
  destruct (mf_params mD) as [ps|]; step; [|reflexivity].
  rewrite ?handler_bind_assoc.
  destruct (build_params ps context []) as [params|e] eqn:Hparams; step.
  - rewrite ?handler_bind_assoc. unfold lookup_template. by step.
  - by rewrite (build_params_throws _ _ _ _ Hparams).
Qed.

Lemma resolve_launch_without_intent_entry_witness :
  resolve_launch Scenario.manifest Scenario.otherChartEntry "ViewNews"
    Scenario.msft (init Scenario.channels)
  = (Throw TypeError, init Scenario.channels, []).
Proof.
  apply (resolve_launch_without_intent_entry Scenario.manifest
           Scenario.otherChartEntry "ViewNews" Scenario.msft
           (init Scenario.channels)
           [ {| mi_intent := "ViewChart"; mi_type := Some "security";
                mi_template := "chart" |} ]).
  - reflexivity.
  - intros i Hin. apply list_elem_of_singleton in Hin. subst i. discriminate.
Defined.

Lemma elem_of_assoc_set {A} (k : string) (v : A) (l : list (string * A)) kv :
  kv ∈ assoc_set k v l → kv = (k, v) ∨ kv ∈ l.
Proof.
  induction l as [|[k' v'] l IH]; cbn [assoc_set].
  - intros Hin%list_elem_of_singleton. by left.
  - destruct (String.eqb k k').
    + intros [->|Hin]%elem_of_cons; [by left|]. right. apply elem_of_cons. by right.
    + intros [->|Hin]%elem_of_cons.
      * right. apply elem_of_cons. by left.
      * destruct (IH Hin) as [->|Hl]; [by left|]. right. apply elem_of_cons. by right.
Qed.

(** What the code reads out of the context for one parameter. *)
Lemma build_params_sound ps ctx acc params key v :
  build_params ps ctx acc = Ret params → (key, v) ∈ params →
  (key, v) ∈ acc ∨
  ∃ param ty,
    (key, param) ∈ ps ∧
    prop ctx "type" = Ret ty ∧
    strict_eq_field ty (param_type param) = true ∧
    if truthy_str (param_key param)
    then prop ctx (default "" (param_key param)) = Ret v
    else truthy_str (param_id param) = true ∧
         ∃ ids, prop ctx "id" = Ret ids ∧
                prop ids (default "" (param_id param)) = Ret v.
Proof.
  revert acc. induction ps as [|[key0 param0] ps IH]; intros acc; cbn [build_params].
  { intros [= <-] Hin. by left. }
  destruct (prop ctx "type") as [ty|e] eqn:Hty; cbn [mbind outcome_bind]; [|done].
  rewrite <- Hty in IH. rewrite <- Hty.
  assert (∀ acc', build_params ps ctx acc' = Ret params → (key, v) ∈ params →
            ((key, v) ∈ acc' → (key, v) ∈ acc ∨ (key = key0 ∧
               ∃ param ty, param = param0 ∧ prop ctx "type" = Ret ty ∧
                 strict_eq_field ty (param_type param) = true ∧
                 if truthy_str (param_key param)
                 then prop ctx (default "" (param_key param)) = Ret v
                 else truthy_str (param_id param) = true ∧
                      ∃ ids, prop ctx "id" = Ret ids ∧
                             prop ids (default "" (param_id param)) = Ret v)) →
            (key, v) ∈ acc ∨
            ∃ param ty0, (key, param) ∈ (key0, param0) :: ps ∧
              prop ctx "type" = Ret ty0 ∧
              strict_eq_field ty0 (param_type param) = true ∧
              if truthy_str (param_key param)
              then prop ctx (default "" (param_key param)) = Ret v
              else truthy_str (param_id param) = true ∧
                   ∃ ids, prop ctx "id" = Ret ids ∧
                          prop ids (default "" (param_id param)) = Ret v) as Hrec.
  { intros acc' Hrun Hin Hacc'.
    destruct (IH acc' Hrun Hin) as [Hin'|(param & ty' & Hps & Hrest)].
    - destruct (Hacc' Hin') as [?|(-> & param & ty' & -> & Hrest)]; [by left|].
      right. exists param0, ty'. split; [apply elem_of_cons; by left|exact Hrest].
    - right. exists param, ty'. split; [apply elem_of_cons; by right|exact Hrest]. }
  destruct (strict_eq_field ty (param_type param0)) eqn:Hmatch;
    [|intros Hrun Hin; apply (Hrec acc Hrun Hin); by left].
  destruct (truthy_str (param_key param0)) eqn:Hkey.
  { destruct (prop ctx (default "" (param_key param0))) as [v0|e] eqn:Hv0;
      cbn [mbind outcome_bind]; [|done].
    intros Hrun Hin. apply (Hrec _ Hrun Hin).
    intros [[= -> ->]|Hacc]%elem_of_assoc_set; [|by left].
    right. split; [done|]. exists param0, ty. by rewrite Hkey. }
  destruct (truthy_str (param_id param0)) eqn:Hid;
    [|intros Hrun Hin; apply (Hrec acc Hrun Hin); by left].
  destruct (prop ctx "id") as [ids|e] eqn:Hids; cbn [mbind outcome_bind]; [|done].
  destruct (prop ids (default "" (param_id param0))) as [v0|e] eqn:Hv0;
    cbn [mbind outcome_bind]; [|done].
  intros Hrun Hin. apply (Hrec _ Hrun Hin).
  intros [[= -> ->]|Hacc]%elem_of_assoc_set; [|by left].
  right. split; [done|]. exists param0, ty. rewrite Hkey.
  split_and!; try done. by exists ids.
Qed.

(** X16.  Every name in the parameter object built for a context belongs to
    a manifest parameter whose declared type is the context's type, and its
    value is what that parameter points at: the context's field named by
    [key], or else the field of the context's [id] object named by [id]. *)
Theorem build_params_extracts_matching ps ctx params key v :
  build_params ps ctx [] = Ret params → (key, v) ∈ params →
  ∃ param ty,
    (key, param) ∈ ps ∧
    prop ctx "type" = Ret ty ∧
    strict_eq_field ty (param_type param) = true ∧
    if truthy_str (param_key param)
    then prop ctx (default "" (param_key param)) = Ret v
    else truthy_str (param_id param) = true ∧
         ∃ ids, prop ctx "id" = Ret ids ∧
                prop ids (default "" (param_id param)) = Ret v.
Proof.
  intros Hrun Hin.
  destruct (build_params_sound ps ctx [] params key v Hrun Hin) as [Hnil|?];
    [by apply elem_of_nil in Hnil|done].
Qed.

Lemma build_params_extracts_matching_witness :
  ∃ param ty,
    ("symbol", param) ∈ [("symbol", {| param_type := Some "security";
                                       param_key := Some "ticker";
                                       param_id := None |});
                         ("venue", {| param_type := Some "order";
                                      param_key := Some "venue";
                                      param_id := None |})] ∧
    prop Scenario.msft "type" = Ret ty ∧
    strict_eq_field ty (param_type param) = true ∧
    if truthy_str (param_key param)
    then prop Scenario.msft (default "" (param_key param)) = Ret (VStr "MSFT")
    else truthy_str (param_id param) = true ∧
         ∃ ids, prop Scenario.msft "id" = Ret ids ∧
                prop ids (default "" (param_id param)) = Ret (VStr "MSFT").
Proof.
  apply (build_params_extracts_matching _ Scenario.msft [("symbol", VStr "MSFT")]).
  - reflexivity.
  - apply list_elem_of_singleton. reflexivity.
Defined.

(** X17.  An [id] parameter of the context's type cannot be served by a
    context that has no [id] object: the parameter loop throws a TypeError
    for every object context that lacks the field. *)
Theorem build_params_id_without_id_object ps fields acc key param ty :
  (key, param) ∈ ps →
  assoc "id" fields = None →
  prop (VObj fields) "type" = Ret ty →
  strict_eq_field ty (param_type param) = true →
  truthy_str (param_key param) = false →
  truthy_str (param_id param) = true →
  build_params ps (VObj fields) acc = Throw TypeError.
Proof.
  intros Hin Hnoid Hty Hmatch Hkey Hid. revert acc.
  induction ps as [|[key0 param0] ps IH]; intros acc;
    [by apply elem_of_nil in Hin|].
  cbn [build_params]. rewrite Hty. cbn [mbind outcome_bind].
  assert (prop (VObj fields) "id" = Ret VUndef) as Hids
    by (cbn; by rewrite Hnoid).
  apply elem_of_cons in Hin as [[= <- <-]|Hin].
  - rewrite Hmatch, Hkey, Hid, Hids. reflexivity.
  - destruct (strict_eq_field ty (param_type param0)); [|by apply IH].
    destruct (truthy_str (param_key param0)); [cbn; by apply IH|].
    destruct (truthy_str (param_id param0)); [|by apply IH].
    rewrite Hids. reflexivity.
Qed.

Lemma build_params_id_without_id_object_witness :
  build_params [("symbol", {| param_type := Some "security"; param_key := None;
                              param_id := Some "ticker" |})]
    Scenario.msft [] = Throw TypeError.
Proof.
  apply (build_params_id_without_id_object _ _ [] "symbol"
           {| param_type := Some "security"; param_key := None;
              param_id := Some "ticker" |} (VStr "security")).
  - apply list_elem_of_singleton. reflexivity.
  - reflexivity.
  - reflexivity.
  - reflexivity.
  - reflexivity.
  - reflexivity.
Defined.

(** ** Opening and connecting *)

Lemma filter_first_match {A} (f : A → bool) (before after : list A) (x : A) :
  (∀ a, a ∈ before → f a = false) → f x = true →
  List.filter f (before ++ x :: after) = x :: List.filter f after.
Proof.
  intros Hbefore Hx. induction before as [|a before IH]; cbn [app List.filter].
  - by rewrite Hx.
  - rewrite (Hbefore a) by (apply elem_of_cons; by left).
    apply IH. intros a' Hin. apply Hbefore, elem_of_cons. by right.
Qed.

(** X18.  [open] goes by name and the first entry wins: it fetches the
    manifest of the first directory entry with the requested name, and the
    answer opens the manifest's start URL in a window of that name.  The
    registries stay as they are. *)
Theorem open_launches_first_named
    channels origin port name st before entry after mD :
  directory st = Some (before ++ entry :: after) →
  (∀ e, e ∈ before → entry_name e ≠ name) →
  entry_name entry = name →
  run channels origin
    [Receive port (Open name); ManifestFetched (KOpen name) mD] st =
    (st, [Fetch (entry_manifest entry) (KOpen name);
          WindowOpen (mf_start_url mD) (Some name)]).
Proof.
  intros Hdir Hbefore Hentry. cbn [run handle onMessage onManifest].
  unfold open. step. rewrite Hdir. step.
  rewrite filter_first_match.
  - reflexivity.
  - intros e Hin. apply String.eqb_neq. by apply Hbefore.
  - by apply String.eqb_eq.
Qed.

Lemma open_launches_first_named_witness :
  let st := Scenario.after
              [DirectoryLoaded [Scenario.chartEntry; Scenario.otherChartEntry];
               Connect Scenario.news] in
  run Scenario.channels Scenario.origin
    [Receive Scenario.news (Open "other-chart");
     ManifestFetched (KOpen "other-chart") Scenario.manifest] st =
    (st, [Fetch (Some "https://other-chart.example/manifest.json")
            (KOpen "other-chart");
          WindowOpen (Some "app://open") (Some "other-chart")]).
Proof.
  intros st.
  apply (open_launches_first_named Scenario.channels Scenario.origin
           Scenario.news "other-chart" st [Scenario.chartEntry]
           Scenario.otherChartEntry [] Scenario.manifest).
  - vm_compute. reflexivity.
  - intros e Hin. apply list_elem_of_singleton in Hin. subst e. discriminate.
  - reflexivity.
Defined.

Lemma find_m_none {A} (f : A → Outcome bool) (l : list A) :
  (∀ a, a ∈ l → f a = Ret false) → find_m f l = Ret None.
Proof.
  induction l as [|a l IH]; intros Hf; [reflexivity|]. cbn [find_m].
  rewrite (Hf a) by (apply elem_of_cons; by left). cbn [mbind outcome_bind].
  apply IH. intros a' Hin. apply Hf, elem_of_cons. by right.
Qed.

Lemma find_m_first_match {A} (f : A → Outcome bool) (before after : list A) x :
  (∀ a, a ∈ before → f a = Ret false) → f x = Ret true →
  find_m f (before ++ x :: after) = Ret (Some x).
Proof.
  intros Hbefore Hx. induction before as [|a before IH]; cbn [app find_m].
  - by rewrite Hx.
  - rewrite (Hbefore a) by (apply elem_of_cons; by left). cbn [mbind outcome_bind].
    apply IH. intros a' Hin. apply Hbefore, elem_of_cons. by right.
Qed.

(** X19.  An endpoint whose origin is the origin of no directory entry is
    filed as connected and told nothing: no environmentData message is
    posted to it. *)
Theorem onConnect_unlisted_origin_gets_no_bootstrap origin port st dir o :
  origin (sender_url (sender port)) = Some o →
  directory st = Some dir →
  (∀ ent url, ent ∈ dir → entry_start_url ent = Some url → url ≠ "" →
              ∃ o', origin url = Some o' ∧ o' ≠ o) →
  onConnect origin port st =
    (Ret tt, set_connected (<[app_id port := Some port]> (connected st)) st, []).
Proof.
  intros Ho Hdir Hother. unfold onConnect. rewrite Ho. step. rewrite Hdir. step.
  rewrite find_m_none.
  - by step.
  - intros ent Hin. unfold same_origin.
    destruct (entry_start_url ent) as [url|] eqn:Hurl; [|reflexivity].
    cbn [truthy_str default from_option id].
    destruct (String.eqb_spec url "") as [|Hne]; [reflexivity|]. cbn [negb].
    destruct (Hother ent url Hin Hurl Hne) as (o' & -> & Ho').
    f_equal. apply String.eqb_neq. congruence.
Qed.

Lemma onConnect_unlisted_origin_gets_no_bootstrap_witness :
  let st := Scenario.after
              [DirectoryLoaded [Scenario.chartEntry; Scenario.otherChartEntry]] in
  onConnect Scenario.origin Scenario.news st =
    (Ret tt,
     set_connected (<["fdc3-desktop-agent8" := Some Scenario.news]> (connected st)) st,
     []).
Proof.
  intros st.
  apply (onConnect_unlisted_origin_gets_no_bootstrap Scenario.origin
           Scenario.news st [Scenario.chartEntry; Scenario.otherChartEntry]
           "https://news.example").
  - reflexivity.
  - vm_compute. reflexivity.
  - intros ent url Hin Hurl _. exists url. split; [reflexivity|].
    apply elem_of_cons in Hin as [->|Hin];
      [|apply list_elem_of_singleton in Hin; subst ent];
      injection Hurl as <-; discriminate.
Defined.

(** X20.  The channel recorded for a tab outlives the endpoint.  After an
    endpoint has joined a channel (one whose id meets no inherited member
    in the listener registry) and gone away, the next endpoint that
    connects from the same tab and matches a directory entry (the first
    whose origin is its own) is handed that channel as [currentChannel]:
    in the environmentData posted at once if the entry names no manifest,
    in the data kept for the manifest's arrival otherwise. *)
Theorem tab_channel_outlives_endpoint
    channels origin port chan restoreOnly st p prev next o before entry after :
  connected_port st (app_id port) = Some p →
  contextListeners st !! current_channel st p = Some prev →
  own_or_absent (contextListeners st) chan →
  tab_id (sender next) = tab_id (sender port) →
  origin (sender_url (sender next)) = Some o →
  directory st = Some (before ++ entry :: after) →
  (∀ ent, ent ∈ before → same_origin origin o ent = Ret false) →
  same_origin origin o entry = Ret true →
  let st2 := (onDisconnect port
                (joinChannel channels port chan restoreOnly st).1.2).1.2 in
  let data := {| currentChannel := Some chan;
                 env_tabId := tab_id (sender next);
                 env_directory := None |} in
  (onConnect origin next st2).2 =
    if truthy_str (entry_manifest entry)
    then [Fetch (entry_manifest entry) (KConnect next entry data)]
    else [PostMessage next
            (MEnvironmentData {| currentChannel := Some chan;
                                 env_tabId := tab_id (sender next);
                                 env_directory := Some entry |})].
Proof.
  intros Hp Hprev Hown Htab Ho Hdir Hbefore Hentry st2 data.
  assert (tabChannels st2 !! tab_key next = Some chan ∧
          directory st2 = Some (before ++ entry :: after)) as [Htc Hdir2].
  { subst st2.
    rewrite (joinChannel_state channels port chan restoreOnly st p prev
               Hp Hprev Hown).
    rewrite onDisconnect_state. cbn. split; [|done].
    unfold tab_key. rewrite Htab. apply lookup_insert_eq. }
  unfold onConnect. rewrite Ho. step. rewrite Hdir2. step.
  rewrite (find_m_first_match _ before after entry Hbefore Hentry). step.
  rewrite Htc. fold data.
  destruct (truthy_str (entry_manifest entry)); step; reflexivity.
Qed.

(** The chart page joins red and reloads; its directory entry names no
    manifest. *)
Lemma tab_channel_outlives_endpoint_witness :
  let st := Scenario.after [DirectoryLoaded [Scenario.chartEntry];
                            Connect Scenario.chart] in
  let reloaded := Scenario.port 4 7 "https://chart.example" in
  let st2 := (onDisconnect Scenario.chart
                (joinChannel Scenario.channels Scenario.chart "red" false st).1.2).1.2 in
  (onConnect Scenario.origin reloaded st2).2 =
    [PostMessage reloaded
       (MEnvironmentData {| currentChannel := Some "red"; env_tabId := 7;
                            env_directory := Some Scenario.chartEntry |})].
Proof.
  intros st reloaded.
  apply (tab_channel_outlives_endpoint Scenario.channels Scenario.origin
           Scenario.chart "red" false st Scenario.chart [] reloaded
           "https://chart.example" [] Scenario.chartEntry []).
  - vm_compute. reflexivity.
  - vm_compute. reflexivity.
  - intros _. reflexivity.
  - reflexivity.
  - reflexivity.
  - vm_compute. reflexivity.
  - intros ent Hin. by apply elem_of_nil in Hin.
  - reflexivity.
Defined.

(** ** The content script *)

Lemma script_bind_lift_Ret {A B} (a : A) (k : A → Content.Script B) st :
  (Content.lift (Ret a) ≫= k) st = k a st.
Proof.
  unfold mbind, Content.script_bind, Content.lift.
  by destruct (k a st) as [[o st2] acts2].
Qed.

Lemma script_bind_lift_Throw {A B} e (k : A → Content.Script B) st :
  (Content.lift (Throw e) ≫= k) st = (Throw e, st, []).
Proof. done. Qed.

Lemma script_bind_modify {B} f (k : unit → Content.Script B) st :
  (Content.modify f ≫= k) st = k tt (f st).
Proof.
  unfold mbind, Content.script_bind, Content.modify.
  by destruct (k tt (f st)) as [[o st2] acts2].
Qed.

Lemma script_bind_get {B} (k : Content.State → Content.Script B) st :
  (Content.get_state ≫= k) st = k st st.
Proof.
  unfold mbind, Content.script_bind, Content.get_state.
  by destruct (k st st) as [[o st2] acts2].
Qed.

Lemma script_bind_mret {A B} (a : A) (k : A → Content.Script B) st :
  (mret a ≫= k) st = k a st.
Proof.
  unfold mbind, Content.script_bind, mret, Content.script_ret.
  by destruct (k a st) as [[o st2] acts2].
Qed.

Lemma script_bind_act {B} a (k : unit → Content.Script B) st :
  (Content.act a ≫= k) st = ((k tt st).1.1, (k tt st).1.2, a :: (k tt st).2).
Proof.
  unfold mbind, Content.script_bind, Content.act.
  by destruct (k tt st) as [[o st2] acts2].
Qed.

Lemma script_bind_assoc {A B C} (m : Content.Script A)
    (k1 : A → Content.Script B) (k2 : B → Content.Script C) st :
  ((m ≫= k1) ≫= k2) st = (m ≫= λ a, k1 a ≫= k2) st.
Proof.
  unfold mbind, Content.script_bind.
  destruct (m st) as [[[a|e] st1] acts1]; [|done].
  destruct (k1 a st1) as [[[b|e] st2] acts2]; [|done].
  destruct (k2 b st2) as [[o st3] acts3].
  by rewrite app_assoc.
Qed.

Create Rewrite HintDb script.
#[global] Hint Rewrite @script_bind_assoc @script_bind_lift_Ret
  @script_bind_lift_Throw @script_bind_modify @script_bind_get
  @script_bind_mret @script_bind_act : script.

Ltac script_step := autorewrite with script; cbn beta iota.

Lemma posted_app a b :
  Content.posted (a ++ b) = Content.posted a ++ Content.posted b.
Proof. apply omap_app. Qed.

Lemma returned_app a b :
  Content.returned (a ++ b) = Content.returned a ++ Content.returned b.
Proof. apply omap_app. Qed.

Lemma requests_app a b :
  Content.requests (a ++ b) = Content.requests a ++ Content.requests b.
Proof. apply bind_app. Qed.

Lemma content_run_app a b st :
  Content.run (a ++ b) st =
  ((Content.run b (Content.run a st).1).1,
   (Content.run a st).2 ++ (Content.run b (Content.run a st).1).2).
Proof.
  revert st. induction a as [|ev a IH]; intros st; cbn [app Content.run].
  - cbn [fst snd app]. by destruct (Content.run b st).
  - destruct (Content.run_listeners (Content.listeners ev) st) as [st1 acts1].
    rewrite IH. destruct (Content.run a st1) as [st2 acts2]. cbn.
    by rewrite app_assoc.
Qed.

(** The listener of a wired topic, given an object as detail, completes and
    hands its message on: to the broker once connected, to the queue
    before. *)
Lemma wireTopic_object topic config fields stamp st :
  let r := Content.wireTopic topic config (VObj fields) stamp st in
  Content.connected r.1.2 = Content.connected st ∧
  Content.eventQ r.1.2 =
    (if Content.connected st then Content.eventQ st
     else Content.eventQ st ++ [Content.message topic (VObj fields)]) ∧
  r.2 = (if Content.connected st
         then [Content.PostMessage (Content.message topic (VObj fields))]
         else []).
Proof.
  unfold Content.wireTopic.
  destruct config as [[[[]|] []]|]; cbn [from_option mbind option_bind
      Content.cb Content.isVoid negb Content.not_null prop Content.call];
    script_step;
    repeat match goal with
           | |- context [Content.not_null ?v] => destruct (Content.not_null v)
           end;
    script_step; unfold Content.modify, Content.act;
    destruct st as [[] q rl ch n]; cbn; done.
Qed.

(** A wired topic has the one listener its [wireTopic] call added. *)
Lemma listeners_wired topic config detail stamp :
  (topic, config) ∈ Content.wiring →
  Content.listeners (Content.PageEvent topic detail stamp)
  = [Content.wireTopic topic config detail stamp].
Proof.
  intros Hin. cbn in Hin.
  repeat (apply elem_of_cons in Hin as [[= -> ->]|Hin]; [reflexivity|]).
  by apply elem_of_nil in Hin.
Qed.

Lemma run_page_events evs st :
  Forall Content.well_formed evs →
  Content.connected (Content.run evs st).1 = Content.connected st ∧
  Content.eventQ (Content.run evs st).1 =
    (if Content.connected st then Content.eventQ st
     else Content.eventQ st ++ Content.requests evs) ∧
  Content.posted (Content.run evs st).2 =
    (if Content.connected st then Content.requests evs else []).
Proof.
  intros Hall. revert st.
  induction Hall as [|ev evs (topic & fields & stamp & -> & Hin) _ IH];
    intros st.
  - cbn. rewrite app_nil_r. by destruct (Content.connected st).
  - apply list_elem_of_fmap in Hin as ([topic' config] & -> & Hin).
    cbn [fst] in *. cbn [Content.run].
    rewrite (listeners_wired _ _ _ _ Hin). cbn [Content.run_listeners].
    pose proof (wireTopic_object topic' config fields stamp st) as Hwire.
    cbn zeta in Hwire.
    destruct (Content.wireTopic topic' config (VObj fields) stamp st)
      as [[o st1] acts1].
    cbn [fst snd] in Hwire. destruct Hwire as (Hconn & Hq & Hacts).
    specialize (IH st1).
    destruct (Content.run evs st1) as [st2 acts2]. cbn [fst snd] in *.
    destruct IH as (IHconn & IHq & IHacts).
    rewrite app_nil_r, posted_app, IHconn, IHq, IHacts, Hconn, Hq, Hacts.
    change (Content.requests (Content.PageEvent topic' (VObj fields) stamp :: evs))
      with (Content.message topic' (VObj fields) :: Content.requests evs).
    destruct (Content.connected st); cbn; [done|].
    by rewrite <- app_assoc.
Qed.

Lemma for_each_post q st :
  Content.for_each (λ e, Content.act (Content.PostMessage e)) q st
  = (Ret tt, st, Content.PostMessage <$> q).
Proof.
  induction q as [|e q IH]; [done|].
  cbn [Content.for_each]. rewrite script_bind_act, IH. done.
Qed.

Lemma script_bind_for_each_post {B} q (k : unit → Content.Script B) st :
  (Content.for_each (λ e, Content.act (Content.PostMessage e)) q ≫= k) st
  = ((k tt st).1.1, (k tt st).1.2, (Content.PostMessage <$> q) ++ (k tt st).2).
Proof.
  unfold mbind, Content.script_bind at 1. rewrite for_each_post.
  by destruct (k tt st) as [[o st2] acts2].
Qed.

Lemma posted_post q : Content.posted (Content.PostMessage <$> q) = q.
Proof.
  induction q as [|e q IH]; [done|]. cbn. by rewrite <- IH at 2.
Qed.

(** The return listeners post nothing and touch only their own table. *)
Lemma onReturn_quiet msg st :
  let r := Content.onReturn msg st in
  Content.connected r.1.2 = Content.connected st ∧
  Content.eventQ r.1.2 = Content.eventQ st ∧
  Content.posted r.2 = [].
Proof.
  unfold Content.onReturn.
  destruct (prop msg "topic") as [topic|e]; script_step; [|done].
  destruct (Content.map_get topic (Content.returnListeners st))
    as [[key listener]|]; [|done].
  destruct (prop msg "data") as [data|e]; script_step; [|done].
  destruct (prop msg "name") as [name|e]; script_step; done.
Qed.

(** What the broker's [environmentData] sets off. *)
Lemma onMessage_environmentData msg fields st :
  prop msg "topic" = Ret (VStr "environmentData") →
  prop msg "data" = Ret (VObj fields) →
  let r := Content.onMessage msg st in
  Content.connected r.1.2 = true ∧
  Content.eventQ r.1.2 = Content.eventQ st ∧
  Content.posted r.2 = Content.eventQ st ++ Content.restores fields.
Proof.
  intros Htopic Hdata. unfold Content.onMessage, Content.restores.
  rewrite Htopic. script_step. cbn [Content.is_string String.eqb Ascii.eqb Bool.eqb].
  script_step. rewrite script_bind_for_each_post, Hdata. script_step.
  cbn [prop]. script_step.
  set (channel := default VUndef (assoc "currentChannel" fields)).
  set (directory := default VUndef (assoc "directory" fields)).
  assert (∃ name, (if Content.truthy directory then prop directory "name"
                   else Ret VNull) = Ret name) as [name ->].
  { destruct (Content.truthy directory) eqn:Htruthy; [|by eexists].
    destruct directory; try discriminate; cbn; eauto. }
  script_step. cbn [fst snd].
  destruct (Content.truthy channel); script_step; cbn [fst snd];
    rewrite ?posted_app, ?posted_post, ?app_nil_r; done.
Qed.

Lemma run_environmentData msg fields st :
  prop msg "topic" = Ret (VStr "environmentData") →
  prop msg "data" = Ret (VObj fields) →
  Content.connected (Content.run [Content.PortMessage msg] st).1 = true ∧
  Content.eventQ (Content.run [Content.PortMessage msg] st).1
    = Content.eventQ st ∧
  Content.posted (Content.run [Content.PortMessage msg] st).2
    = Content.eventQ st ++ Content.restores fields.
Proof.
  intros Htopic Hdata.
  cbn [Content.run Content.listeners Content.run_listeners].
  pose proof (onReturn_quiet msg st) as Hret. cbn zeta in Hret.
  destruct (Content.onReturn msg st) as [[o1 st1] acts1].
  cbn [fst snd] in Hret. destruct Hret as (Hconn1 & Hq1 & Hposted1).
  pose proof (onMessage_environmentData msg fields st1 Htopic Hdata) as Hmsg.
  cbn zeta in Hmsg.
  destruct (Content.onMessage msg st1) as [[o2 st2] acts2].
  cbn [fst snd] in *. destruct Hmsg as (Hconn2 & Hq2 & Hposted2).
  rewrite !app_nil_r, posted_app, Hposted1, Hposted2, Hq2, Hq1. done.
Qed.

(** X21.  Take page events for wired topics, each with an object as its
    detail.  The requests of those raised before the broker has answered
    are held back and leave, in the order they were made, when an
    [environmentData] message with an object as its data arrives; the
    message restoring the tab's channel follows them, and the requests of
    those raised afterwards follow that, each sent as it is made. *)
Theorem requests_leave_in_order before after msg fields :
  Forall Content.well_formed before →
  Forall Content.well_formed after →
  prop msg "topic" = Ret (VStr "environmentData") →
  prop msg "data" = Ret (VObj fields) →
  Content.posted
    (Content.run (before ++ Content.PortMessage msg :: after) Content.initial).2
  = Content.requests before ++ Content.restores fields
      ++ Content.requests after.
Proof.
  intros Hbefore Hafter Htopic Hdata.
  change (Content.PortMessage msg :: after)
    with ([Content.PortMessage msg] ++ after).
  rewrite !content_run_app. cbn [fst snd]. rewrite !posted_app.
  destruct (run_page_events before Content.initial Hbefore)
    as (Hconn0 & Hq0 & Hposted0).
  cbn [Content.initial Content.connected Content.eventQ app] in Hconn0, Hq0, Hposted0.
  set (st1 := (Content.run before Content.initial).1) in *.
  destruct (run_environmentData msg fields st1 Htopic Hdata)
    as (Hconn1 & Hq1 & Hposted1).
  set (st2 := (Content.run [Content.PortMessage msg] st1).1) in *.
  destruct (run_page_events after st2 Hafter) as (_ & _ & Hposted2).
  rewrite Hconn1 in Hposted2.
  rewrite Hposted0, Hposted1, Hposted2, Hq0. cbn [app].
  by rewrite <- app_assoc.
Qed.

Lemma requests_leave_in_order_witness :
  Content.posted
    (Content.run
       ([Content.PageEvent "addContextListener" (VObj [("eventId", VStr "1")]) VUndef;
         Content.PageEvent "broadcast" (VObj []) VUndef]
        ++ Content.PortMessage
             (VObj [("topic", VStr "environmentData");
                    ("data", VObj [("currentChannel", VStr "red")])])
        :: [Content.PageEvent "raiseIntent" (VObj []) VUndef])
       Content.initial).2
  = [Content.message "addContextListener" (VObj [("eventId", VStr "1")]);
     Content.message "broadcast" (VObj []);
     Content.rejoin (VStr "red");
     Content.message "raiseIntent" (VObj [])].
Proof.
  apply (requests_leave_in_order
           [Content.PageEvent "addContextListener" (VObj [("eventId", VStr "1")]) VUndef;
            Content.PageEvent "broadcast" (VObj []) VUndef]
           [Content.PageEvent "raiseIntent" (VObj []) VUndef]
           (VObj [("topic", VStr "environmentData");
                  ("data", VObj [("currentChannel", VStr "red")])])
           [("currentChannel", VStr "red")]).
  - repeat constructor; eexists _, _, _; (split; [reflexivity|]);
      cbn; set_solver.
  - repeat constructor; eexists _, _, _; (split; [reflexivity|]);
      cbn; set_solver.
  - reflexivity.
  - reflexivity.
Defined.

(** X22.  The queue is read, never emptied: whatever state the script is
    in, each [environmentData] message sends every queued message again,
    followed by the message that restores the channel. *)
Theorem environmentData_repeats_queue st msg fields :
  prop msg "topic" = Ret (VStr "environmentData") →
  prop msg "data" = Ret (VObj fields) →
  Content.posted
    (Content.run [Content.PortMessage msg; Content.PortMessage msg] st).2
  = (Content.eventQ st ++ Content.restores fields)
      ++ (Content.eventQ st ++ Content.restores fields).
Proof.
  intros Htopic Hdata.
  change [Content.PortMessage msg; Content.PortMessage msg]
    with ([Content.PortMessage msg] ++ [Content.PortMessage msg]).
  rewrite content_run_app. cbn [fst snd]. rewrite posted_app.
  destruct (run_environmentData msg fields st Htopic Hdata)
    as (_ & Hq1 & Hposted1).
  set (st1 := (Content.run [Content.PortMessage msg] st).1) in *.
  destruct (run_environmentData msg fields st1 Htopic Hdata)
    as (_ & _ & Hposted2).
  by rewrite Hposted1, Hposted2, Hq1.
Qed.

Lemma environmentData_repeats_queue_witness :
  Content.posted
    (Content.run
       [Content.PortMessage (VObj [("topic", VStr "environmentData");
                                   ("data", VObj [])]);
        Content.PortMessage (VObj [("topic", VStr "environmentData");
                                   ("data", VObj [])])]
       (Content.set_eventQ [Content.message "broadcast" VNull] Content.initial)).2
  = [Content.message "broadcast" VNull; Content.message "broadcast" VNull].
Proof.
  apply (environmentData_repeats_queue
           (Content.set_eventQ [Content.message "broadcast" VNull] Content.initial)
           (VObj [("topic", VStr "environmentData"); ("data", VObj [])])
           []); reflexivity.
Defined.

Lemma same_key_string_l v id :
  Content.same_key v (VStr id) = true → v = VStr id.
Proof.
  destruct v; try discriminate. cbn. by intros ->%String.eqb_eq.
Qed.

Lemma same_key_string_r v id :
  Content.same_key (VStr id) v = true → v = VStr id.
Proof.
  destruct v; try discriminate. cbn. by intros ->%String.eqb_eq.
Qed.

(** Setting a string key makes it found, with the value set. *)
Lemma map_get_set {A} id (a : A) m :
  ∃ key, Content.map_get (VStr id) (Content.map_set (VStr id) a m)
         = Some (key, a).
Proof.
  induction m as [|[k' a'] m IH]; cbn [Content.map_set Content.map_get].
  - cbn. rewrite String.eqb_refl. by eexists.
  - destruct (Content.same_key (VStr id) k') eqn:Hkey;
      cbn [Content.map_get]; rewrite Hkey; [by eexists|done].
Qed.

(** Deleting another key leaves a string key as it was. *)
Lemma map_get_delete_other {A} id name (m : list (Val * A)) :
  name ≠ VStr id →
  Content.map_get (VStr id) (Content.map_delete name m)
  = Content.map_get (VStr id) m.
Proof.
  intros Hname.
  induction m as [|[k' a'] m IH]; [done|].
  cbn [Content.map_delete Content.map_get].
  destruct (Content.same_key name k') eqn:Hdel.
  - destruct (Content.same_key (VStr id) k') eqn:Hget; [|done].
    apply same_key_string_r in Hget as ->.
    by apply same_key_string_l in Hdel.
  - cbn [Content.map_get].
    by destruct (Content.same_key (VStr id) k').
Qed.

(** A listener wired for answers keeps, under the event's id, a return
    listener that holds that id. *)
Lemma wireTopic_registers topic config id fields stamp st :
  from_option Content.isVoid false config = false →
  assoc "eventId" fields = Some (VStr id) →
  let r := Content.wireTopic topic config (VObj fields) stamp st in
  Content.returned r.2 = [] ∧
  ∃ key, Content.map_get (VStr id) (Content.returnListeners r.1.2)
         = Some (key, {| Content.ts := stamp; Content.eventId := VStr id |}).
Proof.
  intros Hvoid Hid. unfold Content.wireTopic. rewrite Hvoid.
  cbn [negb prop]. rewrite Hid. cbn [default]. script_step.
  cbn [Content.not_null]. script_step.
  destruct (map_get_set id {| Content.ts := stamp; Content.eventId := VStr id |}
              (Content.returnListeners st)) as [key Hkey].
  destruct config as [[[[]|] isVoid]|];
    cbn [mbind option_bind Content.cb Content.call prop];
    script_step; unfold Content.modify, Content.act;
    destruct st as [[] q rl ch n]; cbn in *; eauto.
Qed.

(** An answer whose topic has a return listener is passed to the page; the
    listener stays unless the answer's [name] is its key. *)
Lemma onReturn_fires answer id data name key listener st :
  prop answer "topic" = Ret (VStr id) →
  prop answer "data" = Ret data →
  prop answer "name" = Ret name →
  name ≠ VStr id →
  Content.map_get (VStr id) (Content.returnListeners st) = Some (key, listener) →
  Content.eventId listener = VStr id →
  let r := Content.onReturn answer st in
  Content.returned r.2 = [("return_" +:+ id, data)] ∧
  Content.map_get (VStr id) (Content.returnListeners r.1.2)
    = Some (key, listener).
Proof.
  intros Htopic Hdata Hname Hother Hget Hid. unfold Content.onReturn.
  rewrite Htopic. script_step. rewrite Hget, Hdata. script_step.
  rewrite Hname. script_step. rewrite Hid.
  unfold Content.modify. cbn. by rewrite map_get_delete_other.
Qed.

Lemma returned_post q : Content.returned (Content.PostMessage <$> q) = [].
Proof. by induction q. Qed.

(** The listener for the broker's messages leaves the return listeners
    alone. *)
Lemma onMessage_no_return msg st :
  let r := Content.onMessage msg st in
  Content.returned r.2 = [] ∧
  Content.returnListeners r.1.2 = Content.returnListeners st.
Proof.
  unfold Content.onMessage.
  destruct (prop msg "topic") as [topic|e]; script_step; [|done].
  destruct (Content.is_string topic "environmentData").
  { script_step. rewrite script_bind_for_each_post. cbn [fst snd].
    rewrite returned_app, returned_post. cbn [app].
    destruct (prop msg "data") as [data|e]; script_step; [|done].
    destruct (prop data "directory") as [directory|e]; script_step; [|done].
    destruct (if Content.truthy directory then prop directory "name"
              else Ret VNull) as [name|e]; script_step; [|done].
    destruct (prop data "currentChannel") as [channel|e]; script_step; [|done].
    destruct (Content.truthy channel); script_step; done. }
  destruct (Content.is_string topic "context").
  { destruct (prop msg "data") as [data|e]; script_step; [|done].
    destruct (if Content.truthy data then prop data "context" else Ret data)
      as [context|e]; script_step; [|done].
    destruct (Content.truthy context); [|done].
    destruct (prop msg "source") as [source|e]; script_step; done. }
  destruct (Content.is_string topic "intent").
  { destruct (prop msg "data") as [data|e]; script_step; [|done].
    destruct (prop msg "source") as [source|e]; script_step; done. }
  destruct (Content.is_string topic "setCurrentChannel"); [|done].
  destruct (prop msg "data") as [data|e]; script_step; [|done].
  destruct (prop data "channel") as [channel|e]; script_step; [|done].
  destruct (Content.truthy channel); done.
Qed.

Lemma run_answer answer id data name key listener st :
  prop answer "topic" = Ret (VStr id) →
  prop answer "data" = Ret data →
  prop answer "name" = Ret name →
  name ≠ VStr id →
  Content.map_get (VStr id) (Content.returnListeners st) = Some (key, listener) →
  Content.eventId listener = VStr id →
  Content.returned (Content.run [Content.PortMessage answer] st).2
    = [("return_" +:+ id, data)] ∧
  Content.map_get (VStr id)
    (Content.returnListeners (Content.run [Content.PortMessage answer] st).1)
    = Some (key, listener).
Proof.
  intros Htopic Hdata Hname Hother Hget Hid.
  cbn [Content.run Content.listeners Content.run_listeners].
  pose proof (onReturn_fires answer id data name key listener st
                Htopic Hdata Hname Hother Hget Hid) as Hret.
  cbn zeta in Hret.
  destruct (Content.onReturn answer st) as [[o1 st1] acts1].
  cbn [fst snd] in Hret. destruct Hret as [Hacts1 Hget1].
  pose proof (onMessage_no_return answer st1) as Hmsg. cbn zeta in Hmsg.
  destruct (Content.onMessage answer st1) as [[o2 st2] acts2].
  cbn [fst snd] in *. destruct Hmsg as [Hacts2 Hsame].
  by rewrite !app_nil_r, returned_app, Hacts1, Hacts2, Hsame.
Qed.

(** X23.  A request wired for an answer and carrying a string event id
    leaves a return listener that outlives its answer: every message from
    the broker whose topic is that id is passed to the page as
    [return_<id>], a second one as much as the first, as long as the
    message's [name] is not the id. *)
Theorem answer_returns_each_time
    topic config id fields stamp answer data name st :
  (topic, config) ∈ Content.wiring →
  from_option Content.isVoid false config = false →
  assoc "eventId" fields = Some (VStr id) →
  prop answer "topic" = Ret (VStr id) →
  prop answer "data" = Ret data →
  prop answer "name" = Ret name →
  name ≠ VStr id →
  Content.returned
    (Content.run [Content.PageEvent topic (VObj fields) stamp;
                  Content.PortMessage answer;
                  Content.PortMessage answer] st).2
  = [("return_" +:+ id, data); ("return_" +:+ id, data)].
Proof.
  intros Hwired Hvoid Hid Htopic Hdata Hname Hother.
  change [Content.PageEvent topic (VObj fields) stamp;
          Content.PortMessage answer; Content.PortMessage answer]
    with ([Content.PageEvent topic (VObj fields) stamp]
          ++ [Content.PortMessage answer] ++ [Content.PortMessage answer]).
  rewrite !content_run_app. cbn [fst snd]. rewrite !returned_app.
  assert (Content.returned
            (Content.run [Content.PageEvent topic (VObj fields) stamp] st).2 = []
          ∧ ∃ key, Content.map_get (VStr id)
                     (Content.returnListeners
                        (Content.run
                           [Content.PageEvent topic (VObj fields) stamp] st).1)
                   = Some (key, {| Content.ts := stamp;
                                   Content.eventId := VStr id |}))
    as [Hquiet [key Hget]].
  { cbn [Content.run].
    rewrite (listeners_wired _ _ _ _ Hwired). cbn [Content.run_listeners].
    pose proof (wireTopic_registers topic config id fields stamp st Hvoid Hid)
      as Hreg. cbn zeta in Hreg.
    destruct (Content.wireTopic topic config (VObj fields) stamp st)
      as [[o st1] acts1].
    cbn [fst snd] in *. by rewrite !app_nil_r. }
  set (st1 := (Content.run [Content.PageEvent topic (VObj fields) stamp] st).1)
    in *.
  destruct (run_answer answer id data name key _ st1
              Htopic Hdata Hname Hother Hget eq_refl) as [Hfirst Hget2].
  set (st2 := (Content.run [Content.PortMessage answer] st1).1) in *.
  destruct (run_answer answer id data name key _ st2
              Htopic Hdata Hname Hother Hget2 eq_refl) as [Hsecond _].
  by rewrite Hquiet, Hfirst, Hsecond.
Qed.

Lemma answer_returns_each_time_witness :
  Content.returned
    (Content.run
       [Content.PageEvent "getCurrentContext"
          (VObj [("eventId", VStr "17")]) VUndef;
        Content.PortMessage (VObj [("topic", VStr "17"); ("data", VStr "x")]);
        Content.PortMessage (VObj [("topic", VStr "17"); ("data", VStr "x")])]
       Content.initial).2
  = [("return_17", VStr "x"); ("return_17", VStr "x")].
Proof.
  apply (answer_returns_each_time "getCurrentContext" None "17"
           [("eventId", VStr "17")] VUndef
           (VObj [("topic", VStr "17"); ("data", VStr "x")])
           (VStr "x") VUndef Content.initial).
  - cbn. set_solver.
  - reflexivity.
  - reflexivity.
  - reflexivity.
  - reflexivity.
  - reflexivity.
  - discriminate.
Defined.

(** X24.  A page event without detail is sent on with [null] as its data
    for every wired topic but [joinChannel], whose callback reads the
    channel off the detail and throws, so that nothing is sent. *)
Theorem null_detail_sent_unless_joinChannel topic config stamp st :
  (topic, config) ∈ Content.wiring →
  Content.connected st = true →
  Content.posted (Content.run [Content.PageEvent topic VNull stamp] st).2
  = (if String.eqb topic "joinChannel" then []
     else [Content.message topic VNull]).
Proof.
  intros Hwired Hconn.
  cbn [Content.run].
  rewrite (listeners_wired _ _ _ _ Hwired). cbn [Content.run_listeners].
  cbn in Hwired.
  repeat (apply elem_of_cons in Hwired as [[= -> ->]|Hwired];
          [unfold Content.wireTopic;
           cbn [from_option mbind option_bind Content.cb Content.isVoid negb
                Content.not_null Content.call prop];
           script_step; cbn [Content.not_null]; script_step;
           cbn [Content.connected Content.set_currentChannel];
           rewrite ?Hconn; reflexivity|]).
  by apply elem_of_nil in Hwired.
Qed.

Lemma null_detail_sent_unless_joinChannel_witness :
  Content.posted
    (Content.run [Content.PageEvent "joinChannel" VNull VUndef]
       (Content.set_connected true Content.initial)).2 = [].
Proof.
  apply (null_detail_sent_unless_joinChannel "joinChannel"
           (Some {| Content.cb := Some Content.ChannelFromDetail;
                    Content.isVoid := false |})
           VUndef (Content.set_connected true Content.initial)).
  - cbn. set_solver.
  - reflexivity.
Defined.

(** Until the script is connected a wired listener posts nothing, whether
    it completes or throws. *)
Lemma wireTopic_waiting topic config detail stamp st :
  Content.connected st = false →
  let r := Content.wireTopic topic config detail stamp st in
  Content.connected r.1.2 = false ∧ Content.posted r.2 = [].
Proof.
  intros Hconn. unfold Content.wireTopic.
  destruct config as [[[[]|] []]|];
    cbn [from_option mbind option_bind Content.cb Content.isVoid negb
         Content.call];
    script_step; cbn [Content.connected]; rewrite ?Hconn;
    try (unfold Content.modify; cbn; done);
    (destruct (if Content.not_null detail then prop detail "eventId"
               else Ret VNull) as [eventId|e]; script_step; [|done]);
    (destruct (Content.not_null eventId); script_step);
    try (destruct (prop detail "channel") as [channel|e]; script_step;
         [|done]);
    cbn [Content.connected Content.set_returnListeners
         Content.set_currentChannel]; rewrite ?Hconn;
    unfold Content.modify; cbn; done.
Qed.

Lemma wired_listeners_waiting topic detail stamp ws st :
  Content.connected st = false →
  let r := Content.run_listeners
             ((λ w : string * option Content.Config,
                 Content.wireTopic topic w.2 detail stamp) <$> ws) st in
  Content.connected r.1 = false ∧ Content.posted r.2 = [].
Proof.
  revert st. induction ws as [|w ws IH]; intros st Hconn; [done|].
  cbn [fmap list_fmap Content.run_listeners].
  pose proof (wireTopic_waiting topic w.2 detail stamp st Hconn) as Hwire.
  cbn zeta in Hwire.
  destruct (Content.wireTopic topic w.2 detail stamp st) as [[o st1] acts1].
  cbn [fst snd] in Hwire. destruct Hwire as [Hconn1 Hacts1].
  specialize (IH st1 Hconn1). cbn zeta in IH.
  change (list_fmap _ _ ?f ws) with (f <$> ws).
  destruct (Content.run_listeners _ st1) as [st2 acts2].
  cbn [fst snd] in *. destruct IH as [IHconn IHacts].
  by rewrite posted_app, Hacts1, IHacts.
Qed.

Lemma run_listeners_app a b st :
  Content.run_listeners (a ++ b) st =
  ((Content.run_listeners b (Content.run_listeners a st).1).1,
   (Content.run_listeners a st).2
     ++ (Content.run_listeners b (Content.run_listeners a st).1).2).
Proof.
  revert st. induction a as [|l a IH]; intros st;
    cbn [app Content.run_listeners].
  - cbn [fst snd app]. by destruct (Content.run_listeners b st).
  - destruct (l st) as [[o st1] acts1]. rewrite IH.
    destruct (Content.run_listeners a st1) as [st2 acts2]. cbn [fst snd].
    by rewrite app_assoc.
Qed.

(** X25.  The script never gets going with this broker.  The broker names
    its messages by [name], the script reads [topic]; so whatever the
    broker sends and whatever FDC3 events the page raises, the script stays
    unconnected, and all it posts is the notice of each
    [FDC3:resolver-close] event, which does not wait for the connection. *)
Theorem broker_never_connects_script evs :
  Forall Content.with_broker evs →
  Content.connected (Content.run evs Content.initial).1 = false ∧
  Content.posted (Content.run evs Content.initial).2 = Content.closings evs.
Proof.
  intros Hall.
  assert (∀ st, Content.connected st = false →
                Content.connected (Content.run evs st).1 = false ∧
                Content.posted (Content.run evs st).2 = Content.closings evs)
    as Hgen; [|by apply Hgen].
  induction Hall as [|ev evs Hev _ IH]; intros st Hconn; [done|].
  cbn [Content.run].
  assert (Content.connected
            (Content.run_listeners (Content.listeners ev) st).1 = false ∧
          Content.posted
            (Content.run_listeners (Content.listeners ev) st).2
            = Content.closings [ev])
    as [Hconn1 Hacts1].
  { destruct Hev as [topic detail stamp|m data].
    - cbn [Content.listeners]. rewrite run_listeners_app. cbn [fst snd].
      destruct (wired_listeners_waiting topic detail stamp
                  (List.filter (λ w, String.eqb w.1 topic) Content.wiring)
                  st Hconn) as [Hconn1 Hacts1].
      rewrite posted_app, Hacts1.
      unfold Content.closings. cbn [mbind list_bind app].
      by destruct (String.eqb topic "resolver-close").
    - cbn [Content.listeners Content.run_listeners].
      pose proof (onReturn_quiet (Content.received m data) st) as Hret.
      cbn zeta in Hret.
      destruct (Content.onReturn (Content.received m data) st)
        as [[o1 st1] acts1].
      cbn [fst snd] in Hret. destruct Hret as (Hconn1 & _ & Hacts1).
      assert (Content.onMessage (Content.received m data) st1
              = (Ret tt, st1, [])) as -> by by destruct m.
      cbn [fst snd]. rewrite !app_nil_r, Hacts1. split; [congruence|done]. }
  destruct (Content.run_listeners (Content.listeners ev) st) as [st1 acts1].
  cbn [fst snd] in *. specialize (IH st1 Hconn1).
  destruct (Content.run evs st1) as [st2 acts2]. cbn [fst snd] in *.
  destruct IH as [IHconn IHacts].
  rewrite posted_app, Hacts1, IHacts.
  split; [done|]. unfold Content.closings. cbn [mbind list_bind].
  by rewrite app_nil_r.
Qed.

Lemma broker_never_connects_script_witness :
  Content.connected
    (Content.run
       [Content.PageEvent "addContextListener" (VObj []) VUndef;
        Content.PortMessage
          (Content.received
             (MEnvironmentData {| currentChannel := Some "red";
                                  env_tabId := 7;
                                  env_directory := None |})
             (VObj [("currentChannel", VStr "red")]));
        Content.PageEvent "resolver-close" VNull VUndef]
       Content.initial).1 = false ∧
  Content.posted
    (Content.run
       [Content.PageEvent "addContextListener" (VObj []) VUndef;
        Content.PortMessage
          (Content.received
             (MEnvironmentData {| currentChannel := Some "red";
                                  env_tabId := 7;
                                  env_directory := None |})
             (VObj [("currentChannel", VStr "red")]));
        Content.PageEvent "resolver-close" VNull VUndef]
       Content.initial).2 = [Content.closing].
Proof.
  apply (broker_never_connects_script
           [Content.PageEvent "addContextListener" (VObj []) VUndef;
            Content.PortMessage
              (Content.received
                 (MEnvironmentData {| currentChannel := Some "red";
                                      env_tabId := 7;
                                      env_directory := None |})
                 (VObj [("currentChannel", VStr "red")]));
            Content.PageEvent "resolver-close" VNull VUndef]).
  repeat constructor.
Defined.
